(** * go-zero core primitives: rolling window, adaptive breaker,
      shared calls and consistent hash

    A shallow embedding of
      - [core/collection/rollingwindow.go], with its two earlier revisions,
      - package [timex] and [mathx.Proba],
      - package [breaker]: [googleBreaker] and its promises,
      - [core/syncx/sharedcalls.go],
      - package [hash]: [ConsistentHash],
      - [core/stores/cache/util.go],
    and the properties of these components.

    Conventions of the embedding.
      - Go's [int], [int64] and [time.Duration] are integers of [Z]; [/] and
        [%] are Go's truncated division and remainder ([Z.quot], [Z.rem]) and
        panic on a zero divisor.  No function below gets near the 64-bit
        bounds on the inputs considered, and overflow is not modelled.
      - A [float64] is the rational it denotes, in [Q].  The arithmetic of
        the breaker's drop ratio is that of the machine: each conversion,
        product, difference and quotient is computed exactly and then
        rounded to the nearest float of 53 bits, ties to even ([Float64]);
        comparisons and [math.Max] are exact.  Infinities and NaN are not
        rationals: the one division is by [total + 1], which is not zero for
        a total that is not negative, and no value gets near the overflow
        threshold.  Bucket sums are added exactly; the breaker adds 0 and 1
        only, where the machine's sum is exact too.
      - A panic (index out of range, division by zero, an explicit [panic])
        is the result [None] of a function into [option].
      - The monotonic clock and the random generator are outside the
        program: every reading of [timex.Now] is an argument of the function
        that takes it, in the order the code takes them, and the generator of
        [mathx.Proba] is a sequence of samples of [[0,1)] with a cursor. *)

From Stdlib Require Import ZArith QArith Qminmax Qround Qpower Lia Lqa.
From stdpp Require Import base option list gmap strings pretty sorting.

Local Open Scope Z_scope.

(** ** Go's integer operators, slices and counted loops *)

Module Go.

(** [a / b] on integers: truncation towards zero, panic when [b = 0]. *)
Definition div (a b : Z) : option Z :=
  if decide (b = 0) then None else Some (Z.quot a b).

(** [a % b] on integers: sign of the dividend, panic when [b = 0]. *)
Definition rem (a b : Z) : option Z :=
  if decide (b = 0) then None else Some (Z.rem a b).

(** [s[i]]: panics outside [0 <= i < len(s)]. *)
Definition index {A} (s : list A) (i : Z) : option A :=
  if decide (0 ≤ i) then s !! Z.to_nat i else None.

(** [s[i] = f(s[i])] through the pointer stored in the slice. *)
Definition update {A} (f : A → A) (s : list A) (i : Z) : option (list A) :=
  x ← index s i; Some (<[Z.to_nat i := f x]> s).

(** [n] rounds of a loop body whose counter starts at [i]. *)
Fixpoint iter {St} (n : nat) (i : Z) (body : Z → St → option St) (s : St)
  : option St :=
  match n with
  | O => Some s
  | S n' => s' ← body i s; iter n' (i + 1) body s'
  end.

(** [for i := lo; i < hi; i++ { body }], the body not assigning [i]. *)
Definition for_range {St} (lo hi : Z) (body : Z → St → option St) (s : St)
  : option St :=
  iter (Z.to_nat (hi - lo)) lo body s.

End Go.

(** ** core/timex: durations since a fixed epoch *)

Module Timex.

(** [timex.Since(d)] when the clock reads [now]. *)
Definition Since (now d : Z) : Z := now - d.

End Timex.

(** ** core/collection: the rolling window *)

Module Collection.

Record Bucket := mkBucket { Sum : Q; Count : Z }.

Definition Bucket_add (v : Q) (b : Bucket) : Bucket :=
  {| Sum := (Sum b + v)%Q; Count := Count b + 1 |}.

Definition Bucket_reset (b : Bucket) : Bucket :=
  {| Sum := 0%Q; Count := 0 |}.

Definition zeroBucket : Bucket := {| Sum := 0%Q; Count := 0 |}.

Record window := mkWindow { buckets : list Bucket; w_size : Z }.

Definition newWindow (size : Z) : window :=
  {| buckets := replicate (Z.to_nat size) zeroBucket; w_size := size |}.

Definition with_buckets (w : window) (bs : list Bucket) : window :=
  {| buckets := bs; w_size := w_size w |}.

(** [w.buckets[offset%w.size].add(v)] *)
Definition window_add (w : window) (offset : Z) (v : Q) : option window :=
  i ← Go.rem offset (w_size w);
  with_buckets w <$> Go.update (Bucket_add v) (buckets w) i.

(** [fn(w.buckets[(start+i)%w.size])] for [i] from [0] below [count]; the
    callback's effect on the caller's variables is the accumulator. *)
Definition window_reduce {A} (w : window) (start count : Z)
    (fn : Bucket → A → A) (acc : A) : option A :=
  Go.for_range 0 count
    (λ i acc, p ← Go.rem (start + i) (w_size w);
              b ← Go.index (buckets w) p;
              Some (fn b acc))
    acc.

(** [w.buckets[offset%w.size].reset()] *)
Definition window_resetBucket (w : window) (offset : Z) : option window :=
  i ← Go.rem offset (w_size w);
  with_buckets w <$> Go.update Bucket_reset (buckets w) i.

(** The oldest revision indexes without the remainder:
    [w.buckets[offset].reset()]. *)
Definition window_resetBucket_direct (w : window) (offset : Z)
  : option window :=
  with_buckets w <$> Go.update Bucket_reset (buckets w) offset.

Record RollingWindow := mkRollingWindow {
  size : Z;
  win : window;
  interval : Z;
  offset : Z;
  ignoreCurrent : bool;
  lastTime : Z
}.

Definition RollingWindowOption := RollingWindow → RollingWindow.

Definition IgnoreCurrentBucket : RollingWindowOption :=
  λ w, {| size := size w; win := win w; interval := interval w;
          offset := offset w; ignoreCurrent := true;
          lastTime := lastTime w |}.

(** [now] is the reading of [timex.Now()] at construction. *)
Definition NewRollingWindow (sz itv : Z) (opts : list RollingWindowOption)
    (now : Z) : option RollingWindow :=
  if decide (sz < 1) then None
  else Some (foldl (λ w opt, opt w)
               {| size := sz; win := newWindow sz; interval := itv;
                  offset := 0; ignoreCurrent := false; lastTime := now |}
               opts).

(** [span]: whole intervals elapsed since [lastTime], capped at [size]. *)
Definition span (rw : RollingWindow) (now : Z) : option Z :=
  off ← Go.div (Timex.Since now (lastTime rw)) (interval rw);
  Some (if decide (0 ≤ off ∧ off < size rw) then off else size rw).

Definition rotated (rw : RollingWindow) (w : window) (off last : Z)
  : RollingWindow :=
  {| size := size rw; win := w; interval := interval rw; offset := off;
     ignoreCurrent := ignoreCurrent rw; lastTime := last |}.

(** The body of [updateOffset] once [span > 0] is known; [now] is the
    reading of [timex.Now()] taken after the buckets are reset. *)
Definition rotate (rw : RollingWindow) (sp now : Z) : option RollingWindow :=
  let off := offset rw in
  w ← Go.for_range 0 sp
        (λ i w, p ← Go.rem (off + i + 1) (size rw); window_resetBucket w p)
        (win rw);
  off' ← Go.rem (off + sp) (size rw);
  r ← Go.rem (now - lastTime rw) (interval rw);
  Some (rotated rw w off' (now - r)).

(** [updateOffset]: [now_span] is the clock reading inside [span()]. *)
Definition updateOffset (rw : RollingWindow) (now_span now : Z)
  : option RollingWindow :=
  sp ← span rw now_span;
  if decide (sp ≤ 0) then Some rw else rotate rw sp now.

Definition with_win (rw : RollingWindow) (w : window) : RollingWindow :=
  rotated rw w (offset rw) (lastTime rw).

Definition Add (rw : RollingWindow) (now_span now : Z) (v : Q)
  : option RollingWindow :=
  rw' ← updateOffset rw now_span now;
  with_win rw' <$> window_add (win rw') (offset rw') v.

Definition Reduce {A} (rw : RollingWindow) (now : Z)
    (fn : Bucket → A → A) (acc : A) : option A :=
  sp ← span rw now;
  let diff := if decide (sp = 0 ∧ ignoreCurrent rw = true)
              then size rw - 1 else size rw - sp in
  if decide (0 < diff) then
    off ← Go.rem (offset rw + sp + 1) (size rw);
    window_reduce (win rw) off diff fn acc
  else Some acc.

(** *** The two earlier revisions of [updateOffset] *)

(** First revision: split loops, the new offset tracked in the loops,
    buckets indexed directly, [lastTime] set to the raw clock reading. *)
Definition rotate_v1 (rw : RollingWindow) (sp now : Z)
  : option RollingWindow :=
  let off0 := offset rw in
  let start := off0 + 1 in
  let steps0 := start + sp in
  let remainder := if decide (steps0 > size rw) then steps0 - size rw else 0 in
  let steps := if decide (steps0 > size rw) then size rw else steps0 in
  let body := λ i (s : window * Z),
    w ← window_resetBucket_direct s.1 i; Some (w, i) in
  s1 ← Go.for_range start steps body (win rw, off0);
  s2 ← Go.for_range 0 remainder body s1;
  Some (rotated rw s2.1 s2.2 now).

Definition updateOffset_v1 (rw : RollingWindow) (now_span now : Z)
  : option RollingWindow :=
  sp ← span rw now_span;
  if decide (sp > 0) then rotate_v1 rw sp now else Some rw.

(** Second revision: split loops over [resetBucket] with the remainder,
    the offset computed once, [lastTime] still the raw clock reading. *)
Definition rotate_v2 (rw : RollingWindow) (sp now : Z)
  : option RollingWindow :=
  let off := offset rw in
  let start := off + 1 in
  let steps0 := start + sp in
  let remainder := if decide (steps0 > size rw) then steps0 - size rw else 0 in
  let steps := if decide (steps0 > size rw) then size rw else steps0 in
  w1 ← Go.for_range start steps (λ i w, window_resetBucket w i) (win rw);
  w2 ← Go.for_range 0 remainder (λ i w, window_resetBucket w i) w1;
  off' ← Go.rem (off + sp) (size rw);
  Some (rotated rw w2 off' now).

Definition updateOffset_v2 (rw : RollingWindow) (now_span now : Z)
  : option RollingWindow :=
  sp ← span rw now_span;
  if decide (sp ≤ 0) then Some rw else rotate_v2 rw sp now.

(** [Add] of the second revision: the same two calls, on its own
    [updateOffset]. *)
Definition Add_v2 (rw : RollingWindow) (now_span now : Z) (v : Q)
  : option RollingWindow :=
  rw' ← updateOffset_v2 rw now_span now;
  with_win rw' <$> window_add (win rw') (offset rw') v.

(** *** Well-formed windows *)

Record wf (rw : RollingWindow) : Prop := {
  wf_size : 1 ≤ size rw;
  wf_w_size : w_size (win rw) = size rw;
  wf_len : Z.of_nat (length (buckets (win rw))) = size rw;
  wf_offset : 0 ≤ offset rw < size rw;
  wf_interval : 0 < interval rw
}.

(** *** Vocabulary of the statements *)

(** [w] is [w0] with the buckets at the positions of [R] zeroed and every
    other bucket as it was. *)
Definition reset_where (R : Z → Prop) (w0 w : window) : Prop :=
  w_size w = w_size w0 ∧ length (buckets w) = length (buckets w0) ∧
  ∀ p b, Go.index (buckets w0) p = Some b →
    (R p → Go.index (buckets w) p = Some zeroBucket) ∧
    (¬ R p → Go.index (buckets w) p = Some b).

(** The positions [(offset + 1) mod N .. (offset + sp) mod N]. *)
Definition aged (rw : RollingWindow) (sp p : Z) : Prop :=
  ∃ j, 1 ≤ j ≤ sp ∧ p = (offset rw + j) `mod` size rw.

Definition aged_positions (rw : RollingWindow) (sp : Z) : list Z :=
  (λ j, (offset rw + j) `mod` size rw) <$> seqZ 1 sp.

(** The same positions as the split loops visit them: up to the end of
    the slice, then from its start. *)
Definition aged_split (rw : RollingWindow) (sp p : Z) : Prop :=
  offset rw + 1 ≤ p ≤ offset rw + sp ∨ 0 ≤ p ≤ offset rw + sp - size rw.

(** The windows a program can hold: a constructed one, then any number
    of [Add] calls at whatever the clock reads. *)
Inductive adds : RollingWindow → RollingWindow → Prop :=
| adds_refl rw : adds rw rw
| adds_step rw rw1 rw2 now_span now v :
    adds rw rw1 → Add rw1 now_span now v = Some rw2 → adds rw rw2.

(** The positions [Reduce] reports, in the order of the report. *)
Definition reported_positions (rw : RollingWindow) (sp diff : Z) : list Z :=
  (λ i, (offset rw + sp + 1 + i) `mod` size rw) <$> seqZ 0 diff.

(** A window of four buckets of 100 time units, the current one last. *)
Definition sample_window : RollingWindow :=
  {| size := 4;
     win := {| buckets := [mkBucket 1 1; mkBucket 2 2; mkBucket 0 0;
                           mkBucket 3 3];
               w_size := 4 |};
     interval := 100; offset := 3; ignoreCurrent := false;
     lastTime := 1000 |}.

End Collection.


(** ** Go's [float64] (IEEE-754 binary64), as far as the breaker uses it

    A finite [float64] is [m * 2^e] with [|m| < 2^53] and [e >= -1074].
    Go's operators compute the exact result and round it to the nearest
    such value, ties to the even significand. *)

Module Float64.

(** Bits of the significand, and the exponent of the smallest float. *)
Definition prec : Z := 53.
Definition emin : Z := -1074.

Definition pow2 (e : Z) : Q := (2 ^ e)%Q.

(** [floor (log2 x)] for [x > 0]. *)
Definition ilog2 (x : Q) : Z :=
  if Qle_bool 1 x then Z.log2 (Qfloor x)
  else - Z.log2_up (Qceiling (/ x)).

(** The nearest integer, the even one of two that are equally near. *)
Definition rne (q : Q) : Z :=
  let f := Qfloor q in
  match (q - inject_Z f ?= 1 # 2)%Q with
  | Lt => f
  | Eq => if Z.even f then f else f + 1
  | Gt => f + 1
  end.

(** The exponent of the floats around [x > 0]: the significand of [x]
    takes [prec] bits, unless [x] is subnormal. *)
Definition exponent (x : Q) : Z := Z.max emin (ilog2 x - (prec - 1)).

Definition round_pos (x : Q) : Q :=
  let e := exponent x in
  (inject_Z (rne (x / pow2 e)) * pow2 e)%Q.

(** Rounding to the nearest float; it is symmetric around zero. *)
Definition round (x : Q) : Q :=
  match (x ?= 0)%Q with
  | Eq => 0%Q
  | Gt => round_pos x
  | Lt => (- round_pos (- x))%Q
  end.

(** [x - y], [x * y] and [x / y] on floats, and [float64(n)] for an
    integer. *)
Definition sub (x y : Q) : Q := round (x - y).
Definition mul (x y : Q) : Q := round (x * y).
Definition div (x y : Q) : Q := round (x / y).
Definition of_int (n : Z) : Q := round (inject_Z n).

End Float64.

(** ** core/mathx: the probability source *)

Module Mathx.

(** [Proba] wraps a [rand.Rand]: the samples [r.Float64()] will return, each
    in [[0,1)], and how many of them have been drawn. *)
Record Proba := mkProba { samples : nat → Q; drawn : nat }.

Definition NewProba (seeded : nat → Q) : Proba :=
  {| samples := seeded; drawn := 0%nat |}.

(** [x < y] on floats, as a boolean. *)
Definition Qlt_bool (x y : Q) : bool :=
  match (x ?= y)%Q with Lt => true | _ => false end.

(** [truth = p.r.Float64() < proba] *)
Definition TrueOnProba (p : Proba) (proba : Q) : bool * Proba :=
  (Qlt_bool (samples p (drawn p)) proba,
   {| samples := samples p; drawn := S (drawn p) |}).

End Mathx.

(** ** core/breaker: the adaptive throttle *)

Module Breaker.
Import Collection Mathx.

(** Go's [error] values: [nil], the breaker's sentinel, or one of the
    caller's. *)
Inductive error :=
| nil
| ErrServiceUnavailable
| UserError (msg : string).

#[global] Instance error_eq_dec : EqDecision error.
Proof. solve_decision. Defined.

(** The constants [window] ([time.Second * 10], in nanoseconds), [buckets],
    [k] (1.5) and [protection]. *)
Definition window : Z := 1000000000 * 10.
Definition gb_buckets : Z := 40.
Definition k : Q := 3 # 2.
Definition protection : Z := 5.

Record googleBreaker := mkBreaker {
  gb_k : Q;
  stat : RollingWindow;
  proba : Proba
}.

Definition with_stat (b : googleBreaker) (st : RollingWindow) :=
  {| gb_k := gb_k b; stat := st; proba := proba b |}.

Definition with_proba (b : googleBreaker) (p : Proba) :=
  {| gb_k := gb_k b; stat := stat b; proba := p |}.

Definition newGoogleBreaker (now : Z) (seeded : nat → Q)
  : option googleBreaker :=
  let bucketDuration := window ÷ gb_buckets in
  st ← NewRollingWindow gb_buckets bucketDuration [] now;
  Some {| gb_k := k; stat := st; proba := NewProba seeded |}.

(** [int64(x)] for a float: the fraction is dropped. *)
Definition int64_of_float (x : Q) : Z := Qnum x ÷ Z.pos (Qden x).

(** [float64(n)] for an integer. *)
Definition float64 (n : Z) : Q := Float64.of_int n.

(** [math.Max] on two numbers. *)
Definition math_Max (x y : Q) : Q := Qmax x y.

(** [history]: accepts and total over the buckets [Reduce] reports. *)
Definition history (b : googleBreaker) (now : Z) : option (Z * Z) :=
  Reduce (stat b) now
    (λ bk (acc : Z * Z),
       (acc.1 + int64_of_float (Sum bk), acc.2 + Count bk))
    (0, 0).

(** The drop ratio [accept] computes from a reading of the window, each
    operation rounded as the machine rounds it.  (A compiler may fuse the
    product and the difference into one rounding; the two agree wherever
    the product is exact, which it is up to [2^50] accepts.) *)
Definition dropRatio (kk : Q) (accepts total : Z) : Q :=
  let weightedAccepts := Float64.mul kk (float64 accepts) in
  math_Max 0 (Float64.div
                (Float64.sub (float64 (total - protection)) weightedAccepts)
                (float64 (total + 1))).

Definition accept (b : googleBreaker) (now : Z)
  : option (error * googleBreaker) :=
  '(accepts, total) ← history b now;
  let dropRatio := dropRatio (gb_k b) accepts total in
  if Qle_bool dropRatio 0 then Some (nil, b)
  else
    let '(truth, p) := TrueOnProba (proba b) dropRatio in
    if truth then Some (ErrServiceUnavailable, with_proba b p)
    else Some (nil, with_proba b p).

Definition markSuccess (b : googleBreaker) (now_span now : Z)
  : option googleBreaker :=
  with_stat b <$> Add (stat b) now_span now 1.

Definition markFailure (b : googleBreaker) (now_span now : Z)
  : option googleBreaker :=
  with_stat b <$> Add (stat b) now_span now 0.

(** How a call of [req] ends: with an error value, or in a panic. *)
Inductive outcome :=
| Returned (err : error)
| Panicked (v : string).

(** [doReq]: [now_accept] is read by [accept], [now_span] and [now] by the
    [Add] that marks the outcome. *)
Definition doReq (b : googleBreaker) (now_accept now_span now : Z)
    (req : unit → outcome) (fallback : option (error → error))
    (acceptable : error → bool) : option (outcome * googleBreaker) :=
  '(err, b) ← accept b now_accept;
  if decide (err ≠ nil) then
    match fallback with
    | Some f => Some (Returned (f err), b)
    | None => Some (Returned err, b)
    end
  else
    match req () with
    | Panicked e =>
        b ← markFailure b now_span now; Some (Panicked e, b)
    | Returned err =>
        if acceptable err
        then b ← markSuccess b now_span now; Some (Returned err, b)
        else b ← markFailure b now_span now; Some (Returned err, b)
    end.

(** The drop ratio as the specification writes it, in exact arithmetic. *)
Definition drop (accepts total : Z) : Q :=
  Qmax 0
    ((inject_Z total - 5 - (3 # 2) * inject_Z accepts)
     / (inject_Z total + 1))%Q.

(** A breaker whose window holds the two bucket contents given, the
    current bucket having started at [1200]. *)
Definition sample_breaker (a b : Bucket) (seeded : nat → Q) : googleBreaker :=
  {| gb_k := k;
     stat := {| size := 2;
                win := {| buckets := [a; b]; w_size := 2 |};
                interval := 100; offset := 1; ignoreCurrent := false;
                lastTime := 1200 |};
     proba := NewProba seeded |}.

(** The float next below one seventh: [1 / 7] rounded. *)
Definition seventh : Q := 5146971002709138 # 36028797018963968.

End Breaker.

(** ** core/syncx: shared calls

    Goroutines run [Do] and [DoEx] on one group.  The group's mutex guards
    every access to [calls], so a critical section is one step of the
    goroutine that runs it; [wg.Wait] and [wg.Done] are steps of their own.
    A goroutine is where its program counter says, and the steps of all
    goroutines interleave. *)

Module Syncx.

(** Addresses of [call] records on the heap. *)
Definition loc := positive.

Section SharedCalls.
Context {V E : Type}.

(** [call]: the counter of its [sync.WaitGroup], [val] and [err] ([None]
    for [nil]). *)
Record call := mkCall { wg : Z; val : option V; err : option E }.

(** How a call of [fn] ends. *)
Inductive fn_outcome :=
| FnReturns (v : option V) (e : option E)
| FnPanics (p : string).

(** Where a goroutine is in [Do] ([ex = false]) or [DoEx] ([ex = true]). *)
Inductive pc :=
| AtCreateCall (key : string) (fn : unit → fn_outcome) (ex : bool)
    (* about to lock in [createCall] *)
| AtWait (c : loc) (ex : bool)
    (* found [c] under the key, unlocked; in [c.wg.Wait()] *)
| AtFn (c : loc) (key : string) (fn : unit → fn_outcome) (ex : bool)
    (* stored the new [c] under the key, unlocked; in [makeCall], at [fn()] *)
| AtDelete (c : loc) (key : string) (ex : bool) (p : option string)
    (* in the deferred function, about to lock; [p] is the panic of [fn] *)
| AtDone (c : loc) (ex : bool) (p : option string)
    (* deleted the key, unlocked; about to run [c.wg.Done()] *)
| Returned (v : option V) (fresh : option bool) (e : option E)
    (* [fresh] is [None] for [Do] *)
| Panicked (p : string).

Record state := mkState {
  calls : gmap string loc;     (* [g.calls] *)
  heap : gmap loc call;        (* the [call] records allocated so far *)
  threads : list pc            (* the goroutines *)
}.

(** [NewSharedCalls()], no goroutine using it yet. *)
Definition NewSharedCalls : state :=
  {| calls := ∅; heap := ∅; threads := [] |}.

Definition fresh_flag (ex fresh : bool) : option bool :=
  if ex then Some fresh else None.

Inductive step : state → state → Prop :=
| step_go σ key fn ex :
    (* a goroutine calls [Do(key, fn)] or [DoEx(key, fn)] *)
    step σ {| calls := calls σ; heap := heap σ;
              threads := threads σ ++ [AtCreateCall key fn ex] |}
| step_createCall_found σ i key fn ex c :
    (* [if c, ok := g.calls[key]; ok { g.lock.Unlock(); ... }] *)
    threads σ !! i = Some (AtCreateCall key fn ex) →
    calls σ !! key = Some c →
    step σ {| calls := calls σ; heap := heap σ;
              threads := <[i := AtWait c ex]> (threads σ) |}
| step_createCall_new σ i key fn ex :
    (* [c = new(call); c.wg.Add(1); g.calls[key] = c; g.lock.Unlock()] *)
    threads σ !! i = Some (AtCreateCall key fn ex) →
    calls σ !! key = None →
    let c := fresh (dom (heap σ)) in
    step σ {| calls := <[key := c]> (calls σ);
              heap := <[c := mkCall 1 None None]> (heap σ);
              threads := <[i := AtFn c key fn ex]> (threads σ) |}
| step_wait σ i c ex r :
    (* [c.wg.Wait()] passes; [return c.val, c.err] *)
    threads σ !! i = Some (AtWait c ex) →
    heap σ !! c = Some r → wg r = 0 →
    step σ {| calls := calls σ; heap := heap σ;
              threads := <[i := Returned (val r) (fresh_flag ex false) (err r)]>
                           (threads σ) |}
| step_fn_returns σ i c key fn ex v e r :
    (* [c.val, c.err = fn()] *)
    threads σ !! i = Some (AtFn c key fn ex) →
    fn () = FnReturns v e →
    heap σ !! c = Some r →
    step σ {| calls := calls σ;
              heap := <[c := mkCall (wg r) v e]> (heap σ);
              threads := <[i := AtDelete c key ex None]> (threads σ) |}
| step_fn_panics σ i c key fn ex p :
    (* [fn()] panics: nothing is assigned, the deferred function runs *)
    threads σ !! i = Some (AtFn c key fn ex) →
    fn () = FnPanics p →
    step σ {| calls := calls σ; heap := heap σ;
              threads := <[i := AtDelete c key ex (Some p)]> (threads σ) |}
| step_delete σ i c key ex p :
    (* [g.lock.Lock(); delete(g.calls, key); g.lock.Unlock()] *)
    threads σ !! i = Some (AtDelete c key ex p) →
    step σ {| calls := delete key (calls σ); heap := heap σ;
              threads := <[i := AtDone c ex p]> (threads σ) |}
| step_done σ i c ex p r :
    (* [c.wg.Done()], then the return of [Do]/[DoEx] or the panic going on *)
    threads σ !! i = Some (AtDone c ex p) →
    heap σ !! c = Some r →
    step σ {| calls := calls σ;
              heap := <[c := mkCall (wg r - 1) (val r) (err r)]> (heap σ);
              threads := <[i := match p with
                                | Some p => Panicked p
                                | None => Returned (val r) (fresh_flag ex true)
                                            (err r)
                                end]> (threads σ) |}.

(** The states a program reaches from a new group. *)
Definition reachable (σ : state) : Prop := rtc step NewSharedCalls σ.

(** The goroutine at [t] executes the call [c]: it is between storing [c]
    in the index and signalling its completion. *)
Definition executes (t : pc) (c : loc) : Prop :=
  match t with
  | AtFn c' _ _ _ | AtDelete c' _ _ _ | AtDone c' _ _ => c' = c
  | _ => False
  end.

(** The goroutine at [t] executes [c] and has not yet deleted [key]. *)
Definition indexed (t : pc) (c : loc) (key : string) : Prop :=
  match t with
  | AtFn c' k _ _ | AtDelete c' k _ _ => c' = c ∧ k = key
  | _ => False
  end.

Record inv (σ : state) : Prop := {
  inv_indexed : ∀ k c, calls σ !! k = Some c →
                  ∃ i t, threads σ !! i = Some t ∧ indexed t c k;
  inv_pending : ∀ i t c, threads σ !! i = Some t → executes t c →
                  ∃ r, heap σ !! c = Some r ∧ wg r = 1;
  inv_owner : ∀ i j t t' c, threads σ !! i = Some t → threads σ !! j = Some t' →
                executes t c → executes t' c → i = j
}.

End SharedCalls.

Arguments call : clear implicits.
Arguments fn_outcome : clear implicits.
Arguments pc : clear implicits.
Arguments state : clear implicits.

End Syncx.

(** ** Go's [sort.Search] and [sort.Slice] (standard library) *)

Module Sort.

(** The loop of [sort.Search]: [h := int(uint(i+j) >> 1)], then [i = h + 1]
    if [!f(h)] and [j = h] otherwise, while [i < j].  A panic of [f] is a
    panic of the search. *)
Fixpoint search_loop (fuel : nat) (f : Z → option bool) (i j : Z)
  : option Z :=
  match fuel with
  | O => Some i
  | S fuel' =>
      if decide (i < j) then
        let h := Z.shiftr (i + j) 1 in
        b ← f h;
        if negb b then search_loop fuel' f (h + 1) j
        else search_loop fuel' f i h
      else Some i
  end.

(** [sort.Search(n, f)]; the interval halves in every round, so [n] rounds
    are enough. *)
Definition Search (n : Z) (f : Z → option bool) : option Z :=
  search_loop (Z.to_nat n) f 0 n.

(** [sort.Slice(keys, func(i, j) bool { return keys[i] < keys[j] })]: the
    keys in ascending order. *)
Definition Slice (keys : list N) : list N := merge_sort N.le keys.

End Sort.

(** ** core/hash: the consistent hash ring *)

Module Hash.

Definition minReplicas : Z := 100.

(** [strconv.Itoa] *)
Definition Itoa (i : Z) : string := pretty i.

Section ConsistentHash.
(** The nodes are values of any type; [repr] is [mapping.Repr], the text a
    node is known by, and [Hash] the default hash function of the package. *)
Context {node : Type}.
Variable repr : node → string.
Variable Hash : string → N.

Record ConsistentHash := mkConsistentHash {
  hashFunc : string → N;
  replicas : Z;
  keys : list N;
  ring : gmap N (list node);
  nodes : gset string
}.

Definition with_keys (h : ConsistentHash) (ks : list N) : ConsistentHash :=
  {| hashFunc := hashFunc h; replicas := replicas h; keys := ks;
     ring := ring h; nodes := nodes h |}.

Definition with_ring (h : ConsistentHash) (r : gmap N (list node))
  : ConsistentHash :=
  {| hashFunc := hashFunc h; replicas := replicas h; keys := keys h;
     ring := r; nodes := nodes h |}.

Definition with_nodes (h : ConsistentHash) (ns : gset string)
  : ConsistentHash :=
  {| hashFunc := hashFunc h; replicas := replicas h; keys := keys h;
     ring := ring h; nodes := ns |}.

(** [fn] is [None] for a [nil] function. *)
Definition NewCustomConsistentHash (reps : Z) (fn : option (string → N))
  : ConsistentHash :=
  let reps := if decide (reps < minReplicas) then minReplicas else reps in
  let fn := match fn with None => Hash | Some fn => fn end in
  {| hashFunc := fn; replicas := reps; keys := []; ring := ∅; nodes := ∅ |}.

Definition NewConsistentHash : ConsistentHash :=
  NewCustomConsistentHash minReplicas (Some Hash).

Definition addNode (h : ConsistentHash) (nodeRepr : string) : ConsistentHash :=
  with_nodes h ({[nodeRepr]} ∪ nodes h).

Definition containsNode (h : ConsistentHash) (nodeRepr : string) : bool :=
  bool_decide (nodeRepr ∈ nodes h).

Definition removeNode (h : ConsistentHash) (nodeRepr : string)
  : ConsistentHash :=
  with_nodes h (nodes h ∖ {[nodeRepr]}).

(** The bucket is filtered in place; it is stored back when something is
    left of it and the hash is deleted from the ring otherwise. *)
Definition removeRingNode (h : ConsistentHash) (hash : N) (nodeRepr : string)
  : ConsistentHash :=
  match ring h !! hash with
  | Some nodes =>
      let newNodes := filter (λ x, repr x ≠ nodeRepr) nodes in
      if decide (0 < Z.of_nat (length newNodes))
      then with_ring h (<[hash := newNodes]> (ring h))
      else with_ring h (delete hash (ring h))
  | None => h
  end.

(** [h.hashFunc([]byte(nodeRepr + strconv.Itoa(i)))] *)
Definition vhash (h : ConsistentHash) (nodeRepr : string) (i : Z) : N :=
  hashFunc h (nodeRepr +:+ Itoa i).

(** [sort.Search(len(h.keys), func(i int) bool { return h.keys[i] >= hash })] *)
Definition searchKeys (ks : list N) (hash : N) : option Z :=
  Sort.Search (Z.of_nat (length ks))
    (λ i, k ← Go.index ks i; Some (bool_decide (hash ≤ k)%N)).

(** One round of the loop of [Remove]. *)
Definition removeReplica (nodeRepr : string) (i : Z) (h : ConsistentHash)
  : option ConsistentHash :=
  let hash := vhash h nodeRepr i in
  index ← searchKeys (keys h) hash;
  let h :=
    if decide (index < Z.of_nat (length (keys h)))
    then with_keys h (take (Z.to_nat index) (keys h)
                      ++ drop (Z.to_nat (index + 1)) (keys h))
    else h in
  Some (removeRingNode h hash nodeRepr).

Definition Remove (h : ConsistentHash) (n : node) : option ConsistentHash :=
  let nodeRepr := repr n in
  if negb (containsNode h nodeRepr) then Some h
  else
    h ← Go.for_range 0 (replicas h) (removeReplica nodeRepr) h;
    Some (removeNode h nodeRepr).

(** One round of the loop of [AddWithReplicas]; a hash missing from the
    ring reads as the empty bucket. *)
Definition addReplica (n : node) (nodeRepr : string) (i : Z)
    (h : ConsistentHash) : option ConsistentHash :=
  let hash := vhash h nodeRepr i in
  let h := with_keys h (keys h ++ [hash]) in
  Some (with_ring h (<[hash := default [] (ring h !! hash) ++ [n]]> (ring h))).


Definition AddWithReplicas (h : ConsistentHash) (n : node) (reps : Z)
  : option ConsistentHash :=
  h ← Remove h n;
  let reps := if decide (reps > replicas h) then replicas h else reps in
  let nodeRepr := repr n in
  let h := addNode h nodeRepr in
  h ← Go.for_range 0 reps (addReplica n nodeRepr) h;
  Some (with_keys h (Sort.Slice (keys h))).

Definition Add (h : ConsistentHash) (n : node) : option ConsistentHash :=
  AddWithReplicas h n (replicas h).


(** *** Vocabulary of the statements *)

(** The hashes of the virtual nodes of the node known as [nodeRepr], one
    for each index below the ring's replica count. *)
Definition vnode_hashes (h : ConsistentHash) (nodeRepr : string) : list N :=
  vhash h nodeRepr <$> seqZ 0 (replicas h).

(** The rings a program can hold. *)
Inductive reachable : ConsistentHash → Prop :=
| reach_new reps fn : reachable (NewCustomConsistentHash reps fn)
| reach_add h n reps h' :
    reachable h → AddWithReplicas h n reps = Some h' → reachable h'
| reach_remove h n h' :
    reachable h → Remove h n = Some h' → reachable h'.

(** [h.ring[hash]], the empty bucket for a hash that is not in the ring. *)
Definition bucket (h : ConsistentHash) (hash : N) : list node :=
  default [] (ring h !! hash).

(** Every element of a bucket sits at the hash of one of its virtual
    nodes. *)
Definition placed (h : ConsistentHash) : Prop :=
  ∀ hash x, x ∈ bucket h hash →
    ∃ i, 0 ≤ i < replicas h ∧ hash = vhash h (repr x) i.

(** Every element of a bucket is in the node set. *)
Definition listed (h : ConsistentHash) : Prop :=
  ∀ hash x, x ∈ bucket h hash → repr x ∈ nodes h.

(** No bucket of the ring holds a node known as [nodeRepr]. *)
Definition absent (h : ConsistentHash) (nodeRepr : string) : Prop :=
  ∀ hash x, x ∈ bucket h hash → repr x ≠ nodeRepr.

(** [h'] is [h] after the rounds [0 .. m-1] of [Remove]'s loop for [r]:
    the buckets of the hashes visited are filtered, and keys only went. *)
Definition removed_upto (r : string) (h : ConsistentHash) (m : Z)
    (h' : ConsistentHash) : Prop :=
  hashFunc h' = hashFunc h ∧ replicas h' = replicas h ∧
  nodes h' = nodes h ∧ keys h' `sublist_of` keys h ∧
  ∀ hash, bucket h' hash
          = if decide (hash ∈ (vhash h r <$> seqZ 0 m))
            then filter (λ x, repr x ≠ r) (bucket h hash) else bucket h hash.

(** [h'] is [h0] after the rounds [0 .. m-1] of [AddWithReplicas]'s loop. *)
Definition added_upto (n : node) (h0 : ConsistentHash) (m : Z)
    (h' : ConsistentHash) : Prop :=
  hashFunc h' = hashFunc h0 ∧ replicas h' = replicas h0 ∧
  nodes h' = nodes h0 ∧
  keys h' = keys h0 ++ (vhash h0 (repr n) <$> seqZ 0 m) ∧
  ∀ hash, bucket h' hash
          = bucket h0 hash
            ++ ((λ _, n) <$> filter (λ j, vhash h0 (repr n) j = hash)
                               (seqZ 0 m)).

End ConsistentHash.

(** A ring of strings, each its own text, hashed by their length. *)
Definition length_hash (s : string) : N := N.of_nat (String.length s).

Definition sample_ring : ConsistentHash (node := string) :=
  NewCustomConsistentHash length_hash 100 None.

(** The same ring once ["mmm"] has two virtual nodes on it. *)
Definition sample_ring_mmm : ConsistentHash (node := string) :=
  default sample_ring (AddWithReplicas id sample_ring "mmm" 2).

End Hash.

(** ** More of the rolling window: vocabulary *)

Module CollectionMore.
Import Collection.

(** The bucket at position [p], for positions inside the window. *)
Definition bucket_at (rw : RollingWindow) (p : Z) : Bucket :=
  default zeroBucket (Go.index (buckets (win rw)) p).

(** The number of buckets [Reduce] reports when [span] is [sp]. *)
Definition reported_count (rw : RollingWindow) (sp : Z) : Z :=
  if decide (sp = 0 ∧ ignoreCurrent rw = true)
  then size rw - 1 else size rw - sp.

End CollectionMore.

(** ** More of the breaker: promises and the states the breaker reaches *)

Module BreakerMore.
Import Collection Mathx Breaker.





(** The states of a breaker [b0] under its own operations: admission
    decisions and the marks of outcomes, at any clock readings. *)
Inductive served (b0 : googleBreaker) : googleBreaker → Prop :=
| served_new : served b0 b0
| served_accept b err b' now :
    served b0 b → accept b now = Some (err, b') → served b0 b'
| served_success b b' now_span now :
    served b0 b → markSuccess b now_span now = Some b' → served b0 b'
| served_failure b b' now_span now :
    served b0 b → markFailure b now_span now = Some b' → served b0 b'.

(** What the breaker's buckets hold: a sum that is not negative and whose
    integer part is at most the count. *)
Definition tally (bk : Bucket) : Prop :=
  (0 <= Sum bk)%Q ∧ 0 ≤ int64_of_float (Sum bk) ≤ Count bk.

End BreakerMore.

(** ** More of the shared calls: what else every reachable state satisfies *)

Module SyncxMore.
Import Syncx.

Section SharedCalls.
Context {V E : Type}.

(** The goroutine [i] has a call in flight under [key]: it has stored its
    call in the index ([createCall]) and has not yet deleted the key
    ([makeCall]'s deferred function); [fn] runs in between. *)
Definition in_flight (σ : state V E) (key : string) (i : nat) : Prop :=
  ∃ t c, threads σ !! i = Some t ∧ indexed t c key.

(** The call of a goroutine in flight is the one the index holds for its
    key; the counter of a [WaitGroup] is 0 or 1, and it is 1 only while a
    goroutine executes the call. *)
Record inv_more (σ : state V E) : Prop := {
  inv_in_index : ∀ i t c k, threads σ !! i = Some t → indexed t c k →
                   calls σ !! k = Some c;
  inv_binary : ∀ c r, heap σ !! c = Some r → wg r = 0 ∨ wg r = 1;
  inv_executor : ∀ c r, heap σ !! c = Some r → wg r = 1 →
                   ∃ i t, threads σ !! i = Some t ∧ executes t c
}.

(** A waiter on [c] is released: the step of [c.wg.Wait()] returning. *)
Definition released (σ : state V E) (i : nat) (ex : bool) (r : call V E)
  : state V E :=
  {| calls := calls σ; heap := heap σ;
     threads := <[i := Returned (val r) (fresh_flag ex false) (err r)]>
                  (threads σ) |}.

End SharedCalls.

(** A run of two goroutines on the key ["k"]: the first executes [fn],
    the second, a [DoEx], finds the call and waits. *)
Definition sample_fn : unit → fn_outcome Z string :=
  λ _, FnReturns (Some 7) None.

Definition run1 : state Z string :=
  {| calls := ∅; heap := ∅;
     threads := [] ++ [AtCreateCall "k" sample_fn false] |}.

Definition sample_call : loc := fresh (dom (heap run1)).

Definition run2 : state Z string :=
  {| calls := <["k" := sample_call]> (calls run1);
     heap := <[sample_call := mkCall 1 None None]> (heap run1);
     threads := <[0%nat := AtFn sample_call "k" sample_fn false]>
                  (threads run1) |}.

Definition run3 : state Z string :=
  {| calls := calls run2; heap := heap run2;
     threads := threads run2 ++ [AtCreateCall "k" sample_fn true] |}.

Definition run4 : state Z string :=
  {| calls := calls run3; heap := heap run3;
     threads := <[1%nat := AtWait sample_call true]> (threads run3) |}.

Definition run5 : state Z string :=
  {| calls := calls run4;
     heap := <[sample_call := mkCall 1 (Some 7) None]> (heap run4);
     threads := <[0%nat := AtDelete sample_call "k" false None]>
                  (threads run4) |}.

Definition run6 : state Z string :=
  {| calls := delete "k" (calls run5); heap := heap run5;
     threads := <[0%nat := AtDone sample_call false None]> (threads run5) |}.

Definition run7 : state Z string :=
  {| calls := calls run6;
     heap := <[sample_call := mkCall (1 - 1) (Some 7) None]> (heap run6);
     threads := <[0%nat := Returned (Some 7) (fresh_flag false true) None]>
                  (threads run6) |}.

End SyncxMore.

(** ** More of the hash ring: looking a key up *)

Module HashMore.
Import Hash.

Definition prime : Z := 16777619.

Section Get.
(** The values looked up are values like the nodes; [fmt_v] is their text
    under the format [%v]. *)
Context {node : Type}.
Variable repr : node → string.
Variable fmt_v : node → string.

(** [fmt.Sprintf("%d:%v", prime, node)] *)
Definition innerRepr (v : node) : string :=
  pretty prime +:+ ":" +:+ fmt_v v.

(** The [switch len(nodes)] of [Get]: nothing from an empty bucket, the
    node of a bucket of one, and of a larger bucket the node at the second
    hash of the value modulo the length. *)
Definition pickNode (h : ConsistentHash (node := node)) (nodes : list node)
    (v : node) : option (option node) :=
  match nodes with
  | [] => Some None
  | [x] => Some (Some x)
  | _ =>
      let innerIndex := hashFunc h (innerRepr v) in
      let pos := Z.of_N (innerIndex `mod` N.of_nat (length nodes))%N in
      x ← Go.index nodes pos; Some (Some x)
  end.

(** [Get]: [Some None] is [(nil, false)], [Some (Some x)] is [(x, true)],
    and [None] a panic. *)
Definition Get (h : ConsistentHash (node := node)) (v : node)
  : option (option node) :=
  if decide (size (ring h) = 0%nat) then Some None
  else
    let hash := hashFunc h (repr v) in
    i ← searchKeys (keys h) hash;
    index ← Go.rem i (Z.of_nat (length (keys h)));
    k ← Go.index (keys h) index;
    pickNode h (bucket h k) v.

(** The key that serves [hash] on the ring: the least key not below it, or
    the least key of all when every key is below it. *)
Definition successor (ks : list N) (hash k : N) : Prop :=
  k ∈ ks ∧
  (((hash ≤ k)%N ∧ ∀ k', k' ∈ ks → (hash ≤ k')%N → (k ≤ k')%N) ∨
   ((∀ k', k' ∈ ks → (k' < hash)%N) ∧ ∀ k', k' ∈ ks → (k ≤ k')%N)).

End Get.

(** The ring with two virtual nodes of ["mmm"], then three of ["n"]. *)
Definition sample_ring_two : ConsistentHash (node := string) :=
  default sample_ring (AddWithReplicas id sample_ring_mmm "n" 3).

(** That ring after [Remove("n")]. *)
Definition sample_ring_gone : ConsistentHash (node := string) :=
  default sample_ring (Remove id sample_ring_two "n").

(** The ring with both nodes after [Remove("mmm")]. *)
Definition sample_ring_n : ConsistentHash (node := string) :=
  default sample_ring (Remove id sample_ring_two "mmm").

End HashMore.

(** ** core/stores/cache: weights and key lists *)

Module Strings.

(** [strings.Join]: the first element, then the separator and the next
    element for each of the others; the empty string for no element. *)
Definition Join (elems : list string) (sep : string) : string :=
  match elems with
  | [] => ""
  | x :: rest => foldl (λ b s, b +:+ sep +:+ s) x rest
  end.

End Strings.

Module Cache.


Definition keySeparator : string := ",".


Definition formatKeys (keys : list string) : string :=
  Strings.Join keys keySeparator.

(** The character of the separator. *)
Definition comma : Ascii.ascii :=
  match keySeparator with
  | String a _ => a
  | EmptyString => Ascii.zero
  end.

(** A key without the separator in it. *)
Fixpoint comma_free (s : string) : Prop :=
  match s with
  | EmptyString => True
  | String a s' => a ≠ comma ∧ comma_free s'
  end.

End Cache.
(** ** Facts about the Go operators *)

Module GoFacts.
Import Go.

Lemma rem_nonneg a b : 0 ≤ a → 0 < b → rem a b = Some (a `mod` b).
Proof.
  intros Ha Hb. unfold rem. case_decide; [lia|].
  by rewrite Z.rem_mod_nonneg.
Qed.

Lemma div_nonneg a b : 0 ≤ a → 0 < b → div a b = Some (a `div` b).
Proof.
  intros Ha Hb. unfold div. case_decide; [lia|].
  by rewrite Z.quot_div_nonneg.
Qed.

Lemma mod_once a n : n ≤ a < 2 * n → a `mod` n = a - n.
Proof.
  intros H. symmetry. apply (Z.mod_unique_pos a n 1); lia.
Qed.

Lemma index_lt {A} (s : list A) i :
  0 ≤ i < Z.of_nat (length s) → is_Some (index s i).
Proof.
  intros H. unfold index. case_decide; [|lia].
  apply lookup_lt_is_Some. lia.
Qed.

Lemma index_Some_lt {A} (s : list A) i x :
  index s i = Some x → 0 ≤ i < Z.of_nat (length s).
Proof.
  unfold index. case_decide as Hi; [|done].
  intros Hx%lookup_lt_Some. lia.
Qed.

Lemma index_of_nat {A} (s : list A) (i : nat) : index s (Z.of_nat i) = s !! i.
Proof. unfold index. case_decide; [|lia]. by rewrite Nat2Z.id. Qed.

(** Two slices that agree at every index below their common length. *)
Lemma index_ext {A} (s1 s2 : list A) :
  length s1 = length s2 →
  (∀ p, 0 ≤ p < Z.of_nat (length s1) → index s1 p = index s2 p) →
  s1 = s2.
Proof.
  intros Hlen H. apply list_eq. intros i.
  destruct (decide (i < length s1)%nat) as [Hi|Hi].
  - rewrite <- !index_of_nat. apply H. lia.
  - rewrite !lookup_ge_None_2; [done|lia..].
Qed.

Lemma update_spec {A} (f : A → A) (s : list A) i x :
  index s i = Some x →
  ∃ s', update f s i = Some s' ∧ length s' = length s ∧
        ∀ p, index s' p = if decide (p = i) then Some (f x) else index s p.
Proof.
  intros Hx. unfold update. rewrite Hx. simpl.
  eexists. split; [done|]. split; [by rewrite length_insert|].
  intros p. pose proof (index_Some_lt _ _ _ Hx) as Hi.
  unfold index in *. repeat case_decide; subst; try lia; try done.
  - apply list_lookup_insert_eq. lia.
  - apply list_lookup_insert_ne. lia.
Qed.

(** The loop rule: an invariant indexed by the counter. *)
Lemma iter_inv {St} (I : Z → St → Prop) n lo body (s : St) :
  I lo s →
  (∀ i s, lo ≤ i < lo + Z.of_nat n → I i s →
          ∃ s', body i s = Some s' ∧ I (i + 1) s') →
  ∃ s', iter n lo body s = Some s' ∧ I (lo + Z.of_nat n) s'.
Proof.
  revert lo s. induction n as [|n IH]; intros lo s H0 Hstep.
  - exists s. split; [done|]. by replace (lo + Z.of_nat 0) with lo by lia.
  - destruct (Hstep lo s) as (s1 & Hb & H1); [lia|done|].
    destruct (IH (lo + 1) s1) as (s2 & Hi & H2); [done| |].
    + intros i s' Hi. apply Hstep. lia.
    + exists s2. simpl. rewrite Hb. simpl. split; [done|].
      by replace (lo + Z.of_nat (S n)) with (lo + 1 + Z.of_nat n) by lia.
Qed.

Lemma for_range_inv {St} (I : Z → St → Prop) lo hi body (s : St) :
  lo ≤ hi → I lo s →
  (∀ i s, lo ≤ i < hi → I i s → ∃ s', body i s = Some s' ∧ I (i + 1) s') →
  ∃ s', for_range lo hi body s = Some s' ∧ I hi s'.
Proof.
  intros Hle H0 Hstep. unfold for_range.
  destruct (iter_inv I (Z.to_nat (hi - lo)) lo body s) as (s' & He & Hs');
    [done| |].
  - intros i s1 Hi. apply Hstep. lia.
  - exists s'. split; [done|]. by replace hi with (lo + Z.of_nat (Z.to_nat (hi - lo))) by lia.
Qed.

Lemma for_range_empty {St} lo hi body (s : St) :
  hi ≤ lo → for_range lo hi body s = Some s.
Proof. intros H. unfold for_range. by replace (Z.to_nat (hi - lo)) with 0%nat by lia. Qed.

End GoFacts.

(** ** The rolling window: rotation *)

Module CollectionFacts.
Import Go GoFacts Collection.

Lemma mod_cases a n :
  0 ≤ a < 2 * n → (a < n ∧ a `mod` n = a) ∨ (n ≤ a ∧ a `mod` n = a - n).
Proof.
  intros H. destruct (decide (a < n)).
  - left. split; [done|]. apply Z.mod_small. lia.
  - right. split; [lia|]. apply mod_once. lia.
Qed.

Lemma reset_where_refl w : reset_where (λ _, False) w w.
Proof. repeat split; [done|]. by intros _. Qed.

Lemma reset_where_ext R R' w0 w :
  (∀ p, 0 ≤ p < Z.of_nat (length (buckets w0)) → R p ↔ R' p) →
  reset_where R w0 w → reset_where R' w0 w.
Proof.
  intros HR (Hs & Hl & H). repeat split; [done..| |].
  - intros HR'. apply (H p b); [done|]. apply HR; [|done].
    by eapply index_Some_lt.
  - intros HR'. apply (H p b); [done|]. intros HRp. apply HR', HR; [|done].
    by eapply index_Some_lt.
Qed.

Lemma reset_where_eq R w0 w1 w2 :
  (∀ p, R p ∨ ¬ R p) →
  reset_where R w0 w1 → reset_where R w0 w2 → w1 = w2.
Proof.
  intros Hdec (Hs1 & Hl1 & H1) (Hs2 & Hl2 & H2).
  destruct w1 as [b1 s1], w2 as [b2 s2]; simpl in *. f_equal; [|congruence].
  apply index_ext; [congruence|]. intros p Hp.
  destruct (index_lt (buckets w0) p) as [b Hb]; [lia|].
  destruct (Hdec p) as [HR|HR].
  - by rewrite (proj1 (H1 p b Hb) HR), (proj1 (H2 p b Hb) HR).
  - by rewrite (proj2 (H1 p b Hb) HR), (proj2 (H2 p b Hb) HR).
Qed.

Lemma resetBucket_direct_where R w0 w q :
  reset_where R w0 w → 0 ≤ q < Z.of_nat (length (buckets w0)) →
  ∃ w', window_resetBucket_direct w q = Some w' ∧
        reset_where (λ p, R p ∨ p = q) w0 w'.
Proof.
  intros (Hs & Hl & H) Hq. unfold window_resetBucket_direct.
  destruct (index_lt (buckets w) q) as [x Hx]; [lia|].
  destruct (update_spec Bucket_reset _ _ _ Hx) as (bs & -> & Hlen & Hbs).
  eexists. split; [done|]. repeat split; simpl; [done|congruence| |].
  - intros [HR| ->]; rewrite Hbs; case_decide; try done.
    by apply (H p b).
  - intros HR. rewrite Hbs. case_decide; [tauto|].
    apply (H p b); tauto.
Qed.

Lemma resetBucket_where R w0 w q :
  w_size w0 = Z.of_nat (length (buckets w0)) →
  reset_where R w0 w → 0 ≤ q < w_size w0 →
  ∃ w', window_resetBucket w q = Some w' ∧
        reset_where (λ p, R p ∨ p = q) w0 w'.
Proof.
  intros Hsz Hw Hq. unfold window_resetBucket.
  destruct Hw as (Hs & Hl & H).
  rewrite rem_nonneg, Z.mod_small by lia. simpl.
  apply resetBucket_direct_where; [done|lia].
Qed.

Section Rotation.
Context (rw : RollingWindow) (sp now : Z).
Hypothesis Hwf : wf rw.
Hypothesis Hsp : 1 ≤ sp ≤ size rw.

Let N := size rw.
Let off := offset rw.

Lemma wf_window : w_size (win rw) = Z.of_nat (length (buckets (win rw))).
Proof. destruct Hwf. congruence. Qed.

Lemma aged_iff_split p :
  0 ≤ p < N → aged rw sp p ↔ aged_split rw sp p.
Proof.
  destruct Hwf as [? _ _ ? _]. subst N. intros Hp.
  unfold aged, aged_split. split.
  - intros (j & Hj & ->).
    destruct (mod_cases (offset rw + j) (size rw)) as [[? ->]|[? ->]]; lia.
  - intros [H|H].
    + exists (p - offset rw). split; [lia|].
      replace (offset rw + (p - offset rw)) with p by lia.
      symmetry. apply Z.mod_small. lia.
    + exists (p + size rw - offset rw). split; [lia|].
      replace (offset rw + (p + size rw - offset rw)) with (p + size rw) by lia.
      rewrite mod_once; lia.
Qed.

Lemma aged_split_dec p : aged_split rw sp p ∨ ¬ aged_split rw sp p.
Proof. unfold aged_split. lia. Qed.

Lemma new_offset : rem (off + sp) N = Some ((off + sp) `mod` N).
Proof. destruct Hwf. subst N off. apply rem_nonneg; lia. Qed.

(** The current revision: one loop over [(offset + i + 1) % size]. *)
Lemma rotate_spec :
  interval rw ≠ 0 →
  ∃ w, rotate rw sp now
       = Some (rotated rw w ((off + sp) `mod` N)
                 (now - Z.rem (now - lastTime rw) (interval rw))) ∧
       reset_where (aged rw sp) (win rw) w.
Proof.
  intros Hitv. pose proof wf_window as Hlen. destruct Hwf as [H1 H2 H3 H4 _].
  unfold rotate. fold off N.
  destruct (for_range_inv (λ i w, reset_where (aged rw i) (win rw) w) 0 sp
              (λ i w, p ← rem (off + i + 1) N; window_resetBucket w p)
              (win rw)) as (w & -> & Hw); [lia| | |].
  - eapply reset_where_ext; [|apply reset_where_refl].
    intros p _. unfold aged. split; [done|]. intros (j & ? & _). lia.
  - intros i w Hi Hw. subst N off.
    rewrite rem_nonneg by lia. simpl.
    destruct (resetBucket_where _ _ _ ((offset rw + i + 1) `mod` size rw)
                Hlen Hw) as (w' & -> & Hw').
    { rewrite H2. apply Z.mod_pos_bound. lia. }
    exists w'. split; [done|]. eapply reset_where_ext; [|exact Hw'].
    intros p _. unfold aged. split.
    + intros [(j & ? & ->)| ->].
      * exists j. split; [lia|done].
      * exists (i + 1). split; [lia|]. f_equal. lia.
    + intros (j & Hj & ->). destruct (decide (j = i + 1)) as [->|].
      * right. f_equal. lia.
      * left. exists j. split; [lia|done].
  - exists w. simpl. rewrite new_offset. simpl.
    unfold rem at 1. case_decide; [done|]. by simpl.
Qed.

(** The second revision: two loops over [resetBucket]. *)
Lemma rotate_v2_spec :
  ∃ w, rotate_v2 rw sp now = Some (rotated rw w ((off + sp) `mod` N) now) ∧
       reset_where (aged_split rw sp) (win rw) w.
Proof.
  pose proof wf_window as Hlen. destruct Hwf as [H1 H2 H3 H4 _].
  unfold rotate_v2. fold off N.
  set (steps := if decide (off + 1 + sp > N) then N else off + 1 + sp).
  set (remainder := if decide (off + 1 + sp > N) then off + 1 + sp - N else 0).
  assert (Hst : off + 1 ≤ steps ≤ N ∧ 0 ≤ remainder ∧
                steps + remainder = off + 1 + sp ∧
                (0 < remainder → steps = N)).
  { subst steps remainder N off. case_decide; lia. }
  destruct (for_range_inv
              (λ i w, reset_where (λ p, off + 1 ≤ p < i) (win rw) w)
              (off + 1) steps (λ i w, window_resetBucket w i) (win rw))
    as (w1 & -> & Hw1); [lia| | |].
  - eapply reset_where_ext; [|apply reset_where_refl]. intros p _. simpl. lia.
  - intros i w Hi Hw.
    destruct (resetBucket_where _ _ _ i Hlen Hw) as (w' & -> & Hw').
    { subst N off. lia. }
    exists w'. split; [done|]. eapply reset_where_ext; [|exact Hw'].
    intros p _. simpl. lia.
  - simpl.
    destruct (for_range_inv
                (λ i w, reset_where
                          (λ p, off + 1 ≤ p < steps ∨ 0 ≤ p < i) (win rw) w)
                0 remainder (λ i w, window_resetBucket w i) w1)
      as (w2 & -> & Hw2); [lia| | |].
    + eapply reset_where_ext; [|exact Hw1]. intros p _. simpl. lia.
    + intros i w Hi Hw.
      destruct (resetBucket_where _ _ _ i Hlen Hw) as (w' & -> & Hw').
      { subst N off. lia. }
      exists w'. split; [done|]. eapply reset_where_ext; [|exact Hw'].
      intros p _. simpl. lia.
    + exists w2. simpl. rewrite new_offset. simpl. split; [done|].
      eapply reset_where_ext; [|exact Hw2].
      intros p Hp. unfold aged_split. fold off N. subst N off. lia.
Qed.

(** The first revision: two loops that index directly and carry the
    offset along. *)
Lemma rotate_v1_spec :
  ∃ w, rotate_v1 rw sp now = Some (rotated rw w ((off + sp) `mod` N) now) ∧
       reset_where (aged_split rw sp) (win rw) w.
Proof.
  pose proof wf_window as Hlen. destruct Hwf as [H1 H2 H3 H4 _].
  unfold rotate_v1. fold off N.
  set (steps := if decide (off + 1 + sp > N) then N else off + 1 + sp).
  set (remainder := if decide (off + 1 + sp > N) then off + 1 + sp - N else 0).
  assert (Hst : off + 1 ≤ steps ≤ N ∧ 0 ≤ remainder ∧
                steps + remainder = off + 1 + sp ∧
                (0 < remainder → steps = N)).
  { subst steps remainder N off. case_decide; lia. }
  set (body := λ (i : Z) (s : window * Z),
         w ← window_resetBucket_direct s.1 i; Some (w, i)).
  destruct (for_range_inv
              (λ i (s : window * Z),
                 reset_where (λ p, off + 1 ≤ p < i) (win rw) s.1 ∧
                 s.2 = i - 1)
              (off + 1) steps body (win rw, off))
    as ([w1 o1] & -> & Hw1 & Ho1); [lia| | |].
  - split; [|simpl; lia].
    eapply reset_where_ext; [|apply reset_where_refl]. intros p _. simpl. lia.
  - intros i [w o] Hi [Hw Ho]. unfold body. simpl in *.
    destruct (resetBucket_direct_where _ _ _ i Hw) as (w' & -> & Hw').
    { subst N off. lia. }
    exists (w', i). simpl. split; [done|]. split; [|lia].
    eapply reset_where_ext; [|exact Hw']. intros p _. simpl. lia.
  - simpl in *.
    destruct (for_range_inv
                (λ i (s : window * Z),
                   reset_where
                     (λ p, off + 1 ≤ p < steps ∨ 0 ≤ p < i) (win rw) s.1 ∧
                   s.2 = if decide (i = 0) then o1 else i - 1)
                0 remainder body (w1, o1))
      as ([w2 o2] & -> & Hw2 & Ho2); [lia| | |].
    + split; [|done].
      eapply reset_where_ext; [|exact Hw1]. intros p _. simpl. lia.
    + intros i [w o] Hi [Hw Ho]. unfold body. simpl in *.
      destruct (resetBucket_direct_where _ _ _ i Hw) as (w' & -> & Hw').
      { subst N off. lia. }
      exists (w', i). simpl. split; [done|]. split.
      * eapply reset_where_ext; [|exact Hw']. intros p _. simpl. lia.
      * destruct (decide (i + 1 = 0)); lia.
    + exists w2. simpl in *. split.
      * do 2 f_equal. unfold rotated. f_equal. rewrite Ho2, Ho1.
        destruct (mod_cases (off + sp) N) as [[? ->]|[? ->]];
          [subst N off; lia|..];
          destruct (decide (remainder = 0)); lia.
      * eapply reset_where_ext; [|exact Hw2].
        intros p Hp. unfold aged_split. fold off N. subst N off. lia.
Qed.

End Rotation.

End CollectionFacts.

(** ** The rolling window: what [Add] and [Reduce] do *)

Module RollingWindowSpec.
Import Go GoFacts Collection CollectionFacts.

Lemma span_spec rw now :
  wf rw → lastTime rw ≤ now →
  span rw now
  = Some (Z.min (size rw) ((now - lastTime rw) `div` interval rw)).
Proof.
  intros [H1 _ _ _ H5] Hnow. unfold span, Timex.Since.
  rewrite div_nonneg by lia. simpl. f_equal.
  assert (0 ≤ (now - lastTime rw) `div` interval rw)
    by (apply Z.div_pos; lia).
  case_decide; lia.
Qed.

Lemma aged_positions_elem rw sp p : p ∈ aged_positions rw sp ↔ aged rw sp p.
Proof.
  unfold aged_positions, aged. rewrite list_elem_of_fmap.
  split; intros (j & H1 & H2); exists j.
  - apply elem_of_seqZ in H2. split; [lia|done].
  - split; [done|]. apply elem_of_seqZ. lia.
Qed.

Lemma aged_positions_NoDup rw sp :
  wf rw → sp ≤ size rw → NoDup (aged_positions rw sp).
Proof.
  intros [H1 _ _ H4 _] Hsp. unfold aged_positions.
  apply NoDup_fmap_2_strong; [|apply NoDup_seqZ].
  intros x y Hx%elem_of_seqZ Hy%elem_of_seqZ.
  destruct (mod_cases (offset rw + x) (size rw)) as [[? ->]|[? ->]]; [lia|..];
    (destruct (mod_cases (offset rw + y) (size rw)) as [[? ->]|[? ->]];
     [lia|..]); lia.
Qed.

Lemma window_add_spec rw :
  wf rw →
  ∃ b, index (buckets (win rw)) (offset rw) = Some b ∧
       ∀ v, window_add (win rw) (offset rw) v
            = Some (with_buckets (win rw)
                      (<[Z.to_nat (offset rw) := Bucket_add v b]>
                         (buckets (win rw)))).
Proof.
  intros [H1 H2 H3 H4 _].
  destruct (index_lt (buckets (win rw)) (offset rw)) as [b Hb]; [lia|].
  exists b. split; [done|]. intros v. unfold window_add.
  rewrite H2, rem_nonneg, Z.mod_small by lia. simpl.
  unfold update. by rewrite Hb.
Qed.

Lemma rotated_wf rw R w off last :
  wf rw → reset_where R (win rw) w → 0 ≤ off < size rw →
  wf (rotated rw w off last).
Proof.
  intros [H1 H2 H3 H4 H5] (Hs & Hl & _) Hoff.
  split; simpl; [done|congruence|congruence|done|done].
Qed.

Lemma sample_window_wf : wf sample_window.
Proof. split; simpl; lia. Qed.

Lemma span_range rw now :
  wf rw → ∃ sp, span rw now = Some sp ∧ 0 ≤ sp ≤ size rw.
Proof.
  intros [H1 _ _ _ H5]. unfold span, div.
  rewrite decide_False by lia. simpl. eexists. split; [done|].
  case_decide; lia.
Qed.

(** [updateOffset] on a well-formed window, whatever the clock reads. *)
Lemma updateOffset_spec rw now_span now sp :
  wf rw → span rw now_span = Some sp →
  0 ≤ sp ≤ size rw ∧
  ∃ rw1, updateOffset rw now_span now = Some rw1 ∧ wf rw1 ∧
         (sp = 0 → rw1 = rw) ∧
         (0 < sp →
            reset_where (λ p, p ∈ aged_positions rw sp) (win rw) (win rw1) ∧
            offset rw1 = (offset rw + sp) `mod` size rw ∧
            size rw1 = size rw ∧ interval rw1 = interval rw ∧
            ignoreCurrent rw1 = ignoreCurrent rw).
Proof.
  intros Hwf Hspan.
  destruct (span_range rw now_span Hwf) as (sp' & Hspan' & Hsp).
  rewrite Hspan in Hspan'. injection Hspan' as <-. split; [done|].
  unfold updateOffset. rewrite Hspan. simpl. case_decide.
  - exists rw. split; [done|]. split; [done|]. split; [done|]. intros ?. lia.
  - destruct (rotate_spec rw sp now Hwf) as (w & -> & Hw); [lia| |].
    { destruct Hwf. lia. }
    eexists. split; [done|].
    assert (0 ≤ (offset rw + sp) `mod` size rw < size rw)
      by (apply Z.mod_pos_bound; destruct Hwf; lia).
    split; [|split; [lia|]].
    + by eapply rotated_wf.
    + intros _. simpl. split; [|done].
      eapply reset_where_ext; [|exact Hw].
      intros p _. by rewrite aged_positions_elem.
Qed.

(** [Add] on a well-formed window never panics. *)
Lemma Add_total rw now_span now v :
  wf rw → ∃ rw', Add rw now_span now v = Some rw' ∧ wf rw'.
Proof.
  intros Hwf. destruct (span_range rw now_span Hwf) as (sp & Hspan & _).
  destruct (updateOffset_spec rw now_span now sp Hwf Hspan)
    as (_ & rw1 & Hupd & Hwf1 & _).
  destruct (window_add_spec rw1 Hwf1) as (b & Hb & Hadd).
  unfold Add. rewrite Hupd. simpl. rewrite Hadd. simpl.
  eexists. split; [done|]. destruct Hwf1 as [H1 H2 H3 H4 H5].
  split; simpl; [done..|by rewrite length_insert|done|done].
Qed.

Lemma adds_wf rw0 rw : wf rw0 → adds rw0 rw → wf rw.
Proof.
  intros Hwf0. induction 1 as [|rw0 rw1 rw2 now_span now v _ IH Hadd]; [done|].
  destruct (Add_total rw1 now_span now v (IH Hwf0)) as (rw' & Hadd' & Hwf').
  rewrite Hadd in Hadd'. by injection Hadd' as <-.
Qed.

(** A window built with a positive interval, with or without the
    ignore-current option, is well formed. *)
Lemma NewRollingWindow_wf sz itv opts now rw :
  0 < itv → Forall (λ opt, opt = IgnoreCurrentBucket) opts →
  NewRollingWindow sz itv opts now = Some rw → wf rw.
Proof.
  intros Hitv Hopts. unfold NewRollingWindow. case_decide as Hsz; [done|].
  intros [= <-].
  assert (wf {| size := sz; win := newWindow sz; interval := itv; offset := 0;
                ignoreCurrent := false; lastTime := now |}) as Hwf.
  { split; simpl; [lia|done|rewrite length_replicate; lia|lia|done]. }
  revert Hwf. generalize ({| size := sz; win := newWindow sz; interval := itv;
                             offset := 0; ignoreCurrent := false;
                             lastTime := now |}).
  induction Hopts as [|opt opts -> _ IH]; intros rw0 Hwf; simpl; [done|].
  apply IH. by destruct Hwf.
Qed.

(** C2. Rotation in [Add]: with a monotonic clock,
    [span = min(N, floor((now - lastTime) / interval))]; when [span > 0]
    exactly the [span] buckets at the positions [(offset + 1) mod N],
    ..., [(offset + span) mod N] are reset to [Sum 0, Count 0], every
    other bucket keeps its contents and the offset becomes
    [(offset + span) mod N]; when [span = 0] rotation changes nothing.
    [Add] then accumulates into the bucket at the new offset. *)
Theorem Add_rotates_aged_buckets rw now_span now v :
  wf rw → lastTime rw ≤ now_span →
  let sp := Z.min (size rw) ((now_span - lastTime rw) `div` interval rw) in
  span rw now_span = Some sp ∧
  ∃ rw1 b,
    updateOffset rw now_span now = Some rw1 ∧
    index (buckets (win rw1)) (offset rw1) = Some b ∧
    Add rw now_span now v
    = Some (with_win rw1
              (with_buckets (win rw1)
                 (<[Z.to_nat (offset rw1) := Bucket_add v b]>
                    (buckets (win rw1))))) ∧
    (sp = 0 → rw1 = rw) ∧
    (0 < sp →
       length (aged_positions rw sp) = Z.to_nat sp ∧
       NoDup (aged_positions rw sp) ∧
       reset_where (λ p, p ∈ aged_positions rw sp) (win rw) (win rw1) ∧
       offset rw1 = (offset rw + sp) `mod` size rw ∧
       size rw1 = size rw ∧ interval rw1 = interval rw ∧
       ignoreCurrent rw1 = ignoreCurrent rw).
Proof.
  intros Hwf Hnow sp. pose proof (span_spec rw now_span Hwf Hnow) as Hspan.
  fold sp in Hspan. split; [done|].
  destruct (updateOffset_spec rw now_span now sp Hwf Hspan)
    as (Hsp & rw1 & Hupd & Hwf1 & H0 & Hpos).
  destruct (window_add_spec rw1 Hwf1) as (b & Hb & Hadd).
  exists rw1, b. unfold Add. rewrite Hupd. simpl. rewrite Hadd. simpl.
  do 4 (split; [done|]). intros Hlt.
  split; [unfold aged_positions; by rewrite length_fmap, length_seqZ|].
  split; [apply aged_positions_NoDup; [done|lia]|]. by apply Hpos.
Qed.

Lemma Add_rotates_aged_buckets_witness :
  wf sample_window ∧ lastTime sample_window ≤ 1250 ∧
  ∃ rw1, updateOffset sample_window 1250 1260 = Some rw1 ∧
         offset rw1 = 1 ∧
         index (buckets (win rw1)) 0 = Some zeroBucket ∧
         index (buckets (win rw1)) 2 = Some (mkBucket 0 0).
Proof.
  assert (Hle : lastTime sample_window ≤ 1250) by (simpl; lia).
  split; [exact sample_window_wf|]. split; [exact Hle|].
  destruct (Add_rotates_aged_buckets sample_window 1250 1260 1%Q
              sample_window_wf Hle)
    as (_ & rw1 & _ & Hu & _ & _ & _ & Hpos).
  exists rw1. split; [exact Hu|].
  destruct Hpos as (_ & _ & (_ & _ & Hw) & Ho & _); [reflexivity|].
  split; [exact Ho|]. split.
  - apply (Hw 0 (mkBucket 1 1)); [reflexivity|]. by vm_compute; left.
  - apply (Hw 2 (mkBucket 0 0)); [reflexivity|].
    vm_compute. intros H. by repeat (apply elem_of_cons in H as [H|H]; [done|]);
      apply elem_of_nil in H.
Defined.

Lemma Add_lastTime rw now_span now v rw' :
  Add rw now_span now v = Some rw' →
  interval rw' = interval rw ∧
  ∃ sp, span rw now_span = Some sp ∧
        if decide (0 < sp)
        then interval rw ≠ 0 ∧
             lastTime rw' = now - Z.rem (now - lastTime rw) (interval rw)
        else lastTime rw' = lastTime rw.
Proof.
  unfold Add, updateOffset. destruct (span rw now_span) as [sp|]; [|done].
  simpl. intros H.
  assert (∀ rw1, with_win rw1 <$> window_add (win rw1) (offset rw1) v
                 = Some rw' →
                 interval rw' = interval rw1 ∧ lastTime rw' = lastTime rw1)
    as Hadd.
  { intros rw1 H1. destruct (window_add _ _ _); [|done].
    injection H1 as <-. done. }
  destruct (decide (sp ≤ 0)) as [Hsp|Hsp]; simpl in H.
  - apply Hadd in H as [? ?]. split; [done|]. exists sp. split; [done|].
    case_decide; [lia|done].
  - unfold rotate in H.
    destruct (for_range _ _ _ _) as [w|]; [|done]. simpl in H.
    destruct (rem (offset rw + sp) (size rw)) as [off'|]; [|done].
    simpl in H. unfold rem in H at 1.
    destruct (decide (interval rw = 0)) as [|Hitv]; [done|]. simpl in H.
    apply Hadd in H as [? ?]. split; [done|]. exists sp. split; [done|].
    case_decide; [done|lia].
Qed.

Lemma adds_aligned rw0 rw :
  adds rw0 rw →
  interval rw = interval rw0 ∧
  (lastTime rw - lastTime rw0) `mod` interval rw0 = 0.
Proof.
  induction 1 as [rw|rw rw1 rw2 now_span now v _ [IHi IHt] Hadd].
  - split; [done|]. rewrite Z.sub_diag. apply Zmod_0_l.
  - apply Add_lastTime in Hadd as (Hi & sp & _ & Hsp).
    split; [congruence|]. case_decide.
    + destruct Hsp as [Hne ->]. rewrite IHi in *.
      pose proof (Z.quot_rem' (now - lastTime rw1) (interval rw)) as Hq.
      replace (now - Z.rem (now - lastTime rw1) (interval rw) - lastTime rw)
        with (lastTime rw1 - lastTime rw
              + (now - lastTime rw1) ÷ interval rw * interval rw) by lia.
      by rewrite Z_mod_plus_full.
    + by rewrite Hsp.
Qed.

(** C3, as the current revision has it.  Alignment of [lastTime]: a
    rotation performed by [Add] stores
    [now - ((now - lastTime) % interval)], which is
    [now - ((now - lastTime) mod interval)] on a monotonic clock, and an
    [Add] that does not rotate leaves [lastTime] alone; so in every window
    reached from a constructed one by [Add] calls, before and after the
    call, [lastTime] is congruent modulo [interval] to the [lastTime] set
    at construction. *)
Theorem lastTime_stays_aligned sz itv opts t0 rw0 rw now_span now v rw' :
  NewRollingWindow sz itv opts t0 = Some rw0 →
  adds rw0 rw →
  Add rw now_span now v = Some rw' →
  (∃ sp, span rw now_span = Some sp ∧
         if decide (0 < sp)
         then lastTime rw'
              = now - Z.rem (now - lastTime rw) (interval rw) ∧
              (lastTime rw ≤ now → 0 < interval rw →
               lastTime rw'
               = now - (now - lastTime rw) `mod` interval rw)
         else lastTime rw' = lastTime rw) ∧
  interval rw' = interval rw0 ∧
  (lastTime rw - lastTime rw0) `mod` interval rw0 = 0 ∧
  (lastTime rw' - lastTime rw0) `mod` interval rw0 = 0.
Proof.
  intros _ Hreach Hadd.
  destruct (adds_aligned rw0 rw Hreach) as [Hi Ht].
  destruct (adds_aligned rw0 rw' (adds_step _ _ _ _ _ _ Hreach Hadd))
    as [Hi' Ht'].
  split; [|done].
  apply Add_lastTime in Hadd as (_ & sp & Hsp & H). exists sp.
  split; [done|]. case_decide; [|done].
  destruct H as [_ ->]. split; [done|]. intros Hle Hpos.
  by rewrite Z.rem_mod_nonneg by lia.
Qed.

Lemma lastTime_stays_aligned_witness :
  ∃ rw0 rw',
    NewRollingWindow 4 100 [] 1000 = Some rw0 ∧ adds rw0 rw0 ∧
    Add rw0 1250 1260 1%Q = Some rw' ∧
    lastTime rw' = 1200 ∧ (lastTime rw' - lastTime rw0) `mod` 100 = 0.
Proof.
  set (rw0 := {| size := 4; win := newWindow 4; interval := 100; offset := 0;
                 ignoreCurrent := false; lastTime := 1000 |}).
  assert (Hnew : NewRollingWindow 4 100 [] 1000 = Some rw0) by reflexivity.
  destruct (Add rw0 1250 1260 1%Q) as [rw'|] eqn:Hadd; [|by vm_compute in Hadd].
  exists rw0, rw'. split; [exact Hnew|]. split; [apply adds_refl|].
  split; [exact Hadd|].
  destruct (lastTime_stays_aligned 4 100 [] 1000 rw0 rw0 1250 1260 1%Q rw'
              Hnew (adds_refl rw0) Hadd)
    as ((sp & Hsp & Hlast) & _ & _ & Hal).
  vm_compute in Hsp. injection Hsp as <-.
  destruct (decide (0 < 2)); [|lia].
  destruct Hlast as [Hlast _]. split; [exact Hlast|exact Hal].
Defined.

(** C3, as the specification has it, fails on the earlier revision of
    [updateOffset]: its rotation stores the clock reading itself.  On a
    window of four buckets of 100 time units constructed at 1000, [Add] at
    1260 leaves [lastTime] at 1260, not at the boundary 1200, and 60 past
    the alignment of the construction. *)
Lemma earlier_Add_stores_raw_clock :
  ∃ rw0 rw',
    NewRollingWindow 4 100 [] 1000 = Some rw0 ∧
    Add_v2 rw0 1250 1260 1%Q = Some rw' ∧
    lastTime rw' = 1260 ∧
    1260 - (1260 - lastTime rw0) `mod` interval rw0 = 1200 ∧
    (lastTime rw' - lastTime rw0) `mod` interval rw0 = 60.
Proof.
  eexists _, _. split; [reflexivity|]. split; [reflexivity|]. by vm_compute.
Qed.

(** The loop of [window.reduce] folds the callback over the buckets at
    the positions [(start + i) mod N]. *)
Lemma iter_reduce {A} (w : window) (fn : Bucket → A → A) start n lo acc :
  0 < w_size w → w_size w = Z.of_nat (length (buckets w)) → 0 ≤ start + lo →
  ∃ bs, mapM (index (buckets w))
          ((λ i, (start + i) `mod` w_size w) <$> seqZ lo (Z.of_nat n))
        = Some bs ∧
        iter n lo (λ i acc, p ← rem (start + i) (w_size w);
                            b ← index (buckets w) p;
                            Some (fn b acc)) acc
        = Some (foldl (λ a b, fn b a) acc bs).
Proof.
  intros HN Hlen. revert lo acc.
  induction n as [|n IH]; intros lo acc Hlo.
  - exists []. done.
  - rewrite seqZ_cons by lia.
    replace (Z.pred (Z.of_nat (S n))) with (Z.of_nat n) by lia.
    destruct (index_lt (buckets w) ((start + lo) `mod` w_size w))
      as [b Hb].
    { rewrite <- Hlen. apply Z.mod_pos_bound. lia. }
    destruct (IH (Z.succ lo) (fn b acc)) as (bs & Hbs & Hit); [lia|].
    exists (b :: bs). split.
    + rewrite fmap_cons. simpl. rewrite Hb. simpl. by rewrite Hbs.
    + simpl. rewrite rem_nonneg by lia. simpl. rewrite Hb. simpl.
      by rewrite <- Hit.
Qed.

(** [Reduce] on a well-formed window never panics. *)
Lemma Reduce_total {A} rw now (fn : Bucket → A → A) acc :
  wf rw → is_Some (Reduce rw now fn acc).
Proof.
  intros Hwf. destruct (span_range rw now Hwf) as (sp & Hspan & Hsp).
  pose proof Hwf as [H1 H2 H3 H4 H5].
  unfold Reduce. rewrite Hspan. simpl. case_decide as Hdiff; [|by eexists].
  rewrite rem_nonneg by lia. simpl. unfold window_reduce, for_range.
  match goal with |- context [iter ?n _ _ _] => set (k := n) end.
  destruct (iter_reduce (win rw) fn ((offset rw + sp + 1) `mod` size rw) k 0 acc)
    as (bs & _ & Hit); [lia|congruence| |].
  { pose proof (Z.mod_pos_bound (offset rw + sp + 1) (size rw)). lia. }
  rewrite Hit. by eexists.
Qed.

(** C6. [Reduce] on a monotonic clock: with [span] as in rotation, the
    report has [N - 1] buckets when [span = 0] and the window ignores the
    current bucket, and [N - span] buckets otherwise (none when
    [span = N]); it starts at position [(offset + span + 1) mod N] and
    goes on through the next positions modulo [N], the callback being
    run on the buckets in that order. *)
Theorem Reduce_reports_live_buckets rw now :
  wf rw → lastTime rw ≤ now →
  let sp := Z.min (size rw) ((now - lastTime rw) `div` interval rw) in
  let diff := if decide (sp = 0 ∧ ignoreCurrent rw = true)
              then size rw - 1 else size rw - sp in
  span rw now = Some sp ∧
  0 ≤ diff ∧
  length (reported_positions rw sp diff) = Z.to_nat diff ∧
  (sp = size rw → reported_positions rw sp diff = []) ∧
  (∀ i, 0 ≤ i < diff →
        reported_positions rw sp diff !! Z.to_nat i
        = Some ((offset rw + sp + 1 + i) `mod` size rw)) ∧
  ∃ bs, mapM (index (buckets (win rw))) (reported_positions rw sp diff)
        = Some bs ∧
        ∀ A (fn : Bucket → A → A) acc,
          Reduce rw now fn acc = Some (foldl (λ a b, fn b a) acc bs).
Proof.
  intros Hwf Hnow sp diff.
  pose proof (span_spec rw now Hwf Hnow) as Hspan. fold sp in Hspan.
  pose proof Hwf as [H1 H2 H3 H4 H5].
  assert (0 ≤ sp ≤ size rw) as Hsp.
  { subst sp. assert (0 ≤ (now - lastTime rw) `div` interval rw)
      by (apply Z.div_pos; lia). lia. }
  assert (0 ≤ diff) as Hdiff by (subst diff; case_decide; lia).
  split; [done|]. split; [done|].
  split; [unfold reported_positions; by rewrite length_fmap, length_seqZ|].
  split.
  { intros Heq. unfold reported_positions.
    replace diff with 0; [done|]. subst diff. case_decide; lia. }
  split.
  { intros i Hi. unfold reported_positions.
    rewrite list_lookup_fmap, lookup_seqZ_lt by lia. simpl.
    do 2 f_equal. lia. }
  destruct (decide (0 < diff)) as [Hpos|Hpos].
  - destruct (iter_reduce (A := unit) (win rw) (λ _ a, a)
                ((offset rw + sp + 1) `mod` size rw) (Z.to_nat diff) 0 ())
      as (bs & Hbs & _); [lia|congruence| |].
    { pose proof (Z.mod_pos_bound (offset rw + sp + 1) (size rw)). lia. }
    exists bs. split.
    + rewrite <- Hbs. f_equal. unfold reported_positions.
      rewrite H2, Z2Nat.id by lia. apply list_fmap_ext. intros _ i _.
      by rewrite Zplus_mod_idemp_l.
    + intros A fn acc. unfold Reduce. rewrite Hspan. simpl. fold diff.
      rewrite decide_True by done. rewrite rem_nonneg by lia. simpl.
      destruct (iter_reduce (win rw) fn
                  ((offset rw + sp + 1) `mod` size rw) (Z.to_nat diff) 0 acc)
        as (bs' & Hbs' & Hit); [lia|congruence| |].
      { pose proof (Z.mod_pos_bound (offset rw + sp + 1) (size rw)). lia. }
      rewrite Hbs in Hbs'. injection Hbs' as <-.
      unfold window_reduce, for_range. rewrite H2 in *.
      by replace (diff - 0) with diff by lia.
  - exists []. assert (diff = 0) as Hd by lia. split.
    + unfold reported_positions. by rewrite Hd.
    + intros A fn acc. unfold Reduce. rewrite Hspan. simpl. fold diff.
      by rewrite decide_False by done.
Qed.

Lemma Reduce_reports_live_buckets_witness :
  wf sample_window ∧ lastTime sample_window ≤ 1250 ∧
  reported_positions sample_window 2 2 = [2; 3] ∧
  Reduce sample_window 1250 (λ b acc, acc + Count b) 0 = Some 3.
Proof.
  assert (Hle : lastTime sample_window ≤ 1250) by (simpl; lia).
  split; [exact sample_window_wf|]. split; [exact Hle|].
  split; [reflexivity|].
  destruct (Reduce_reports_live_buckets sample_window 1250
              sample_window_wf Hle)
    as (_ & _ & _ & _ & _ & bs & Hbs & Hred).
  rewrite Hred. vm_compute in Hbs. injection Hbs as <-. reflexivity.
Defined.

(** C10. The three revisions of the rotation agree: for a window of
    [N >= 1] buckets with its offset in [[0, N)] and any span in [[1, N]],
    the loop over [(offset + i + 1) % N] and the two split-loop revisions
    all run without a panic, leave the same buckets (those at the
    positions [(offset + 1) mod N .. (offset + span) mod N] reset, the
    others untouched) and the same offset [(offset + span) mod N]; the
    results differ in [lastTime] alone, aligned in the current revision
    and the raw clock reading in the earlier two. *)
Theorem rotation_revisions_agree rw sp now :
  wf rw → 1 ≤ sp ≤ size rw →
  ∃ w,
    reset_where (λ p, p ∈ aged_positions rw sp) (win rw) w ∧
    rotate rw sp now
    = Some (rotated rw w ((offset rw + sp) `mod` size rw)
              (now - Z.rem (now - lastTime rw) (interval rw))) ∧
    rotate_v1 rw sp now
    = Some (rotated rw w ((offset rw + sp) `mod` size rw) now) ∧
    rotate_v2 rw sp now
    = Some (rotated rw w ((offset rw + sp) `mod` size rw) now).
Proof.
  intros Hwf Hsp.
  destruct (rotate_spec rw sp now Hwf Hsp) as (w & Hr & Hw).
  { destruct Hwf. lia. }
  destruct (rotate_v1_spec rw sp now Hwf Hsp) as (w1 & Hr1 & Hw1).
  destruct (rotate_v2_spec rw sp now Hwf Hsp) as (w2 & Hr2 & Hw2).
  assert (reset_where (aged_split rw sp) (win rw) w) as Hw'.
  { eapply reset_where_ext; [|exact Hw]. intros p Hp.
    apply aged_iff_split; [done..|]. destruct Hwf. lia. }
  rewrite (reset_where_eq _ _ _ _ (aged_split_dec rw sp) Hw1 Hw') in Hr1.
  rewrite (reset_where_eq _ _ _ _ (aged_split_dec rw sp) Hw2 Hw') in Hr2.
  exists w. split; [|done].
  eapply reset_where_ext; [|exact Hw].
  intros p _. by rewrite aged_positions_elem.
Qed.

(** The whole of [updateOffset], in its three revisions, on one window and
    the same clock readings: the same buckets and the same offset. *)
Lemma updateOffset_revisions_agree rw now_span now :
  wf rw →
  ∃ r r1 r2,
    updateOffset rw now_span now = Some r ∧
    updateOffset_v1 rw now_span now = Some r1 ∧
    updateOffset_v2 rw now_span now = Some r2 ∧
    win r1 = win r ∧ win r2 = win r ∧
    offset r1 = offset r ∧ offset r2 = offset r.
Proof.
  intros Hwf. destruct (span_range rw now_span Hwf) as (sp & Hspan & Hsp).
  unfold updateOffset, updateOffset_v1, updateOffset_v2. rewrite Hspan. simpl.
  destruct (decide (sp ≤ 0)) as [Hle|Hgt].
  - rewrite decide_False by lia. by exists rw, rw, rw.
  - rewrite decide_True by lia.
    assert (1 ≤ sp ≤ size rw) as Hsp' by lia.
    destruct (rotate_spec rw sp now Hwf Hsp') as (w & -> & Hw).
    { destruct Hwf. lia. }
    destruct (rotate_v1_spec rw sp now Hwf Hsp') as (w1 & -> & Hw1).
    destruct (rotate_v2_spec rw sp now Hwf Hsp') as (w2 & -> & Hw2).
    assert (reset_where (aged_split rw sp) (win rw) w) as Hw'.
    { eapply reset_where_ext; [|exact Hw]. intros p Hp.
      apply aged_iff_split; [done..|]. destruct Hwf. lia. }
    do 3 eexists. do 3 (split; [done|]). simpl.
    rewrite (reset_where_eq _ _ _ _ (aged_split_dec rw sp) Hw1 Hw').
    by rewrite (reset_where_eq _ _ _ _ (aged_split_dec rw sp) Hw2 Hw').
Qed.

Lemma rotation_revisions_agree_witness :
  wf sample_window ∧ 1 ≤ 2 ≤ size sample_window ∧
  ∃ r r1 r2,
    rotate sample_window 2 1260 = Some r ∧
    rotate_v1 sample_window 2 1260 = Some r1 ∧
    rotate_v2 sample_window 2 1260 = Some r2 ∧
    win r1 = win r ∧ win r2 = win r ∧
    offset r = 1 ∧ offset r1 = 1 ∧ offset r2 = 1 ∧
    lastTime r = 1200 ∧ lastTime r1 = 1260 ∧ lastTime r2 = 1260.
Proof.
  assert (Hsp : 1 ≤ 2 ≤ size sample_window) by (simpl; lia).
  split; [exact sample_window_wf|]. split; [exact Hsp|].
  destruct (rotation_revisions_agree sample_window 2 1260
              sample_window_wf Hsp) as (w & _ & Hr & Hr1 & Hr2).
  do 3 eexists. split; [exact Hr|]. split; [exact Hr1|]. split; [exact Hr2|].
  repeat split; reflexivity.
Defined.

End RollingWindowSpec.

(** ** Rounding to [float64] *)

Module Float64Facts.
Import Float64.

Lemma pow2_pos e : (0 < pow2 e)%Q.
Proof. apply Qpower_0_lt. reflexivity. Qed.

Lemma pow2_plus a b : (pow2 (a + b) == pow2 a * pow2 b)%Q.
Proof. apply Qpower_plus. discriminate. Qed.

Lemma pow2_le a b : a ≤ b → (pow2 a <= pow2 b)%Q.
Proof. intros H. apply Qpower_le_compat_l; [done|discriminate]. Qed.

Lemma pow2_lt a b : a < b → (pow2 a < pow2 b)%Q.
Proof. intros H. apply Qpower_lt_compat_l; [done|reflexivity]. Qed.

Lemma pow2_lt_inv a b : (pow2 a < pow2 b)%Q → a < b.
Proof. intros H. eapply Qpower_lt_compat_l_inv; [exact H|reflexivity]. Qed.

Lemma pow2_Z n : 0 ≤ n → (pow2 n == inject_Z (2 ^ n))%Q.
Proof. intros H. unfold pow2. rewrite Zpower_Qpower by done. reflexivity. Qed.

Lemma pow2_opp n : (pow2 (- n) == / pow2 n)%Q.
Proof. apply Qpower_opp. Qed.

#[global] Instance ilog2_proper : Proper (Qeq ==> eq) ilog2.
Proof.
  intros x y H. unfold ilog2. rewrite (Qleb_comp 1%Q 1%Q (Qeq_refl 1%Q) x y H).
  destruct (Qle_bool 1 y).
  - by rewrite (Qfloor_comp x y H).
  - assert (/ x == / y)%Q as H' by (by rewrite H).
    by rewrite (Qceiling_comp _ _ H').
Qed.

#[global] Instance rne_proper : Proper (Qeq ==> eq) rne.
Proof.
  intros x y H. unfold rne. rewrite (Qfloor_comp x y H).
  assert (x - inject_Z (Qfloor y) == y - inject_Z (Qfloor y))%Q as H'
    by (by rewrite H).
  by rewrite (Qcompare_comp _ _ H' (1 # 2)%Q (1 # 2)%Q (Qeq_refl _)).
Qed.

#[global] Instance round_pos_proper : Proper (Qeq ==> Qeq) round_pos.
Proof.
  intros x y H. unfold round_pos, exponent. rewrite (ilog2_proper x y H).
  set (e := Z.max emin (ilog2 y - (prec - 1))).
  assert (x / pow2 e == y / pow2 e)%Q as H' by (by rewrite H).
  by rewrite (rne_proper _ _ H').
Qed.

#[global] Instance round_proper : Proper (Qeq ==> Qeq) round.
Proof.
  intros x y H. unfold round.
  rewrite (Qcompare_comp _ _ H 0%Q 0%Q (Qeq_refl _)).
  destruct (y ?= 0)%Q; [reflexivity|..].
  - apply Qopp_comp, round_pos_proper. by rewrite H.
  - by apply round_pos_proper.
Qed.

Lemma rne_Z z : rne (inject_Z z) = z.
Proof.
  unfold rne. rewrite Qfloor_Z.
  assert (inject_Z z - inject_Z z == 0)%Q as H by ring.
  by rewrite (Qcompare_comp _ _ H (1 # 2)%Q (1 # 2)%Q (Qeq_refl _)).
Qed.

Lemma rne_bounds q : Qfloor q ≤ rne q ≤ Qfloor q + 1.
Proof.
  unfold rne. destruct (_ ?= _)%Q; [|lia..]. destruct (Z.even _); lia.
Qed.

Lemma rne_ge z q : (inject_Z z <= q)%Q → z ≤ rne q.
Proof.
  intros H. apply Qfloor_resp_le in H. rewrite Qfloor_Z in H.
  pose proof (rne_bounds q). lia.
Qed.

Lemma rne_le z q : (q <= inject_Z z)%Q → rne q ≤ z.
Proof.
  intros H. unfold rne.
  destruct (Qle_lt_or_eq _ _ H) as [Hlt|Heq].
  - assert (Qfloor q < z) as Hf.
    { apply Qfloor_resp_le in H. rewrite Qfloor_Z in H.
      destruct (decide (Qfloor q = z)) as [E|]; [|lia].
      pose proof (Qfloor_le q) as Hq. rewrite E in Hq. lra. }
    destruct (_ ?= _)%Q; [|lia..]. destruct (Z.even _); lia.
  - rewrite (Qfloor_comp _ _ Heq), Qfloor_Z.
    assert (q - inject_Z z == 0)%Q as H0 by (rewrite Heq; ring).
    by rewrite (Qcompare_comp _ _ H0 (1 # 2)%Q (1 # 2)%Q (Qeq_refl _)).
Qed.

Lemma inv_le_swap x p : (0 < x)%Q → (0 < p)%Q → (/ x <= p)%Q → (/ p <= x)%Q.
Proof.
  intros Hx Hp H. apply Qle_shift_inv_r; [done|].
  apply (Qmult_le_l _ _ x Hx) in H. rewrite Qmult_inv_r in H by lra. done.
Qed.

Lemma inv_lt_swap x p : (0 < x)%Q → (0 < p)%Q → (p < / x)%Q → (x < / p)%Q.
Proof.
  intros Hx Hp H. apply Qlt_shift_inv_l; [done|].
  apply (Qmult_lt_l _ _ x Hx) in H. rewrite Qmult_inv_r in H by lra. done.
Qed.

Lemma ilog2_spec x :
  (0 < x)%Q → (pow2 (ilog2 x) <= x)%Q ∧ (x < pow2 (ilog2 x + 1))%Q.
Proof.
  intros Hx. unfold ilog2. destruct (Qle_bool 1 x) eqn:H1.
  - apply Qle_bool_iff in H1.
    assert (1 ≤ Qfloor x) as Hf.
    { change 1%Q with (inject_Z 1) in H1.
      apply Qfloor_resp_le in H1. by rewrite Qfloor_Z in H1. }
    destruct (Z.log2_spec (Qfloor x)) as [Hlo Hhi]; [lia|].
    pose proof (Z.log2_nonneg (Qfloor x)) as Hnn.
    rewrite !pow2_Z by lia. split.
    + eapply Qle_trans; [|apply Qfloor_le]. by rewrite <- Zle_Qle.
    + eapply Qlt_le_trans; [apply Qlt_floor|]. rewrite <- Zle_Qle.
      replace (Z.succ (Z.log2 (Qfloor x))) with (Z.log2 (Qfloor x) + 1) in Hhi
        by lia. lia.
  - assert (x < 1)%Q as Hlt.
    { apply Qnot_le_lt. intros Hle. apply Qle_bool_iff in Hle. congruence. }
    assert (0 < / x)%Q as Hinv by (by apply Qinv_lt_0_compat).
    assert (1 < / x)%Q as Hy.
    { apply (Qmult_lt_l _ _ x Hx). rewrite Qmult_inv_r by lra. lra. }
    set (c := Qceiling (/ x)).
    assert (1 < c) as Hc.
    { assert (1 < inject_Z c)%Q as H
        by (eapply Qlt_le_trans; [exact Hy|apply Qle_ceiling]).
      by rewrite Zlt_Qlt. }
    destruct (Z.log2_up_spec c Hc) as [Hlo Hhi].
    set (k := Z.log2_up c) in *.
    assert (1 ≤ k) as Hk.
    { destruct (decide (1 ≤ k)); [done|]. exfalso.
      assert (k ≤ 0) by lia.
      assert (2 ^ k ≤ 2 ^ 0) by (apply Z.pow_le_mono_r; lia).
      change (2 ^ 0) with 1 in *. lia. }
    replace (Z.pred k) with (k - 1) in Hlo by lia.
    assert (0 < 2 ^ (k - 1)) as Hpk by (apply Z.pow_pos_nonneg; lia).
    split.
    + rewrite pow2_opp, pow2_Z by lia. apply inv_le_swap; [done| |].
      * rewrite <- (Zlt_Qlt 0). lia.
      * eapply Qle_trans; [apply Qle_ceiling|]. by rewrite <- Zle_Qle.
    + replace (- k + 1) with (- (k - 1)) by lia.
      rewrite pow2_opp, pow2_Z by lia. apply inv_lt_swap; [done| |].
      * by rewrite <- (Zlt_Qlt 0).
      * eapply Qle_lt_trans; [|apply Qceiling_lt]. rewrite <- Zle_Qle.
        fold c. lia.
Qed.

(** The exponent of a value below [2 ^ (prec + j)] is at most [j]. *)
Lemma exponent_le x j :
  (0 < x)%Q → (x < pow2 (prec + j))%Q → emin ≤ j → exponent x ≤ j.
Proof.
  intros Hx Hlt Hj. destruct (ilog2_spec x Hx) as [Hlo _].
  assert (ilog2 x < prec + j)
    by (apply pow2_lt_inv; eapply Qle_lt_trans; eauto).
  unfold exponent. lia.
Qed.

Lemma round_pos_nonneg x : (0 < x)%Q → (0 <= round_pos x)%Q.
Proof.
  intros Hx. unfold round_pos. pose proof (pow2_pos (exponent x)) as Hp.
  apply Qmult_le_0_compat; [|lra].
  rewrite <- (Zle_Qle 0). apply rne_ge.
  apply Qle_shift_div_l; [done|]. change (inject_Z 0) with 0%Q.
  rewrite Qmult_0_l. lra.
Qed.

(** Values from the smallest positive float up round to positive floats. *)
Lemma round_pos_pos x : (pow2 emin <= x)%Q → (0 < round_pos x)%Q.
Proof.
  intros Hx. pose proof (pow2_pos emin) as Hmin.
  assert (0 < x)%Q as Hx0 by lra.
  unfold round_pos. pose proof (pow2_pos (exponent x)) as Hp.
  apply Qmult_lt_0_compat; [|done].
  rewrite <- (Zlt_Qlt 0).
  assert (1 ≤ rne (x / pow2 (exponent x))); [|lia].
  apply rne_ge. apply Qle_shift_div_l; [done|].
  change (inject_Z 1) with 1%Q. rewrite Qmult_1_l.
  unfold exponent. destruct (Z.max_spec emin (ilog2 x - (prec - 1)))
    as [[_ ->]|[_ ->]]; [|done].
  destruct (ilog2_spec x Hx0) as [Hlo _].
  eapply Qle_trans; [|exact Hlo]. apply pow2_le. unfold prec. lia.
Qed.

(** A value with a significand of [prec] bits is a float. *)
Lemma round_pos_exact m j :
  0 < m < 2 ^ prec → emin ≤ j →
  (round_pos (inject_Z m * pow2 j) == inject_Z m * pow2 j)%Q.
Proof.
  intros Hm Hj. set (x := (inject_Z m * pow2 j)%Q).
  pose proof (pow2_pos j) as Hpj.
  assert (0 < x)%Q as Hx.
  { apply Qmult_lt_0_compat; [|done]. rewrite <- (Zlt_Qlt 0). lia. }
  assert (x < pow2 (prec + j))%Q as Hlt.
  { subst x. rewrite pow2_plus. apply Qmult_lt_compat_r; [done|].
    rewrite pow2_Z by done. rewrite <- Zlt_Qlt. lia. }
  pose proof (exponent_le x j Hx Hlt Hj) as He.
  unfold round_pos. set (e := exponent x) in *.
  assert (pow2 j == pow2 (j - e) * pow2 e)%Q as Hsplit
    by (rewrite <- pow2_plus; f_equiv; lia).
  pose proof (pow2_pos e) as Hpe.
  assert (x / pow2 e == inject_Z (m * 2 ^ (j - e)))%Q as Hq.
  { subst x. rewrite Hsplit, inject_Z_mult, <- pow2_Z by lia.
    field. lra. }
  rewrite (rne_proper _ _ Hq), rne_Z.
  subst x. rewrite Hsplit, inject_Z_mult, <- pow2_Z by lia. ring.
Qed.

Lemma round_0 : (round 0 == 0)%Q.
Proof. reflexivity. Qed.

Lemma round_nonneg x : (0 <= x)%Q → (0 <= round x)%Q.
Proof.
  intros Hx. unfold round. destruct (x ?= 0)%Q eqn:Hc.
  - lra.
  - apply Qlt_alt in Hc. lra.
  - apply Qgt_alt in Hc. by apply round_pos_nonneg.
Qed.

Lemma round_nonpos x : (x <= 0)%Q → (round x <= 0)%Q.
Proof.
  intros Hx. unfold round. destruct (x ?= 0)%Q eqn:Hc.
  - lra.
  - apply Qlt_alt in Hc.
    assert (0 <= round_pos (- x))%Q by (apply round_pos_nonneg; lra). lra.
  - apply Qgt_alt in Hc. lra.
Qed.

Lemma round_pos_lt x : (pow2 emin <= x)%Q → (0 < round x)%Q.
Proof.
  intros Hx. pose proof (pow2_pos emin) as Hmin. unfold round.
  destruct (x ?= 0)%Q eqn:Hc.
  - apply Qeq_alt in Hc. lra.
  - apply Qlt_alt in Hc. lra.
  - by apply round_pos_pos.
Qed.

Lemma round_exact m j :
  Z.abs m < 2 ^ prec → emin ≤ j →
  (round (inject_Z m * pow2 j) == inject_Z m * pow2 j)%Q.
Proof.
  intros Hm Hj. pose proof (pow2_pos j) as Hpj. unfold round.
  destruct (_ ?= 0)%Q eqn:Hc.
  - apply Qeq_alt in Hc. by rewrite Hc.
  - apply Qlt_alt in Hc.
    assert (m < 0) as Hneg.
    { destruct (decide (m < 0)); [done|]. exfalso.
      assert (0 <= inject_Z m)%Q by (rewrite <- (Zle_Qle 0); lia).
      assert (0 <= inject_Z m * pow2 j)%Q by (apply Qmult_le_0_compat; lra).
      lra. }
    assert (- (inject_Z m * pow2 j) == inject_Z (- m) * pow2 j)%Q as Hopp
      by (rewrite inject_Z_opp; ring).
    rewrite (round_pos_proper _ _ Hopp), round_pos_exact by lia.
    rewrite inject_Z_opp. ring.
  - apply Qgt_alt in Hc.
    assert (0 < m) as Hpos.
    { destruct (decide (0 < m)); [done|]. exfalso.
      assert (inject_Z m <= 0)%Q by (rewrite <- (Zle_Qle _ 0); lia).
      assert (inject_Z m * pow2 j <= 0 * pow2 j)%Q
        by (apply Qmult_le_compat_r; lra).
      lra. }
    apply round_pos_exact; lia.
Qed.

(** Integers of at most [prec] bits convert exactly. *)
Lemma of_int_exact n : Z.abs n < 2 ^ prec → (of_int n == inject_Z n)%Q.
Proof.
  intros Hn. unfold of_int.
  assert (inject_Z n == inject_Z n * pow2 0)%Q as H by (unfold pow2; simpl; ring).
  rewrite (round_proper _ _ H) at 1. rewrite round_exact; [|done|done].
  by rewrite <- H.
Qed.

(** Below the float next below one, nothing rounds up to one. *)
Lemma round_below_one x :
  (0 < x)%Q → (x <= 1 - pow2 (- prec))%Q →
  (round x <= 1 - pow2 (- prec))%Q.
Proof.
  intros Hx Hle. pose proof (pow2_pos (- prec)) as Hulp.
  unfold round. destruct (x ?= 0)%Q eqn:Hc;
    [apply Qeq_alt in Hc; lra|apply Qlt_alt in Hc; lra|].
  destruct (ilog2_spec x Hx) as [Hlo _].
  assert (ilog2 x < 0) as Hil.
  { apply pow2_lt_inv. change (pow2 0) with 1%Q. lra. }
  unfold round_pos. set (e := exponent x).
  assert (emin ≤ e ≤ - prec) as He by (subst e; unfold exponent, emin, prec in *; lia).
  pose proof (pow2_pos e) as Hpe.
  set (z := (2 ^ prec - 1) * 2 ^ (- prec - e)).
  assert (inject_Z z * pow2 e == 1 - pow2 (- prec))%Q as Hz.
  { subst z. rewrite inject_Z_mult, <- pow2_Z by lia.
    replace (2 ^ prec - 1) with (2 ^ prec + - (1)) by lia.
    rewrite inject_Z_plus, inject_Z_opp, <- pow2_Z by (unfold prec; lia).
    change (inject_Z 1) with 1%Q.
    assert (pow2 (- prec - e) * pow2 e == pow2 (- prec))%Q as H1
      by (rewrite <- pow2_plus; f_equiv; lia).
    assert (pow2 prec * pow2 (- prec) == 1)%Q as H2
      by (rewrite <- pow2_plus; by replace (prec + - prec) with 0 by lia).
    rewrite <- Qmult_assoc, H1. rewrite Qmult_plus_distr_l, H2. ring. }
  rewrite <- Hz. apply Qmult_le_compat_r; [|lra].
  rewrite <- Zle_Qle. apply rne_le. apply Qle_shift_div_r; [done|].
  by rewrite Hz.
Qed.

End Float64Facts.

(** ** The adaptive throttle *)

Module BreakerSpec.
Import Go GoFacts Collection CollectionFacts RollingWindowSpec Mathx Breaker.
Import Float64Facts.

Lemma iter_preserves {St} (P : St → Prop) n lo body (s r : St) :
  iter n lo body s = Some r → P s →
  (∀ i s s', body i s = Some s' → P s → P s') → P r.
Proof.
  revert lo s. induction n as [|n IH]; intros lo s Hit Hs Hstep; simpl in Hit.
  - by injection Hit as <-.
  - destruct (body lo s) as [s1|] eqn:Hb; [|done]. simpl in Hit.
    eapply IH; [exact Hit| |exact Hstep]. by eapply Hstep.
Qed.

(** Whatever the callback maintains over single buckets of the window, it
    maintains over a whole [Reduce]. *)
Lemma Reduce_preserves {A} (P : A → Prop) rw now (fn : Bucket → A → A) acc r :
  Reduce rw now fn acc = Some r → P acc →
  (∀ b a, b ∈ buckets (win rw) → P a → P (fn b a)) → P r.
Proof.
  unfold Reduce. destruct (span rw now) as [sp|]; [|done]. simpl.
  intros Hred Hacc Hfn. case_decide; [|by injection Hred as <-].
  destruct (rem _ _) as [off|]; [|done]. simpl in Hred.
  unfold window_reduce, for_range in Hred.
  eapply iter_preserves; [exact Hred|exact Hacc|].
  intros i s s' Hs Ps. simpl in Hs.
  destruct (rem _ _) as [p|]; [|done]. simpl in Hs.
  destruct (index _ p) as [b|] eqn:Hb; [|done]. injection Hs as <-.
  apply Hfn; [|done]. unfold index in Hb. case_decide; [|done].
  by eapply list_elem_of_lookup_2.
Qed.

Lemma history_total_nonneg b now accepts total :
  Forall (λ bk, 0 ≤ Count bk) (buckets (win (stat b))) →
  history b now = Some (accepts, total) → 0 ≤ total.
Proof.
  intros Hall Hh.
  apply (Reduce_preserves (λ acc : Z * Z, 0 ≤ acc.2) _ _ _ _ _ Hh); [done|].
  intros bk a Hbk Ha. simpl. rewrite Forall_forall in Hall.
  specialize (Hall bk Hbk). simpl in Hall. lia.
Qed.

Lemma history_total b now : wf (stat b) → is_Some (history b now).
Proof. intros Hwf. by apply Reduce_total. Qed.

Lemma inject_Z_pos z : 0 < z → (0 < inject_Z z)%Q.
Proof. intros H. change 0%Q with (inject_Z 0). by rewrite <- Zlt_Qlt. Qed.

Lemma inject_Z_nonneg z : 0 ≤ z → (0 <= inject_Z z)%Q.
Proof. intros H. change 0%Q with (inject_Z 0). by rewrite <- Zle_Qle. Qed.

(** Below [2^50] the conversions, the product and the difference of the
    drop ratio are exact. *)
Lemma weighted_exact accepts :
  0 ≤ accepts ≤ 2 ^ 50 →
  (Float64.mul k (float64 accepts) == (3 # 2) * inject_Z accepts)%Q.
Proof.
  intros Ha. unfold Float64.mul, float64, k.
  rewrite of_int_exact by (unfold Float64.prec; lia).
  assert ((3 # 2) * inject_Z accepts
          == inject_Z (3 * accepts) * Float64.pow2 (-1))%Q as ->.
  { rewrite inject_Z_mult. change (Float64.pow2 (-1)) with (1 # 2)%Q.
    change (inject_Z 3) with 3%Q. field. }
  apply round_exact; [unfold Float64.prec; lia|done].
Qed.

Lemma numerator_exact accepts total :
  0 ≤ accepts ≤ 2 ^ 50 → 0 ≤ total ≤ 2 ^ 50 →
  (Float64.sub (float64 (total - protection))
     (Float64.mul k (float64 accepts))
   == inject_Z total - 5 - (3 # 2) * inject_Z accepts)%Q.
Proof.
  intros Ha Ht. unfold Float64.sub. rewrite weighted_exact by done.
  unfold float64, protection.
  rewrite of_int_exact by (unfold Float64.prec; lia).
  assert (inject_Z (total - 5) - (3 # 2) * inject_Z accepts
          == inject_Z (2 * (total - 5) - 3 * accepts) * Float64.pow2 (-1))%Q
    as Hhalf.
  { replace (2 * (total - 5) - 3 * accepts)
      with (2 * (total - 5) + - (3 * accepts)) by lia.
    rewrite inject_Z_plus, inject_Z_opp, !inject_Z_mult.
    change (Float64.pow2 (-1)) with (1 # 2)%Q.
    change (inject_Z 3) with 3%Q. change (inject_Z 2) with 2%Q. field. }
  rewrite Hhalf, round_exact by (unfold Float64.prec; lia || done).
  rewrite <- Hhalf. replace (total - 5) with (total + - (5)) by lia.
  rewrite inject_Z_plus, inject_Z_opp. change (inject_Z 5) with 5%Q. ring.
Qed.

(** The ratio the code computes is the ratio of the specification,
    rounded once: below [2^50] calls only the division rounds. *)
Lemma dropRatio_round accepts total :
  0 ≤ accepts ≤ 2 ^ 50 → 0 ≤ total ≤ 2 ^ 50 →
  (dropRatio k accepts total == Float64.round (drop accepts total))%Q.
Proof.
  intros Ha Ht. unfold dropRatio, drop, math_Max, Float64.div.
  rewrite numerator_exact by done. unfold float64 at 1.
  rewrite of_int_exact by (unfold Float64.prec; lia).
  rewrite inject_Z_plus. change (inject_Z 1) with 1%Q.
  set (e := ((inject_Z total - 5 - (3 # 2) * inject_Z accepts)
             / (inject_Z total + 1))%Q).
  destruct (Qlt_le_dec 0 e) as [Hpos|Hneg].
  - pose proof (round_nonneg e ltac:(lra)).
    rewrite (Q.max_r 0 e) by lra. by rewrite Q.max_r.
  - pose proof (round_nonpos e Hneg).
    rewrite (Q.max_l 0 e) by done. by rewrite Q.max_l.
Qed.

(** Whatever the rounding does to a large reading, it keeps the signs:
    under protection the ratio the code computes is not positive. *)
Lemma dropRatio_nonpos accepts total :
  0 ≤ accepts → 0 ≤ total ≤ 5 → (dropRatio k accepts total <= 0)%Q.
Proof.
  intros Ha Ht. unfold dropRatio, math_Max, Float64.div, Float64.sub,
    Float64.mul, float64, protection, k.
  assert (Float64.of_int (total - 5) <= 0)%Q as Hn.
  { apply round_nonpos. rewrite <- (Zle_Qle _ 0). lia. }
  assert (0 <= Float64.of_int accepts)%Q as Hacc.
  { apply round_nonneg. rewrite <- (Zle_Qle 0). lia. }
  assert (0 <= Float64.round ((3 # 2) * Float64.of_int accepts))%Q as Hw.
  { apply round_nonneg. apply Qmult_le_0_compat; [done|exact Hacc]. }
  assert (0 < Float64.of_int (total + 1))%Q as Hd.
  { rewrite of_int_exact by (unfold Float64.prec; lia).
    rewrite <- (Zlt_Qlt 0). lia. }
  set (n := Float64.round
              (Float64.of_int (total - 5)
               - Float64.round ((3 # 2) * Float64.of_int accepts))).
  assert (n <= 0)%Q as Hnum by (apply round_nonpos; lra).
  assert (Float64.round (n / Float64.of_int (total + 1)) <= 0)%Q as Hq.
  { apply round_nonpos. apply Qle_shift_div_r; [done|]. lra. }
  rewrite Q.max_l; [lra|done].
Qed.

Lemma Qlt_bool_iff x y : Qlt_bool x y = true ↔ (x < y)%Q.
Proof.
  unfold Qlt_bool. rewrite Qlt_alt. by destruct (x ?= y)%Q.
Qed.

#[local] Instance Qlt_bool_proper : Proper (Qeq ==> Qeq ==> eq) Qlt_bool.
Proof. intros x x' Hx y y' Hy. unfold Qlt_bool. by rewrite Hx, Hy. Qed.

Lemma accept_cases b now accepts total :
  history b now = Some (accepts, total) →
  let d := dropRatio (gb_k b) accepts total in
  let p' := {| samples := samples (proba b); drawn := S (drawn (proba b)) |} in
  accept b now
  = if Qle_bool d 0 then Some (nil, b)
    else if Qlt_bool (samples (proba b) (drawn (proba b))) d
         then Some (ErrServiceUnavailable, with_proba b p')
         else Some (nil, with_proba b p').
Proof.
  intros Hh. unfold accept. rewrite Hh. simpl.
  destruct (Qle_bool _ 0); [done|]. unfold TrueOnProba.
  by destruct (Qlt_bool _ _).
Qed.

(** C1, as the code has it.  The admission decision for a reading
    [(accepts, total)] of the window with [accepts >= 0] and [total >= 0]:
    [accept] computes [max(0, (total - 5 - 1.5 * accepts) / (total + 1))]
    in [float64] arithmetic, every operation rounded to the nearest float;
    up to [2^50] calls in the window only the division rounds, and the
    drop ratio is the exact value of the formula rounded once.  When the
    ratio is [<= 0], [accept] returns [nil] and leaves the probability
    source as it was; otherwise it draws one sample [x] of [[0,1)] and
    returns [ErrServiceUnavailable] exactly when [x] is below the ratio it
    computed, [nil] otherwise. *)
Theorem accept_decision b now accepts total :
  gb_k b = k →
  history b now = Some (accepts, total) →
  0 ≤ accepts → 0 ≤ total →
  let d := dropRatio (gb_k b) accepts total in
  let x := samples (proba b) (drawn (proba b)) in
  let p' := {| samples := samples (proba b); drawn := S (drawn (proba b)) |} in
  d = Qmax 0 (Float64.div
                (Float64.sub (Float64.of_int (total - 5))
                   (Float64.mul (3 # 2) (Float64.of_int accepts)))
                (Float64.of_int (total + 1))) ∧
  (accepts ≤ 2 ^ 50 → total ≤ 2 ^ 50 →
     (d == Float64.round (drop accepts total))%Q) ∧
  ((d <= 0)%Q → accept b now = Some (nil, b)) ∧
  ((0 < d)%Q →
     TrueOnProba (proba b) d = (Qlt_bool x d, p') ∧
     ((x < d)%Q →
        accept b now = Some (ErrServiceUnavailable, with_proba b p')) ∧
     (¬ (x < d)%Q → accept b now = Some (nil, with_proba b p'))).
Proof.
  intros Hk Hh Ha Ht d x p'.
  pose proof (accept_cases b now accepts total Hh) as Hacc.
  simpl in Hacc. fold d x p' in Hacc.
  split; [by subst d; rewrite Hk|]. split; [|split].
  - intros Ha' Ht'. subst d. rewrite Hk. by apply dropRatio_round.
  - intros Hle. rewrite Hacc. apply Qle_bool_iff in Hle. by rewrite Hle.
  - intros Hlt.
    assert (Qle_bool d 0 = false) as Hb.
    { destruct (Qle_bool d 0) eqn:Hb; [|done].
      apply Qle_bool_iff in Hb. lra. }
    rewrite Hb in Hacc. split; [done|]. split.
    + intros Hx%Qlt_bool_iff. by rewrite Hacc, Hx.
    + intros Hx. rewrite Hacc.
      destruct (Qlt_bool x d) eqn:Hc; [|done].
      by apply Qlt_bool_iff in Hc.
Qed.

Lemma accept_decision_witness :
  gb_k (sample_breaker (mkBucket 0 10) zeroBucket (λ _, 1 # 4)) = k ∧
  history (sample_breaker (mkBucket 0 10) zeroBucket (λ _, 1 # 4)) 1250
  = Some (0, 10) ∧
  (drop 0 10 == 5 # 11)%Q ∧
  (dropRatio k 0 10 == Float64.round (5 # 11))%Q ∧
  accept (sample_breaker (mkBucket 0 10) zeroBucket (λ _, 1 # 4)) 1250
  = Some (ErrServiceUnavailable,
          with_proba (sample_breaker (mkBucket 0 10) zeroBucket (λ _, 1 # 4))
            {| samples := λ _, 1 # 4; drawn := 1 |}).
Proof.
  set (b := sample_breaker (mkBucket 0 10) zeroBucket (λ _, 1 # 4)).
  assert (Hh : history b 1250 = Some (0, 10)) by reflexivity.
  assert (Hd : (drop 0 10 == 5 # 11)%Q) by reflexivity.
  split; [reflexivity|]. split; [exact Hh|]. split; [exact Hd|].
  destruct (accept_decision b 1250 0 10 eq_refl Hh) as (_ & Hround & _ & Hpos);
    [lia..|].
  split.
  - rewrite <- (round_proper _ _ Hd). apply Hround; lia.
  - destruct Hpos as (_ & Hrej & _); [by vm_compute|].
    apply Hrej. by vm_compute.
Defined.

(** C1, as the specification has it, fails: with a reading of six calls
    and no accept the formula gives [1 / 7], the code computes the float
    next below it, and a sample equal to that float is below [1 / 7] but
    not below the ratio computed: the call is admitted. *)
Lemma accept_compares_with_rounded_ratio :
  history (sample_breaker (mkBucket 0 6) zeroBucket (λ _, seventh)) 1250
  = Some (0, 6) ∧
  (drop 0 6 == 1 # 7)%Q ∧
  (0 <= seventh)%Q ∧ (seventh < 1)%Q ∧ (seventh < drop 0 6)%Q ∧
  (dropRatio k 0 6 == seventh)%Q ∧
  accept (sample_breaker (mkBucket 0 6) zeroBucket (λ _, seventh)) 1250
  = Some (nil,
          with_proba (sample_breaker (mkBucket 0 6) zeroBucket (λ _, seventh))
            {| samples := λ _, seventh; drawn := 1 |}).
Proof. repeat split; by vm_compute. Qed.

Lemma drop_nonpos accepts total :
  0 ≤ accepts → 0 ≤ total ≤ 5 → (drop accepts total <= 0)%Q.
Proof.
  intros Ha Ht. unfold drop.
  assert (0 < inject_Z total + 1)%Q.
  { pose proof (inject_Z_nonneg total (proj1 Ht)). lra. }
  assert ((inject_Z total - 5 - (3 # 2) * inject_Z accepts)
          / (inject_Z total + 1) <= 0)%Q as Hq.
  { apply Qle_shift_div_r; [done|]. rewrite Qmult_0_l.
    assert (inject_Z total <= 5)%Q
      by (change 5%Q with (inject_Z 5); rewrite <- Zle_Qle; lia).
    pose proof (inject_Z_nonneg accepts Ha). lra. }
  rewrite Q.max_l; [lra|done].
Qed.

(** C7. Protection: a reading of a window (whose bucket counts are never
    negative) with [total <= 5] and [accepts >= 0] gives a drop ratio
    [<= 0], and [accept] returns [nil] without touching the probability
    source, whatever it would have drawn. *)
Theorem protection_never_rejects b now accepts total :
  gb_k b = k →
  Forall (λ bk, 0 ≤ Count bk) (buckets (win (stat b))) →
  history b now = Some (accepts, total) →
  0 ≤ accepts → total ≤ 5 →
  0 ≤ total ∧
  (dropRatio (gb_k b) accepts total <= 0)%Q ∧
  (drop accepts total <= 0)%Q ∧
  accept b now = Some (nil, b).
Proof.
  intros Hk Hcnt Hh Ha Ht.
  pose proof (history_total_nonneg b now accepts total Hcnt Hh) as Ht0.
  pose proof (drop_nonpos accepts total Ha (conj Ht0 Ht)) as Hd.
  assert (dropRatio (gb_k b) accepts total <= 0)%Q as Hd'.
  { rewrite Hk. by apply dropRatio_nonpos. }
  split; [done|]. split; [done|]. split; [done|].
  rewrite (accept_cases b now accepts total Hh). simpl.
  apply Qle_bool_iff in Hd'. by rewrite Hd'.
Qed.

Lemma protection_never_rejects_witness :
  let b := sample_breaker (mkBucket 0 2) (mkBucket 0 3) (λ _, 0%Q) in
  gb_k b = k ∧ history b 1250 = Some (0, 5) ∧
  accept b 1250 = Some (nil, b).
Proof.
  intros b.
  assert (Hh : history b 1250 = Some (0, 5)) by reflexivity.
  split; [reflexivity|]. split; [exact Hh|].
  apply (protection_never_rejects b 1250 0 5 eq_refl); [|exact Hh|lia..].
  repeat constructor; simpl; lia.
Defined.

(** The counts of a window stay non-negative under [Add]. *)
Lemma adds_counts_nonneg rw0 rw :
  Forall (λ bk, 0 ≤ Count bk) (buckets (win rw0)) → adds rw0 rw →
  Forall (λ bk, 0 ≤ Count bk) (buckets (win rw)).
Proof.
  intros H0. induction 1 as [|rw0 rw1 rw2 now_span now v _ IH Hadd]; [done|].
  specialize (IH H0). unfold Add in Hadd.
  assert (∀ (f : Bucket → Bucket) bs i bs',
            (∀ bk, 0 ≤ Count (f bk)) ∨ (∀ bk, 0 ≤ Count bk → 0 ≤ Count (f bk)) →
            Forall (λ bk, 0 ≤ Count bk) bs → update f bs i = Some bs' →
            Forall (λ bk, 0 ≤ Count bk) bs') as Hupd.
  { intros f bs i bs' Hf Hbs Hu. unfold update in Hu.
    destruct (index bs i) as [x|] eqn:Hx; [|done]. injection Hu as <-.
    apply Forall_insert; [done|]. destruct Hf as [Hf|Hf]; [done|].
    apply Hf. rewrite Forall_forall in Hbs. apply Hbs.
    unfold index in Hx. case_decide; [|done]. by eapply list_elem_of_lookup_2. }
  assert (∀ w i w', Forall (λ bk, 0 ≤ Count bk) (buckets w) →
                    window_resetBucket w i = Some w' →
                    Forall (λ bk, 0 ≤ Count bk) (buckets w')) as Hreset.
  { intros w i w' Hw Hr. unfold window_resetBucket in Hr.
    destruct (rem i _) as [j|]; [|done]. simpl in Hr.
    destruct (update _ _ j) as [bs|] eqn:Hu; [|done]. injection Hr as <-.
    eapply Hupd; [|exact Hw|exact Hu]. left. intros bk. simpl. lia. }
  destruct (updateOffset rw1 now_span now) as [rw1'|] eqn:Hu; [|done].
  simpl in Hadd.
  assert (Forall (λ bk, 0 ≤ Count bk) (buckets (win rw1'))) as H1.
  { unfold updateOffset in Hu. destruct (span rw1 now_span) as [sp|]; [|done].
    simpl in Hu. case_decide; [by injection Hu as <-|].
    unfold rotate in Hu.
    destruct (for_range _ _ _ _) as [w|] eqn:Hloop; [|done]. simpl in Hu.
    destruct (rem (offset rw1 + sp) _); [|done]. simpl in Hu.
    destruct (rem (now - _) _); [|done]. injection Hu as <-. simpl.
    unfold for_range in Hloop.
    eapply (iter_preserves (λ w, Forall (λ bk, 0 ≤ Count bk) (buckets w)));
      [exact Hloop|exact IH|].
    intros i s s' Hs Ps. simpl in Hs.
    destruct (rem _ _) as [p|]; [|done]. simpl in Hs. by eapply Hreset. }
  unfold window_add in Hadd. destruct (rem _ _) as [j|]; [|done].
  simpl in Hadd. destruct (update _ _ j) as [bs|] eqn:Hu'; [|done].
  injection Hadd as <-. simpl.
  eapply Hupd; [|exact H1|exact Hu']. right. intros bk. simpl. lia.
Qed.

(** C9. [doReq] on a well-formed window.  Denied
    admission: the result is the fallback applied to
    [ErrServiceUnavailable] when there is a fallback, the error itself when
    there is none, and the window is left as it was.  Granted
    admission: [req] runs;
    when it returns [e], [Add(1)] is recorded if [acceptable e] and [Add(0)]
    if not, and [e] is returned unchanged; when it panics, [Add(0)] is
    recorded and the panic goes on. *)
Theorem doReq_outcomes b now_accept now_span now req fallback acceptable :
  wf (stat b) →
  ∃ err b1,
    accept b now_accept = Some (err, b1) ∧ stat b1 = stat b ∧
    ((err = ErrServiceUnavailable ∧
      doReq b now_accept now_span now req fallback acceptable
      = Some (Returned (match fallback with
                        | Some f => f ErrServiceUnavailable
                        | None => ErrServiceUnavailable
                        end), b1)) ∨
     (err = nil ∧
      ∃ st,
        match req () with
        | Returned e =>
            Add (stat b) now_span now (if acceptable e then 1 else 0)
            = Some st ∧
            doReq b now_accept now_span now req fallback acceptable
            = Some (Returned e, with_stat b1 st)
        | Panicked v =>
            Add (stat b) now_span now 0 = Some st ∧
            doReq b now_accept now_span now req fallback acceptable
            = Some (Panicked v, with_stat b1 st)
        end)).
Proof.
  intros Hwf.
  destruct (history_total b now_accept Hwf) as [[accepts total] Hh].
  pose proof (accept_cases b now_accept accepts total Hh) as Hacc.
  simpl in Hacc.
  assert (∀ v, is_Some (Add (stat b) now_span now v)) as Hadd.
  { intros v. destruct (Add_total (stat b) now_span now v Hwf) as (st & -> & _).
    by eexists. }
  assert (∀ b1, stat b1 = stat b →
            accept b now_accept = Some (nil, b1) →
            ∃ st,
              match req () with
              | Returned e =>
                  Add (stat b) now_span now (if acceptable e then 1 else 0)
                  = Some st ∧
                  doReq b now_accept now_span now req fallback acceptable
                  = Some (Returned e, with_stat b1 st)
              | Panicked v =>
                  Add (stat b) now_span now 0 = Some st ∧
                  doReq b now_accept now_span now req fallback acceptable
                  = Some (Panicked v, with_stat b1 st)
              end) as Hadmit.
  { intros b1 Hst Ha. unfold doReq. rewrite Ha. simpl.
      unfold markSuccess, markFailure. rewrite Hst.
    destruct (req ()) as [e|v].
    - destruct (acceptable e).
      + destruct (Hadd 1%Q) as [st ->]. by exists st.
      + destruct (Hadd 0%Q) as [st ->]. by exists st.
    - destruct (Hadd 0%Q) as [st ->]. by exists st. }
  destruct (Qle_bool _ 0).
  - exists nil, b. do 2 (split; [done|]). right. split; [done|]. by apply Hadmit.
  - destruct (Qlt_bool _ _).
    + eexists _, _. do 2 (split; [done|]). left. split; [done|].
      unfold doReq. rewrite Hacc. simpl. by destruct fallback.
    + eexists _, _. do 2 (split; [done|]). right. split; [done|].
      by apply Hadmit.
Qed.

Lemma doReq_outcomes_witness :
  let b := sample_breaker (mkBucket 0 10) zeroBucket (λ _, 1 # 4) in
  let b' := sample_breaker (mkBucket 0 2) zeroBucket (λ _, 1 # 4) in
  wf (stat b) ∧ wf (stat b') ∧
  doReq b 1250 1260 1270 (λ _, Returned nil)
    (Some (λ _, UserError "fallback")) (λ e, bool_decide (e = nil))
  = Some (Returned (UserError "fallback"),
          with_proba b {| samples := λ _, 1 # 4; drawn := 1 |}) ∧
  ∃ st, Add (stat b') 1260 1270 0 = Some st ∧
        doReq b' 1250 1260 1270 (λ _, Returned (UserError "boom")) None
          (λ e, bool_decide (e = nil))
        = Some (Returned (UserError "boom"), with_stat b' st).
Proof.
  intros b b'.
  assert (Hwf : wf (stat b)) by (split; simpl; lia).
  assert (Hwf' : wf (stat b')) by (split; simpl; lia).
  split; [exact Hwf|]. split; [exact Hwf'|]. split.
  - destruct (doReq_outcomes b 1250 1260 1270 (λ _, Returned nil)
                (Some (λ _, UserError "fallback"))
                (λ e, bool_decide (e = nil)) Hwf)
      as (err & b1 & Hacc & _ & [[_ Hdo]|[Herr _]]).
    + rewrite Hdo. vm_compute in Hacc. injection Hacc as _ <-. reflexivity.
    + vm_compute in Hacc. rewrite Herr in Hacc. discriminate Hacc.
  - destruct (doReq_outcomes b' 1250 1260 1270
                (λ _, Returned (UserError "boom")) None
                (λ e, bool_decide (e = nil)) Hwf')
      as (err & b1 & Hacc & _ & [[Herr _]|[_ (st & Hadd & Hdo)]]).
    + vm_compute in Hacc. rewrite Herr in Hacc. discriminate Hacc.
    + exists st. split; [exact Hadd|]. rewrite Hdo.
      vm_compute in Hacc. injection Hacc as _ <-. reflexivity.
Defined.

End BreakerSpec.

(** ** Shared calls: the key leaves the index before completion is signalled *)

Module SyncxSpec.
Import Syncx.

Section Invariant.
Context {V E : Type}.
Implicit Types (σ : state V E) (t : pc V E).

Lemma executes_of_indexed t c k : indexed t c k → executes t c.
Proof. destruct t; simpl; tauto. Qed.

(** A goroutine that moves: every other goroutine is where it was. *)
Lemma lookup_moved (ts : list (pc V E)) i t0 t' j t :
  ts !! i = Some t0 → <[i := t']> ts !! j = Some t →
  (j = i ∧ t = t') ∨ (j ≠ i ∧ ts !! j = Some t).
Proof.
  intros Hi Hj. apply list_lookup_insert_Some in Hj as [(-> & -> & _)|[? ?]].
  - by left.
  - right. split; [congruence|done].
Qed.

Lemma lookup_moved_other (ts : list (pc V E)) i t' j t :
  j ≠ i → ts !! j = Some t → <[i := t']> ts !! j = Some t.
Proof. intros Hne Hj. by rewrite list_lookup_insert_ne. Qed.

Lemma lookup_moved_self (ts : list (pc V E)) i t0 t' :
  ts !! i = Some t0 → <[i := t']> ts !! i = Some t'.
Proof. intros Hi. apply list_lookup_insert_eq. by eapply lookup_lt_Some. Qed.

Lemma inv_new : inv (V := V) (E := E) NewSharedCalls.
Proof. split; simpl; intros *; by rewrite ?lookup_empty, ?lookup_nil. Qed.

(** A step that moves goroutine [i] from [t0] to [t'], neither of them
    executing a call in the index, and leaves the index and the heap. *)
Lemma inv_move_idle σ i t0 t' :
  inv σ → threads σ !! i = Some t0 →
  (∀ c, ¬ executes t0 c) → (∀ c, ¬ executes t' c) →
  inv {| calls := calls σ; heap := heap σ; threads := <[i := t']> (threads σ) |}.
Proof.
  intros [J1 J2 J3] Hi H0 H'. split; simpl.
  - intros k c Hk. destruct (J1 k c Hk) as (j & t & Hj & Ht).
    exists j, t. split; [|done]. apply lookup_moved_other; [|done].
    intros ->. rewrite Hi in Hj. injection Hj as <-.
    by apply executes_of_indexed, H0 in Ht.
  - intros j t c Hj Ht.
    destruct (lookup_moved _ _ _ _ _ _ Hi Hj) as [[-> ->]|[_ Hj']].
    + by apply H' in Ht.
    + by eapply J2.
  - intros j1 j2 t1 t2 c Hj1 Hj2 Ht1 Ht2.
    destruct (lookup_moved _ _ _ _ _ _ Hi Hj1) as [[-> ->]|[_ Hj1']];
      [by apply H' in Ht1|].
    destruct (lookup_moved _ _ _ _ _ _ Hi Hj2) as [[-> ->]|[_ Hj2']];
      [by apply H' in Ht2|].
    by eapply J3.
Qed.

Lemma inv_step σ σ' : inv σ → step σ σ' → inv σ'.
Proof.
  intros Hinv Hstep. pose proof Hinv as [J1 J2 J3].
  destruct Hstep as [σ key fn ex|σ i key fn ex c Hi Hk|σ i key fn ex Hi Hk
                    |σ i c ex r Hi Hc Hr|σ i c key fn ex v e r Hi Hfn Hc
                    |σ i c key fn ex p Hi Hfn|σ i c key ex p Hi
                    |σ i c ex p r Hi Hc].
  - (* a new goroutine *)
    split; simpl.
    + intros k c Hk. destruct (J1 k c Hk) as (j & t & Hj & Ht).
      exists j, t. split; [|done]. by apply lookup_app_l_Some.
    + intros j t c Hj Ht. apply lookup_app_Some in Hj as [Hj|[_ Hj]].
      * by eapply J2.
      * apply list_lookup_singleton_Some in Hj as [_ <-]. done.
    + intros j1 j2 t1 t2 c Hj1 Hj2 Ht1 Ht2.
      apply lookup_app_Some in Hj1 as [Hj1|[_ Hj1]];
        [|by apply list_lookup_singleton_Some in Hj1 as [_ <-]].
      apply lookup_app_Some in Hj2 as [Hj2|[_ Hj2]];
        [|by apply list_lookup_singleton_Some in Hj2 as [_ <-]].
      by eapply J3.
  - (* the key is in the index: wait for its call *)
    apply (inv_move_idle σ i (AtCreateCall key fn ex)); [done..| |];
      by intros ? ?.
  - (* the key is not in the index: a new call under it *)
    assert (heap σ !! c = None) as Hfresh.
    { apply not_elem_of_dom, is_fresh. }
    assert (∀ j t c', threads σ !! j = Some t → executes t c' → c' ≠ c) as Hold.
    { intros j t c' Hj Ht ->. destruct (J2 j t c Hj Ht) as (r & Hr & _).
      congruence. }
    split; simpl.
    + intros k c' Hk'. destruct (decide (k = key)) as [->|Hne].
      * rewrite lookup_insert_eq in Hk'. injection Hk' as <-.
        exists i, (AtFn c key fn ex). split; [|done]. by eapply lookup_moved_self.
      * rewrite lookup_insert_ne in Hk' by done.
        destruct (J1 k c' Hk') as (j & t & Hj & Ht).
        exists j, t. split; [|done]. apply lookup_moved_other; [|done].
        intros ->. rewrite Hi in Hj. by injection Hj as <-.
    + intros j t c' Hj Ht.
      destruct (lookup_moved _ _ _ _ _ _ Hi Hj) as [[-> ->]|[_ Hj']].
      * simpl in Ht. subst c'. rewrite lookup_insert_eq. by eexists.
      * rewrite lookup_insert_ne by (symmetry; by eapply Hold).
        by eapply J2.
    + intros j1 j2 t1 t2 c' Hj1 Hj2 Ht1 Ht2.
      destruct (lookup_moved _ _ _ _ _ _ Hi Hj1) as [[-> ->]|[? Hj1']];
        destruct (lookup_moved _ _ _ _ _ _ Hi Hj2) as [[-> ->]|[? Hj2']];
        simpl in *; subst; try done.
      * by eapply Hold in Hj2'.
      * by eapply Hold in Hj1'.
      * by eapply J3.
  - (* a waiter is released *)
    apply (inv_move_idle σ i (AtWait c ex)); [done..| |]; by intros ? ?.
  - (* [fn] returns: the result is stored *)
    split; simpl.
    + intros k c' Hk'. destruct (J1 k c' Hk') as (j & t & Hj & Ht).
      destruct (decide (j = i)) as [->|Hne].
      * rewrite Hi in Hj. injection Hj as <-. simpl in Ht.
        destruct Ht as [-> ->].
        exists i, (AtDelete c' k ex None). split; [|done].
        by eapply lookup_moved_self.
      * exists j, t. split; [|done]. by apply lookup_moved_other.
    + intros j t c' Hj Ht.
      assert (∃ r', heap σ !! c' = Some r' ∧ wg r' = 1) as (r' & Hr' & Hwg).
      { destruct (lookup_moved _ _ _ _ _ _ Hi Hj) as [[-> ->]|[_ Hj']].
        - simpl in Ht. subst c'. by eapply (J2 i _ c Hi).
        - by eapply J2. }
      destruct (decide (c' = c)) as [->|Hne].
      * rewrite lookup_insert_eq. eexists. split; [done|]. simpl. congruence.
      * rewrite lookup_insert_ne by done. by eexists.
    + intros j1 j2 t1 t2 c' Hj1 Hj2 Ht1 Ht2.
      destruct (lookup_moved _ _ _ _ _ _ Hi Hj1) as [[-> ->]|[? Hj1']];
        destruct (lookup_moved _ _ _ _ _ _ Hi Hj2) as [[-> ->]|[? Hj2']];
        simpl in *; subst; try done.
      * symmetry. by eapply (J3 j2 i _ _ c' Hj2' Hi).
      * by eapply (J3 j1 i _ _ c' Hj1' Hi).
      * by eapply J3.
  - (* [fn] panics *)
    split; simpl.
    + intros k c' Hk'. destruct (J1 k c' Hk') as (j & t & Hj & Ht).
      destruct (decide (j = i)) as [->|Hne].
      * rewrite Hi in Hj. injection Hj as <-. simpl in Ht.
        destruct Ht as [-> ->].
        exists i, (AtDelete c' k ex (Some p)). split; [|done].
        by eapply lookup_moved_self.
      * exists j, t. split; [|done]. by apply lookup_moved_other.
    + intros j t c' Hj Ht.
      destruct (lookup_moved _ _ _ _ _ _ Hi Hj) as [[-> ->]|[_ Hj']].
      * simpl in Ht. subst c'. by eapply (J2 i _ c Hi).
      * by eapply J2.
    + intros j1 j2 t1 t2 c' Hj1 Hj2 Ht1 Ht2.
      destruct (lookup_moved _ _ _ _ _ _ Hi Hj1) as [[-> ->]|[? Hj1']];
        destruct (lookup_moved _ _ _ _ _ _ Hi Hj2) as [[-> ->]|[? Hj2']];
        simpl in *; subst; try done.
      * symmetry. by eapply (J3 j2 i _ _ c' Hj2' Hi).
      * by eapply (J3 j1 i _ _ c' Hj1' Hi).
      * by eapply J3.
  - (* the deferred function deletes the key *)
    split; simpl.
    + intros k c' Hk'. apply lookup_delete_Some in Hk' as [Hne Hk'].
      destruct (J1 k c' Hk') as (j & t & Hj & Ht).
      exists j, t. split; [|done]. apply lookup_moved_other; [|done].
      intros ->. rewrite Hi in Hj. injection Hj as <-. simpl in Ht.
      by destruct Ht as [_ ->].
    + intros j t c' Hj Ht.
      destruct (lookup_moved _ _ _ _ _ _ Hi Hj) as [[-> ->]|[_ Hj']].
      * simpl in Ht. subst c'. by eapply (J2 i _ c Hi).
      * by eapply J2.
    + intros j1 j2 t1 t2 c' Hj1 Hj2 Ht1 Ht2.
      destruct (lookup_moved _ _ _ _ _ _ Hi Hj1) as [[-> ->]|[? Hj1']];
        destruct (lookup_moved _ _ _ _ _ _ Hi Hj2) as [[-> ->]|[? Hj2']];
        simpl in *; subst; try done.
      * symmetry. by eapply (J3 j2 i _ _ c' Hj2' Hi).
      * by eapply (J3 j1 i _ _ c' Hj1' Hi).
      * by eapply J3.
  - (* completion is signalled *)
    assert (∀ t', (∀ c', ¬ executes t' c') →
              inv {| calls := calls σ;
                     heap := <[c := mkCall (wg r - 1) (val r) (err r)]> (heap σ);
                     threads := <[i := t']> (threads σ) |}) as Hgen.
    { intros t' Ht'. split; simpl.
      + intros k c' Hk'. destruct (J1 k c' Hk') as (j & t & Hj & Ht).
        exists j, t. split; [|done]. apply lookup_moved_other; [|done].
        intros ->. rewrite Hi in Hj. by injection Hj as <-.
      + intros j t c' Hj Ht.
        destruct (lookup_moved _ _ _ _ _ _ Hi Hj) as [[-> ->]|[Hne Hj']].
        * by apply Ht' in Ht.
        * rewrite lookup_insert_ne; [by eapply J2|].
          intros <-. apply Hne. by eapply (J3 j i _ _ c Hj' Hi).
      + intros j1 j2 t1 t2 c' Hj1 Hj2 Ht1 Ht2.
        destruct (lookup_moved _ _ _ _ _ _ Hi Hj1) as [[-> ->]|[_ Hj1']];
          [by apply Ht' in Ht1|].
        destruct (lookup_moved _ _ _ _ _ _ Hi Hj2) as [[-> ->]|[_ Hj2']];
          [by apply Ht' in Ht2|].
        by eapply J3. }
    apply Hgen. intros c'. destruct p; by intros ?.
Qed.

Lemma inv_reachable σ : reachable σ → inv σ.
Proof.
  unfold reachable. intros H.
  eapply (rtc_ind_r (λ s, inv s)); [apply inv_new| |exact H].
  intros s s' _ Hstep IH. by eapply inv_step.
Qed.

(** C4. In every state a program reaches, whichever way [fn] ended
    (a value, an error or a panic): a goroutine that is about to signal the
    completion of its call has already taken the key out of the index, no
    key maps to that call any more; and every call a key maps to is still
    pending, its completion not signalled. *)
Theorem key_deleted_before_done σ :
  reachable σ →
  (∀ i c ex p, threads σ !! i = Some (AtDone c ex p) →
               ∀ key, calls σ !! key ≠ Some c) ∧
  (∀ key c, calls σ !! key = Some c →
            ∃ r, heap σ !! c = Some r ∧ 0 < wg r).
Proof.
  intros [J1 J2 J3]%inv_reachable. split.
  - intros i c ex p Hi key Hk.
    destruct (J1 key c Hk) as (j & t & Hj & Ht).
    assert (j = i) as ->.
    { eapply (J3 j i _ _ c Hj Hi); [by eapply executes_of_indexed|done]. }
    rewrite Hi in Hj. by injection Hj as <-.
  - intros key c Hk. destruct (J1 key c Hk) as (j & t & Hj & Ht).
    destruct (J2 j t c Hj) as (r & Hr & Hwg); [by eapply executes_of_indexed|].
    exists r. split; [done|lia].
Qed.

(** A panic of [fn] does not leave the waiters behind: the goroutine goes
    on through the deferred function, deletes the key, signals completion
    and only then panics. *)
Lemma panic_still_signals σ i c key fn ex p :
  reachable σ →
  threads σ !! i = Some (AtFn c key fn ex) → fn () = FnPanics p →
  ∃ σ', rtc step σ σ' ∧
        threads σ' !! i = Some (Panicked p) ∧
        calls σ' !! key = None ∧
        ∃ r, heap σ' !! c = Some r ∧ wg r = 0.
Proof.
  intros [_ J2 _]%inv_reachable Hi Hfn.
  destruct (J2 i _ c Hi) as (r & Hr & Hwg); [done|].
  pose proof (lookup_lt_Some _ _ _ Hi) as Hlen.
  eexists. split.
  - eapply rtc_l; [by eapply (step_fn_panics σ i)|].
    eapply rtc_l.
    { eapply (step_delete _ i c key ex (Some p)). simpl.
      by apply list_lookup_insert_eq. }
    eapply rtc_l; [|apply rtc_refl].
    eapply (step_done _ i c ex (Some p) r); simpl; [|done].
    apply list_lookup_insert_eq. by rewrite length_insert.
  - simpl. split; [|split].
    + apply list_lookup_insert_eq. by rewrite !length_insert.
    + apply lookup_delete_eq.
    + eexists. split; [apply lookup_insert_eq|]. simpl. lia.
Qed.

End Invariant.

(** One goroutine whose [fn] panics, stopped just before [c.wg.Done()]. *)
Lemma key_deleted_before_done_witness :
  ∃ (σ : state Z string) c,
    reachable σ ∧
    threads σ = [AtDone c false (Some "boom")] ∧
    ∀ key, calls σ !! key ≠ Some c.
Proof.
  set (fn := λ _ : unit, FnPanics (V := Z) (E := string) "boom").
  set (s1 := {| calls := ∅; heap := ∅;
                threads := [] ++ [AtCreateCall "k" fn false] |}).
  set (c := fresh (dom (heap s1))).
  set (s2 := {| calls := <["k" := c]> (calls s1);
                heap := <[c := mkCall 1 None None]> (heap s1);
                threads := <[0%nat := AtFn c "k" fn false]> (threads s1) |}).
  set (s3 := {| calls := calls s2; heap := heap s2;
                threads := <[0%nat := AtDelete c "k" false (Some "boom")]>
                             (threads s2) |}).
  set (s4 := {| calls := delete "k" (calls s3); heap := heap s3;
                threads := <[0%nat := AtDone c false (Some "boom")]>
                             (threads s3) |}).
  assert (Hreach : reachable s4).
  { eapply rtc_l; [apply (step_go NewSharedCalls "k" fn false)|].
    eapply rtc_l; [by apply (step_createCall_new s1 0 "k" fn false)|].
    eapply rtc_l; [by apply (step_fn_panics s2 0 c "k" fn false "boom")|].
    eapply rtc_l; [by apply (step_delete s3 0 c "k" false (Some "boom"))|].
    apply rtc_refl. }
  exists s4, c. split; [exact Hreach|]. split; [reflexivity|].
  destruct (key_deleted_before_done s4 Hreach) as [Hdone _].
  apply (Hdone 0%nat c false (Some "boom")). reflexivity.
Defined.

End SyncxSpec.

(** ** [sort.Search] *)

Module SortFacts.
Import Go GoFacts Sort.

(** The invariant of the standard library's loop: [f(i-1) == false] and
    [f(j) == true], wherever those indices are inside [[0, n)]. *)
Lemma search_loop_spec (f : Z → option bool) n fuel i j :
  0 ≤ i ≤ j → j ≤ n → j - i ≤ Z.of_nat fuel →
  (∀ p, 0 ≤ p < n → is_Some (f p)) →
  ∃ r, search_loop fuel f i j = Some r ∧ i ≤ r ≤ j ∧
       (r = i ∨ f (r - 1) = Some false) ∧ (r = j ∨ f r = Some true).
Proof.
  intros Hij Hjn Hfuel Hf. revert i j Hij Hjn Hfuel.
  induction fuel as [|fuel IH]; intros i j Hij Hjn Hfuel; simpl.
  - exists i. split; [done|]. split; [lia|]. split; [by left|]. left. lia.
  - case_decide as Hlt.
    + rewrite Z.shiftr_div_pow2 by lia. change (2 ^ 1) with 2.
      set (h := (i + j) `div` 2).
      assert (i ≤ h < j) as Hh.
      { subst h. split.
        - apply Z.div_le_lower_bound; lia.
        - apply Z.div_lt_upper_bound; lia. }
      destruct (Hf h) as [b Hb]; [lia|]. rewrite Hb. simpl.
      destruct b; simpl.
      * destruct (IH i h) as (r & Hr & Hrange & Hlo & Hhi); [lia..|].
        exists r. split; [done|]. split; [lia|]. split; [done|].
        right. by destruct Hhi as [->|?].
      * destruct (IH (h + 1) j) as (r & Hr & Hrange & Hlo & Hhi); [lia..|].
        exists r. split; [done|]. split; [lia|]. split; [|done].
        right. destruct Hlo as [->|?]; [|done].
        by replace (h + 1 - 1) with h by lia.
    + exists i. split; [done|]. split; [lia|]. split; [by left|]. left. lia.
Qed.

Lemma Search_spec (f : Z → option bool) n :
  0 ≤ n → (∀ p, 0 ≤ p < n → is_Some (f p)) →
  ∃ r, Search n f = Some r ∧ 0 ≤ r ≤ n ∧
       (r = 0 ∨ f (r - 1) = Some false) ∧ (r = n ∨ f r = Some true).
Proof.
  intros Hn Hf. unfold Search. apply (search_loop_spec f n); [lia..|done].
Qed.

Lemma Slice_Permutation ks : Slice ks ≡ₚ ks.
Proof. apply merge_sort_Permutation. Qed.

Lemma Slice_sorted ks : StronglySorted N.le (Slice ks).
Proof. apply StronglySorted_merge_sort; apply _. Qed.

(** In a sorted slice, earlier is smaller. *)
Lemma sorted_lookup_le (ks : list N) p q a b :
  StronglySorted N.le ks → (p ≤ q)%nat →
  ks !! p = Some a → ks !! q = Some b → (a ≤ b)%N.
Proof.
  intros Hs Hpq Hp Hq. destruct (decide (p = q)) as [->|Hne].
  - rewrite Hp in Hq. injection Hq as ->. done.
  - rewrite <- (take_drop q ks) in Hs.
    eapply (StronglySorted_app_1_elem_of _ _ _ a b Hs).
    + apply list_elem_of_lookup. exists p. rewrite lookup_take_lt by lia. done.
    + apply list_elem_of_lookup. exists 0%nat. rewrite lookup_drop.
      by rewrite Nat.add_0_r.
Qed.

Lemma sorted_delete (ks : list N) i :
  StronglySorted N.le ks → StronglySorted N.le (delete i ks).
Proof.
  intros Hs. rewrite delete_take_drop.
  rewrite <- (take_drop i ks) in Hs.
  apply StronglySorted_app in Hs as (Hle & H1 & H2).
  apply StronglySorted_app_2; [|done|].
  - intros x1 x2 Hx1 Hx2. apply Hle; [done|].
    apply list_elem_of_lookup in Hx2 as [k Hk]. rewrite lookup_drop in Hk.
    apply list_elem_of_lookup. exists (S k). rewrite lookup_drop.
    by replace (i + S k)%nat with (S i + k)%nat by lia.
  - rewrite <- (take_drop 1 (drop i ks)) in H2.
    apply StronglySorted_app_1_r in H2. rewrite drop_drop in H2.
    by replace (S i) with (i + 1)%nat by lia.
Qed.

End SortFacts.

(** ** The consistent hash ring *)

Module HashFacts.
Import Go GoFacts Sort SortFacts Hash.

Section Ring.
Context {node : Type}.
Variable repr : node → string.
Implicit Types (h : ConsistentHash (node := node)) (n : node) (r : string).

Abbreviation keeps r := (λ x : node, repr x ≠ r).

Lemma seqZ_snoc i : 0 ≤ i → seqZ 0 (i + 1) = seqZ 0 i ++ [i].
Proof.
  intros Hi. replace (i + 1) with (Z.of_nat (S (Z.to_nat i))) by lia.
  by rewrite seqZ_S, Z2Nat.id by lia.
Qed.

Lemma elem_of_bucket h hash x :
  x ∈ bucket h hash ↔ ∃ b, ring h !! hash = Some b ∧ x ∈ b.
Proof.
  unfold bucket. destruct (ring h !! hash) as [b|]; simpl.
  - split; [by exists b|]. by intros (b' & [= <-] & ?).
  - split; [by intros ?%elem_of_nil|]. by intros (b' & ? & _).
Qed.

Lemma bucket_removeRingNode h hash r hash' :
  bucket (removeRingNode repr h hash r) hash'
  = if decide (hash' = hash) then filter (keeps r) (bucket h hash)
    else bucket h hash'.
Proof.
  unfold removeRingNode, bucket.
  destruct (ring h !! hash) as [b|] eqn:Hb; simpl.
  - destruct (decide (0 < Z.of_nat (length (filter (keeps r) b)))) as [Hlen|Hlen];
      simpl; case_decide as Heq; subst.
    + by rewrite lookup_insert_eq.
    + by rewrite lookup_insert_ne.
    + rewrite lookup_delete_eq. simpl.
      destruct (filter (keeps r) b); [done|]. simpl in Hlen. lia.
    + by rewrite lookup_delete_ne.
  - case_decide as Heq; subst; [|done]. by rewrite Hb.
Qed.

Lemma removeRingNode_fields h hash r :
  hashFunc (removeRingNode repr h hash r) = hashFunc h ∧
  replicas (removeRingNode repr h hash r) = replicas h ∧
  keys (removeRingNode repr h hash r) = keys h ∧
  nodes (removeRingNode repr h hash r) = nodes h.
Proof.
  unfold removeRingNode. destruct (ring h !! hash); [|done].
  by case_decide.
Qed.

(** The search in [Remove] never panics; on sorted keys that hold the hash
    it lands on an occurrence of the hash. *)
Lemma searchKeys_spec (ks : list N) hash :
  ∃ idx, searchKeys ks hash = Some idx ∧ 0 ≤ idx ≤ Z.of_nat (length ks) ∧
         (StronglySorted N.le ks → hash ∈ ks →
          ks !! Z.to_nat idx = Some hash).
Proof.
  set (len := Z.of_nat (length ks)).
  set (f := λ i, k ← index ks i; Some (bool_decide (hash ≤ k)%N)).
  destruct (Search_spec f len) as (idx & Hs & Hrange & Hlo & Hhi); [lia| |].
  { intros p Hp. unfold f. destruct (index_lt ks p Hp) as [k ->]. by eexists. }
  exists idx. split; [done|]. split; [done|]. intros Hsorted Hin.
  apply list_elem_of_lookup in Hin as [p Hp].
  pose proof (lookup_lt_Some _ _ _ Hp) as Hplen.
  assert (idx ≤ Z.of_nat p) as Hle.
  { destruct Hlo as [->|Hlo]; [lia|].
    destruct (decide (idx ≤ Z.of_nat p)) as [|Hgt]; [done|]. exfalso.
    unfold f in Hlo. destruct (index ks (idx - 1)) as [k|] eqn:Hk; [|done].
    simpl in Hlo. injection Hlo as Hlo. apply bool_decide_eq_false in Hlo.
    unfold index in Hk. case_decide; [|done].
    pose proof (sorted_lookup_le ks p (Z.to_nat (idx - 1)) hash k Hsorted).
    apply Hlo. apply H0; [lia|done..]. }
  destruct Hhi as [->|Hhi]; [subst len; lia|].
  unfold f in Hhi. destruct (index ks idx) as [k|] eqn:Hk; [|done].
  simpl in Hhi. injection Hhi as Hhi. apply bool_decide_eq_true in Hhi.
  unfold index in Hk. case_decide; [|done]. rewrite Hk. f_equal.
  pose proof (sorted_lookup_le ks (Z.to_nat idx) p k hash Hsorted) as Hkp.
  apply N.le_antisymm; [|done]. apply Hkp; [lia|done..].
Qed.

(** One round of [Remove]'s loop. *)
Lemma removeReplica_spec r i h :
  ∃ h', removeReplica repr r i h = Some h' ∧
        hashFunc h' = hashFunc h ∧ replicas h' = replicas h ∧
        nodes h' = nodes h ∧
        (keys h' = keys h ∨ ∃ idx, keys h' = delete idx (keys h)) ∧
        (StronglySorted N.le (keys h) → vhash h r i ∈ keys h →
         ∃ idx, keys h !! idx = Some (vhash h r i) ∧
                keys h' = delete idx (keys h)) ∧
        ∀ hash, bucket h' hash
                = if decide (hash = vhash h r i)
                  then filter (keeps r) (bucket h hash) else bucket h hash.
Proof.
  unfold removeReplica.
  destruct (searchKeys_spec (keys h) (vhash h r i)) as (idx & -> & Hidx & Hfound).
  simpl. eexists. split; [done|].
  set (h1 := if decide (idx < Z.of_nat (length (keys h))) then _ else h).
  destruct (removeRingNode_fields h1 (vhash h r i) r) as (-> & -> & -> & ->).
  assert (hashFunc h1 = hashFunc h ∧ replicas h1 = replicas h ∧
          nodes h1 = nodes h ∧ ring h1 = ring h) as (Hf & Hr & Hn & Hring).
  { subst h1. by case_decide. }
  assert (keys h1 = if decide (idx < Z.of_nat (length (keys h)))
                    then delete (Z.to_nat idx) (keys h) else keys h) as Hk.
  { subst h1. case_decide; [|done]. simpl. rewrite delete_take_drop.
    by replace (Z.to_nat (idx + 1)) with (S (Z.to_nat idx)) by lia. }
  do 3 (split; [done|]). split; [|split].
  - rewrite Hk. case_decide; [right; by eexists|by left].
  - intros Hs Hin. specialize (Hfound Hs Hin). exists (Z.to_nat idx).
    split; [done|]. rewrite Hk. apply lookup_lt_Some in Hfound.
    case_decide; [done|lia].
  - intros hash. rewrite bucket_removeRingNode.
    destruct (decide (hash = vhash h r i)) as [->|?];
      unfold bucket; by rewrite Hring.
Qed.

Lemma filter_keeps_idemp r (b : list node) :
  filter (keeps r) (filter (keeps r) b) = filter (keeps r) b.
Proof.
  induction b as [|x b IH]; [done|].
  rewrite (filter_cons _ x b). case_decide; [|done].
  rewrite filter_cons. rewrite decide_True by done. by rewrite IH.
Qed.

Lemma filter_keeps_id r (b : list node) :
  (∀ x, x ∈ b → repr x ≠ r) → filter (keeps r) b = b.
Proof.
  induction b as [|x b IH]; [done|]. intros Hall.
  rewrite filter_cons, decide_True by (apply Hall; left).
  f_equal. apply IH. intros y Hy. apply Hall. by right.
Qed.

(** The loop of [Remove], on any ring, runs to its end. *)
Lemma Remove_loop r h m :
  0 ≤ m →
  ∃ h', for_range 0 m (removeReplica repr r) h = Some h' ∧
        removed_upto repr r h m h'.
Proof.
  intros Hm. apply (for_range_inv (removed_upto repr r h)); [done| |].
  - do 4 (split; [done|]). intros hash. rewrite decide_False; [done|].
    by intros ?%elem_of_nil.
  - intros i h1 Hi (Hf & Hr & Hn & Hk & Hb).
    destruct (removeReplica_spec r i h1)
      as (h2 & -> & Hf2 & Hr2 & Hn2 & Hk2 & _ & Hb2).
    exists h2. split; [done|]. split; [congruence|]. split; [congruence|].
    split; [congruence|]. split.
    + destruct Hk2 as [->|[idx ->]]; [done|].
      etrans; [apply sublist_delete|done].
    + intros hash. rewrite Hb2, !Hb.
      assert (vhash h1 r i = vhash h r i) as -> by (unfold vhash; by rewrite Hf).
      assert (hash ∈ (vhash h r <$> seqZ 0 (i + 1)) ↔
              hash ∈ (vhash h r <$> seqZ 0 i) ∨ hash = vhash h r i) as Hmem.
      { rewrite seqZ_snoc, fmap_app, elem_of_app by lia. simpl.
        by rewrite list_elem_of_singleton. }
      destruct (decide (hash = vhash h r i)) as [Heq|Hne];
        destruct (decide (hash ∈ (vhash h r <$> seqZ 0 i))) as [Hin|Hin];
        destruct (decide (hash ∈ (vhash h r <$> seqZ 0 (i + 1)))) as [Hin'|Hin'];
        try done; try (exfalso; tauto).
      apply filter_keeps_idemp.
Qed.

(** [Remove] on a ring whose buckets are placed and listed: it returns,
    every bucket loses the nodes known as [repr n] and nothing else, the
    node set loses [repr n], and keys only go. *)
Lemma Remove_spec h n :
  placed repr h → listed repr h →
  ∃ h0, Remove repr h n = Some h0 ∧
        hashFunc h0 = hashFunc h ∧ replicas h0 = replicas h ∧
        nodes h0 = nodes h ∖ {[repr n]} ∧
        keys h0 `sublist_of` keys h ∧
        ∀ hash, bucket h0 hash = filter (keeps (repr n)) (bucket h hash).
Proof.
  intros Hplaced Hlisted. unfold Remove, containsNode.
  destruct (decide (repr n ∈ nodes h)) as [Hin|Hnin].
  - rewrite bool_decide_eq_true_2 by done. simpl.
    assert (∃ h', for_range 0 (replicas h) (removeReplica repr (repr n)) h
                  = Some h' ∧
                  removed_upto repr (repr n) h (replicas h) h')
      as (h' & -> & Hf & Hr & Hn & Hk & Hb).
    { destruct (decide (0 ≤ replicas h)) as [Hpos|Hneg].
      - by apply Remove_loop.
      - exists h. rewrite for_range_empty by lia. split; [done|].
        do 4 (split; [done|]). intros hash. rewrite seqZ_nil by lia.
        rewrite decide_False; [done|]. by intros ?%elem_of_nil. }
    simpl. eexists. split; [done|]. simpl. do 2 (split; [done|]).
    split; [by rewrite Hn|]. split; [done|].
    intros hash. unfold bucket at 1. simpl. fold (bucket h' hash).
    rewrite Hb.
    destruct (decide (hash ∈ vhash h (repr n) <$> seqZ 0 (replicas h)))
      as [Hvis|Hvis]; [done|].
    symmetry. apply filter_keeps_id. intros x Hx Hrepr.
    destruct (Hplaced hash x Hx) as (i & Hi & ->). apply Hvis.
    rewrite Hrepr. apply list_elem_of_fmap. exists i. split; [done|].
    apply elem_of_seqZ. lia.
  - rewrite bool_decide_eq_false_2 by done. simpl.
    exists h. split; [done|]. do 2 (split; [done|]).
    split; [|split; [done|]].
    { apply set_eq. intros y. rewrite elem_of_difference, elem_of_singleton.
      split; [|tauto]. intros Hy. split; [done|]. by intros ->. }
    intros hash. symmetry. apply filter_keeps_id. intros x Hx Hrepr.
    apply Hnin. rewrite <- Hrepr. by eapply Hlisted.
Qed.

(** On sorted keys every round of [Remove]'s loop finds the hash it looks
    for, as long as the keys hold it: if the keys are [K0] and the hashes
    of all the rounds, [K0] is what the loop leaves. *)
Lemma Remove_loop_exact r h K0 :
  0 ≤ replicas h →
  StronglySorted N.le (keys h) →
  keys h ≡ₚ K0 ++ (vhash h r <$> seqZ 0 (replicas h)) →
  ∃ h', for_range 0 (replicas h) (removeReplica repr r) h = Some h' ∧
        keys h' ≡ₚ K0.
Proof.
  intros Hpos Hsorted Hperm.
  destruct (for_range_inv
              (λ i h', hashFunc h' = hashFunc h ∧
                       StronglySorted N.le (keys h') ∧
                       keys h' ≡ₚ K0 ++ (vhash h r <$>
                                           seqZ i (replicas h - i)))
              0 (replicas h) (removeReplica repr r) h)
    as (h' & Hloop & _ & _ & Hk); [done| | |].
  - split; [done|]. split; [done|]. by rewrite Z.sub_0_r.
  - intros i h1 Hi (Hf & Hs & Hp).
    destruct (removeReplica_spec r i h1)
      as (h2 & -> & Hf2 & _ & _ & _ & Hexact & _).
    exists h2. split; [done|]. split; [congruence|].
    assert (vhash h1 r i = vhash h r i) as Hv by (unfold vhash; by rewrite Hf).
    rewrite seqZ_cons in Hp by lia. rewrite fmap_cons in Hp.
    replace (Z.succ i) with (i + 1) in Hp by lia.
    replace (Z.pred (replicas h - i)) with (replicas h - (i + 1)) in Hp by lia.
    destruct Hexact as (idx & Hidx & ->); [done| |].
    { rewrite Hp, Hv. apply elem_of_app. right. left. }
    split; [by apply sorted_delete|].
    apply delete_Permutation in Hidx. rewrite Hidx, Hv in Hp.
    rewrite <- Permutation_middle in Hp. by apply Permutation_cons_inv in Hp.
  - exists h'. split; [done|].
    by rewrite Z.sub_diag, seqZ_nil, app_nil_r in Hk by lia.
Qed.

Lemma Add_loop n h0 m :
  ∃ h', for_range 0 m (addReplica n (repr n)) h0 = Some h' ∧
        added_upto repr n h0 m h'.
Proof.
  destruct (decide (0 ≤ m)) as [Hm|Hm].
  - apply (for_range_inv (added_upto repr n h0)); [done| |].
    + do 3 (split; [done|]). split; [by rewrite app_nil_r|].
      intros hash. by rewrite app_nil_r.
    + intros i h1 Hi (Hf & Hr & Hn & Hk & Hb). eexists. split; [done|].
      assert (vhash h1 (repr n) i = vhash h0 (repr n) i) as Hv
        by (unfold vhash; by rewrite Hf).
      do 3 (split; [done|]). simpl. rewrite Hv.
      rewrite seqZ_snoc, fmap_app by lia. simpl. split.
      * by rewrite Hk, app_assoc.
      * intros hash. unfold bucket at 1. simpl.
        fold (bucket h1 (vhash h0 (repr n) i)).
        rewrite filter_app, fmap_app, app_assoc, <- Hb.
        rewrite filter_cons, filter_nil.
        destruct (decide (hash = vhash h0 (repr n) i)) as [->|Hne].
        -- rewrite lookup_insert_eq, decide_True by done. done.
        -- rewrite lookup_insert_ne, decide_False by done.
           by rewrite app_nil_r.
  - exists h0. rewrite for_range_empty by lia. split; [done|].
    do 3 (split; [done|]). rewrite seqZ_nil by lia.
    split; [by rewrite app_nil_r|]. intros hash. by rewrite app_nil_r.
Qed.

(** [AddWithReplicas] on a ring whose buckets are placed and listed. *)
Lemma AddWithReplicas_spec h n reps :
  placed repr h → listed repr h →
  let eff := Z.min reps (replicas h) in
  ∃ h0 h', Remove repr h n = Some h0 ∧
           AddWithReplicas repr h n reps = Some h' ∧
           hashFunc h' = hashFunc h ∧ replicas h' = replicas h ∧
           nodes h' = {[repr n]} ∪ nodes h0 ∧
           keys h' = Slice (keys h0 ++ (vhash h (repr n) <$> seqZ 0 eff)) ∧
           ∀ hash, bucket h' hash
                   = bucket h0 hash
                     ++ ((λ _, n) <$> filter (λ j, vhash h (repr n) j = hash)
                                        (seqZ 0 eff)).
Proof.
  intros Hplaced Hlisted eff.
  destruct (Remove_spec h n Hplaced Hlisted)
    as (h0 & Hrem & Hf & Hr & Hn & Hk & Hb).
  exists h0. unfold AddWithReplicas. rewrite Hrem. simpl.
  assert ((if decide (reps > replicas h0) then replicas h0 else reps) = eff)
    as ->.
  { subst eff. rewrite Hr. case_decide; lia. }
  destruct (Add_loop n (addNode h0 (repr n)) eff)
    as (h1 & -> & Hf1 & Hr1 & Hn1 & Hk1 & Hb1).
  simpl. eexists. split; [done|]. split; [done|].
  unfold vhash in *. simpl in *. rewrite Hf in *.
  split; [congruence|]. split; [congruence|]. split; [done|]. split.
  - by rewrite Hk1.
  - intros hash. unfold bucket at 1. simpl. fold (bucket h1 hash).
    by rewrite Hb1.
Qed.

End Ring.

End HashFacts.

(** ** The consistent hash ring: adding and removing nodes *)

Module HashSpec.
Import Go GoFacts Sort SortFacts Hash HashFacts.

Section Ring.
Context {node : Type}.
Variable repr : node → string.
Implicit Types (h : ConsistentHash (node := node)) (n : node).

Lemma sorted_sublist (l1 l2 : list N) :
  l1 `sublist_of` l2 → StronglySorted N.le l2 → StronglySorted N.le l1.
Proof.
  induction 1 as [|x l1 l2 Hsub IH|x l1 l2 Hsub IH]; intros Hs.
  - constructor.
  - apply StronglySorted_inv in Hs as [Hs Hall]. constructor; [by apply IH|].
    rewrite Forall_forall in *. intros y Hy. apply Hall.
    by eapply elem_of_sublist.
  - apply StronglySorted_inv in Hs as [Hs _]. by apply IH.
Qed.

Lemma Remove_keeps_inv h n h0 :
  placed repr h → listed repr h → Remove repr h n = Some h0 →
  placed repr h0 ∧ listed repr h0 ∧ absent repr h0 (repr n) ∧
  repr n ∉ nodes h0.
Proof.
  intros Hp Hl Hrem.
  destruct (Remove_spec repr h n Hp Hl) as (h0' & Hrem' & Hf & Hr & Hn & _ & Hb).
  rewrite Hrem in Hrem'. injection Hrem' as <-.
  assert (∀ hash x, x ∈ bucket h0 hash →
                    x ∈ bucket h hash ∧ repr x ≠ repr n) as Hin.
  { intros hash x. rewrite Hb, list_elem_of_filter. tauto. }
  split; [|split; [|split]].
  - intros hash x [Hx _]%Hin. destruct (Hp hash x Hx) as (i & Hi & ->).
    exists i. unfold vhash. by rewrite Hf, Hr.
  - intros hash x [Hx Hne]%Hin. rewrite Hn.
    apply elem_of_difference. split; [by eapply Hl|].
    by rewrite elem_of_singleton.
  - intros hash x [_ Hne]%Hin. done.
  - rewrite Hn. rewrite elem_of_difference, elem_of_singleton. tauto.
Qed.

Variable Hash : string → N.

(** What holds of every ring a program can hold. *)
Lemma reachable_inv h :
  reachable repr Hash h →
  placed repr h ∧ listed repr h ∧ StronglySorted N.le (keys h) ∧
  minReplicas ≤ replicas h.
Proof.
  induction 1 as [reps fn|h n reps h' _ (Hp & Hl & Hs & Hr) Hadd
                 |h n h' _ (Hp & Hl & Hs & Hr) Hrem].
  - split; [|split; [|split]].
    + by intros hash x ?%elem_of_nil.
    + by intros hash x ?%elem_of_nil.
    + constructor.
    + simpl. case_decide; lia.
  - destruct (AddWithReplicas_spec repr h n reps Hp Hl)
      as (h0 & h1 & Hrem & Hadd' & Hf1 & Hr1 & Hn1 & Hk1 & Hb1).
    rewrite Hadd in Hadd'. injection Hadd' as <-.
    destruct (Remove_keeps_inv h n h0 Hp Hl Hrem) as (Hp0 & Hl0 & _ & _).
    destruct (Remove_spec repr h n Hp Hl) as (h0' & Hrem' & Hf0 & Hr0 & _).
    rewrite Hrem in Hrem'. injection Hrem' as <-.
    split; [|split; [|split]].
    + intros hash x. rewrite Hb1, elem_of_app, list_elem_of_fmap.
      intros [Hx|(j & -> & Hj)].
      * destruct (Hp0 hash x Hx) as (i & Hi & ->). exists i.
        unfold vhash. rewrite Hf1, Hr1, <- Hf0, <- Hr0. done.
      * apply list_elem_of_filter in Hj as [<- Hj%elem_of_seqZ].
        exists j. split; [lia|]. unfold vhash. by rewrite Hf1.
    + intros hash x. rewrite Hb1, elem_of_app, list_elem_of_fmap, Hn1.
      intros [Hx|(j & -> & _)]; apply elem_of_union.
      * right. by eapply Hl0.
      * left. by apply elem_of_singleton.
    + rewrite Hk1. apply Slice_sorted.
    + lia.
  - destruct (Remove_keeps_inv h n h' Hp Hl Hrem) as (Hp' & Hl' & _ & _).
    destruct (Remove_spec repr h n Hp Hl) as (h0 & Hrem' & _ & Hr0 & _ & Hk & _).
    rewrite Hrem in Hrem'. injection Hrem' as <-.
    split; [done|]. split; [done|]. split; [by eapply sorted_sublist|lia].
Qed.

(** C5, as the code has it.  [AddWithReplicas] first removes the node:
    after that no bucket holds it and the node set does not list it.  Then
    it inserts [min(replicas, default_replicas)] virtual positions, never
    more than the ring's default and none at all when [replicas <= 0]:
    one key and one entry in the bucket of that key for each index below
    that count, the keys kept sorted.  The node is listed in the node set
    in every case. *)
Theorem AddWithReplicas_caps_replicas h n reps :
  reachable repr Hash h →
  let eff := Z.min reps (replicas h) in
  ∃ h0 h',
    Remove repr h n = Some h0 ∧
    AddWithReplicas repr h n reps = Some h' ∧
    absent repr h0 (repr n) ∧ (repr n ∉ nodes h0) ∧
    eff ≤ replicas h ∧
    keys h' ≡ₚ keys h0 ++ (vhash h (repr n) <$> seqZ 0 eff) ∧
    StronglySorted N.le (keys h') ∧
    length (keys h') = (length (keys h0) + Z.to_nat eff)%nat ∧
    (∀ hash, bucket h' hash
             = bucket h0 hash
               ++ ((λ _, n) <$> filter (λ j, vhash h (repr n) j = hash)
                                  (seqZ 0 eff))) ∧
    nodes h' = {[repr n]} ∪ nodes h0 ∧
    (reps ≤ 0 → keys h' ≡ₚ keys h0 ∧ ∀ hash, bucket h' hash = bucket h0 hash).
Proof.
  intros (Hp & Hl & _ & _)%reachable_inv eff.
  destruct (AddWithReplicas_spec repr h n reps Hp Hl)
    as (h0 & h' & Hrem & Hadd & Hf & Hr & Hn & Hk & Hb).
  fold eff in Hk, Hb.
  destruct (Remove_keeps_inv h n h0 Hp Hl Hrem) as (_ & _ & Habs & Hnin).
  exists h0, h'. do 4 (split; [done|]). split; [lia|].
  assert (keys h' ≡ₚ keys h0 ++ (vhash h (repr n) <$> seqZ 0 eff)) as Hperm.
  { rewrite Hk. apply Slice_Permutation. }
  split; [done|]. split; [rewrite Hk; apply Slice_sorted|]. split.
  { rewrite (Permutation_length Hperm).
    by rewrite length_app, length_fmap, length_seqZ. }
  do 2 (split; [done|]). intros Hle.
  rewrite seqZ_nil in Hperm by lia. rewrite app_nil_r in Hperm.
  split; [done|]. intros hash. rewrite Hb, seqZ_nil by lia.
  by rewrite app_nil_r.
Qed.

(** C8. [Add(n); Remove(n)] on a ring whose keys held no hash of a virtual
    node of [n]: both calls return; afterwards no key is the hash of a
    virtual node of [n], no bucket holds a node known as [n], and the node
    set does not list [n]. *)
Theorem Add_Remove_leaves_nothing h n :
  reachable repr Hash h →
  (∀ k, k ∈ keys h → k ∉ vnode_hashes h (repr n)) →
  ∃ h1 h2,
    Add repr h n = Some h1 ∧ Remove repr h1 n = Some h2 ∧
    vnode_hashes h2 (repr n) = vnode_hashes h (repr n) ∧
    (∀ k, k ∈ keys h2 → k ∉ vnode_hashes h2 (repr n)) ∧
    absent repr h2 (repr n) ∧
    repr n ∉ nodes h2.
Proof.
  intros Hreach Hfree.
  pose proof (reachable_inv h Hreach) as (Hp & Hl & _ & Hr).
  destruct (AddWithReplicas_spec repr h n (replicas h) Hp Hl)
    as (h0 & h1 & Hrem0 & Hadd & Hf1 & Hr1 & Hn1 & Hk1 & _).
  rewrite Z.min_id in Hk1.
  destruct (Remove_spec repr h n Hp Hl) as (h0' & Hrem0' & _ & _ & _ & Hk0 & _).
  rewrite Hrem0 in Hrem0'. injection Hrem0' as <-.
  pose proof (reach_add repr Hash h n (replicas h) h1 Hreach Hadd) as Hreach1.
  pose proof (reachable_inv h1 Hreach1) as (Hp1 & Hl1 & Hs1 & _).
  destruct (Remove_spec repr h1 n Hp1 Hl1)
    as (h2 & Hrem & Hf2 & Hr2 & _ & _ & _).
  destruct (Remove_keeps_inv h1 n h2 Hp1 Hl1 Hrem) as (_ & _ & Habs & Hnin).
  exists h1, h2. split; [exact Hadd|]. split; [exact Hrem|].
  assert (vnode_hashes h2 (repr n) = vnode_hashes h (repr n)) as Hvn.
  { unfold vnode_hashes, vhash. by rewrite Hf2, Hr2, Hf1, Hr1. }
  split; [done|]. split; [|done].
  (* the keys: [Remove] runs its loop, on the sorted keys of [h1] *)
  unfold Remove, containsNode in Hrem.
  rewrite bool_decide_eq_true_2 in Hrem
    by (rewrite Hn1; apply elem_of_union; left; by apply elem_of_singleton).
  simpl in Hrem.
  destruct (Remove_loop_exact repr (repr n) h1 (keys h0))
    as (h' & Hloop & Hperm); [unfold minReplicas in Hr; lia|done| |].
  { rewrite Hk1, Slice_Permutation. unfold vhash. by rewrite Hf1, Hr1. }
  rewrite Hloop in Hrem. injection Hrem as <-. simpl.
  intros k Hk. rewrite Hperm in Hk. rewrite Hvn. apply Hfree.
  by eapply elem_of_sublist.
Qed.

End Ring.

(** C5, as the specification has it, fails: asked for zero replicas the
    ring records the node and inserts no virtual position. *)
Lemma AddWithReplicas_zero_inserts_nothing :
  ∃ h', AddWithReplicas id sample_ring "n" 0 = Some h' ∧
        keys h' = [] ∧ ring h' = ∅ ∧ elements (nodes h') = ["n"].
Proof. eexists. split; [reflexivity|]. by vm_compute. Qed.

Lemma sample_ring_reachable : reachable id length_hash sample_ring.
Proof. apply reach_new. Qed.

Lemma AddWithReplicas_caps_replicas_witness :
  reachable id length_hash sample_ring ∧
  ∃ h', AddWithReplicas id sample_ring "n" 1000 = Some h' ∧
        length (keys h') = 100%nat.
Proof.
  split; [exact sample_ring_reachable|].
  destruct (AddWithReplicas_caps_replicas id length_hash sample_ring "n" 1000
              sample_ring_reachable)
    as (h0 & h' & Hrem & Hadd & _ & _ & _ & _ & _ & Hlen & _).
  exists h'. split; [exact Hadd|]. rewrite Hlen.
  vm_compute in Hrem. injection Hrem as <-. reflexivity.
Defined.

Lemma sample_ring_mmm_reachable : reachable id length_hash sample_ring_mmm.
Proof.
  apply (reach_add id length_hash sample_ring "mmm" 2);
    [exact sample_ring_reachable|]. by vm_compute.
Qed.

Lemma Add_Remove_leaves_nothing_witness :
  reachable id length_hash sample_ring_mmm ∧
  keys sample_ring_mmm = [4; 4]%N ∧
  (∀ k, k ∈ keys sample_ring_mmm → k ∉ vnode_hashes sample_ring_mmm "n") ∧
  ∃ h1 h2, Add id sample_ring_mmm "n" = Some h1 ∧
           Remove id h1 "n" = Some h2 ∧
           (∀ k, k ∈ keys h2 → k ∉ vnode_hashes h2 "n") ∧
           absent id h2 "n" ∧ "n" ∉ nodes h2.
Proof.
  assert (Hfree : ∀ k, k ∈ keys sample_ring_mmm →
                       k ∉ vnode_hashes sample_ring_mmm "n").
  { apply Forall_forall.
    destruct (decide (Forall (λ k : N, k ∉ vnode_hashes sample_ring_mmm "n")
                        (keys sample_ring_mmm))) as [Hyes|Hno] eqn:Hd;
      [exact Hyes|]. vm_compute in Hd. discriminate Hd. }
  split; [exact sample_ring_mmm_reachable|]. split; [reflexivity|].
  split; [exact Hfree|].
  destruct (Add_Remove_leaves_nothing id length_hash sample_ring_mmm "n"
              sample_ring_mmm_reachable Hfree)
    as (h1 & h2 & Hadd & Hrem & _ & Hkeys & Habs & Hnin).
  exists h1, h2. repeat split; assumption.
Defined.

End HashSpec.

(** ** More of the rolling window: idle time, rotation and [Reduce] *)

Module RollingWindowMore.
Import Go GoFacts Collection CollectionFacts RollingWindowSpec CollectionMore.

Lemma bucket_at_index rw p :
  wf rw → 0 ≤ p < size rw →
  index (buckets (win rw)) p = Some (bucket_at rw p).
Proof.
  intros [_ _ H3 _ _] Hp. unfold bucket_at.
  destruct (index_lt (buckets (win rw)) p) as [b ->]; [lia|done].
Qed.

(** The loop of [window.reduce], as a fold over positions. *)
Lemma iter_reduce_at {A} rw (fn : Bucket → A → A) start n lo acc :
  wf rw → 0 ≤ start + lo →
  iter n lo (λ i acc, p ← rem (start + i) (w_size (win rw));
                      b ← index (buckets (win rw)) p;
                      Some (fn b acc)) acc
  = Some (foldl (λ a p, fn (bucket_at rw p) a) acc
            ((λ i, (start + i) `mod` size rw) <$> seqZ lo (Z.of_nat n))).
Proof.
  intros Hwf. pose proof Hwf as [H1 H2 H3 H4 H5]. revert lo acc.
  induction n as [|n IH]; intros lo acc Hlo; [done|].
  rewrite seqZ_cons by lia.
  replace (Z.pred (Z.of_nat (S n))) with (Z.of_nat n) by lia.
  simpl. rewrite H2, rem_nonneg by lia. simpl.
  rewrite (bucket_at_index rw) by (done || by apply Z.mod_pos_bound; lia).
  simpl. rewrite <- H2. rewrite IH by lia. by rewrite H2.
Qed.

(** [Reduce] on a well-formed window: the callback folded over the buckets
    at the reported positions, in their order. *)
Lemma Reduce_fold_at {A} rw now sp (fn : Bucket → A → A) acc :
  wf rw → span rw now = Some sp →
  Reduce rw now fn acc
  = Some (foldl (λ a p, fn (bucket_at rw p) a) acc
            (reported_positions rw sp (reported_count rw sp))).
Proof.
  intros Hwf Hspan. pose proof Hwf as [H1 H2 H3 H4 H5].
  destruct (span_range rw now Hwf) as (sp' & Hspan' & Hsp).
  rewrite Hspan in Hspan'. injection Hspan' as <-.
  unfold Reduce. rewrite Hspan. simpl. fold (reported_count rw sp).
  set (diff := reported_count rw sp).
  destruct (decide (0 < diff)) as [Hpos|Hneg].
  - rewrite rem_nonneg by lia. simpl. unfold window_reduce, for_range.
    rewrite (iter_reduce_at rw fn); [|done|].
    + f_equal. f_equal. unfold reported_positions.
      rewrite Z2Nat.id by lia. replace (diff - 0) with diff by lia.
      apply list_fmap_ext. intros _ i _. by rewrite Zplus_mod_idemp_l.
    + pose proof (Z.mod_pos_bound (offset rw + sp + 1) (size rw)). lia.
  - unfold reported_positions. by rewrite seqZ_nil by lia.
Qed.

Lemma mod_add_self a n : (a + n) `mod` n = a `mod` n.
Proof. replace (a + n) with (a + 1 * n) by lia. apply Z_mod_plus_full. Qed.


Lemma foldl_ext_in {A B} (f g : A → B → A) (l : list B) a :
  (∀ x a, x ∈ l → f a x = g a x) → foldl f a l = foldl g a l.
Proof.
  revert a. induction l as [|x l IH]; intros a H; [done|]. simpl.
  rewrite H by left. apply IH. intros y b Hy. apply H. by right.
Qed.

Lemma foldl_id_in {A B} (f : A → B → A) (l : list B) a :
  (∀ x a, x ∈ l → f a x = a) → foldl f a l = a.
Proof.
  induction l as [|x l IH]; intros H; [done|]. simpl.
  rewrite H by left. apply IH. intros y b Hy. apply H. by right.
Qed.

(** Among the offsets [1 .. N] from the current bucket, the aged-out
    positions are those up to [sp]. *)
Lemma aged_offset rw sp m :
  wf rw → 1 ≤ m ≤ size rw →
  aged rw sp ((offset rw + m) `mod` size rw) ↔ m ≤ sp.
Proof.
  intros [H1 _ _ H4 _] Hm. unfold aged. split.
  - intros (j & Hj & Heq). destruct (decide (m ≤ sp)); [done|].
    destruct (mod_cases (offset rw + m) (size rw)) as [[? Hm']|[? Hm']];
      [lia|..];
      (destruct (mod_cases (offset rw + j) (size rw)) as [[? Hj']|[? Hj']];
       [lia|..]); rewrite Hm', Hj' in Heq; lia.
  - intros Hle. exists m. split; [lia|done].
Qed.

(** What [updateOffset] returns when it rotates. *)
Lemma updateOffset_rotates rw now_span now sp :
  wf rw → span rw now_span = Some sp → 0 < sp →
  ∃ rw1, updateOffset rw now_span now = Some rw1 ∧ wf rw1 ∧
         size rw1 = size rw ∧ interval rw1 = interval rw ∧
         ignoreCurrent rw1 = ignoreCurrent rw ∧
         offset rw1 = (offset rw + sp) `mod` size rw ∧
         lastTime rw1 = now - Z.rem (now - lastTime rw) (interval rw) ∧
         ∀ m, 1 ≤ m ≤ size rw →
              bucket_at rw1 ((offset rw + m) `mod` size rw)
              = if decide (m ≤ sp) then zeroBucket
                else bucket_at rw ((offset rw + m) `mod` size rw).
Proof.
  intros Hwf Hspan Hpos.
  destruct (span_range rw now_span Hwf) as (sp' & Hspan' & Hsp).
  rewrite Hspan in Hspan'. injection Hspan' as <-.
  unfold updateOffset. rewrite Hspan. simpl. rewrite decide_False by lia.
  destruct (rotate_spec rw sp now Hwf) as (w & -> & Hw); [lia| |].
  { destruct Hwf. lia. }
  assert (0 ≤ (offset rw + sp) `mod` size rw < size rw) as Hoff
    by (apply Z.mod_pos_bound; destruct Hwf; lia).
  eexists. split; [done|].
  assert (wf (rotated rw w ((offset rw + sp) `mod` size rw)
                (now - Z.rem (now - lastTime rw) (interval rw)))) as Hwf1
    by (by eapply rotated_wf).
  split; [done|]. do 5 (split; [done|]). intros m Hm.
  set (p := (offset rw + m) `mod` size rw).
  assert (0 ≤ p < size rw) as Hp
    by (apply Z.mod_pos_bound; destruct Hwf; lia).
  destruct Hw as (_ & _ & Hw).
  destruct (Hw p (bucket_at rw p) (bucket_at_index rw p Hwf Hp)) as [Hy Hn].
  pose proof (aged_offset rw sp m Hwf Hm) as Haged. fold p in Haged.
  unfold bucket_at at 1. simpl. case_decide.
  - by rewrite Hy by (by apply Haged).
  - rewrite Hn; [done|]. rewrite Haged. lia.
Qed.

(** After a rotation at [now], no interval has elapsed at [now]. *)
Lemma span_after_rotation rw rw1 now :
  wf rw → lastTime rw ≤ now → size rw1 = size rw →
  interval rw1 = interval rw →
  lastTime rw1 = now - Z.rem (now - lastTime rw) (interval rw) →
  span rw1 now = Some 0.
Proof.
  intros [H1 _ _ _ H5] Hnow Hs Hi Hl. unfold span, Timex.Since.
  rewrite Hi, Hl, Hs. rewrite Z.rem_mod_nonneg by lia.
  replace (now - (now - (now - lastTime rw) `mod` interval rw))
    with ((now - lastTime rw) `mod` interval rw) by lia.
  pose proof (Z.mod_pos_bound (now - lastTime rw) (interval rw) H5).
  rewrite div_nonneg, Z.div_small by lia. simpl.
  by rewrite decide_True by lia.
Qed.

(** X1.  Rotation is idempotent for one clock reading: a second
    [updateOffset] at the reading of the first finds no interval elapsed and
    leaves the window as the first left it. *)
Theorem updateOffset_idempotent rw now :
  wf rw → lastTime rw ≤ now →
  ∃ rw1, updateOffset rw now now = Some rw1 ∧
         span rw1 now = Some 0 ∧
         updateOffset rw1 now now = Some rw1.
Proof.
  intros Hwf Hnow.
  destruct (span_range rw now Hwf) as (sp & Hspan & Hsp).
  assert (∃ rw1, updateOffset rw now now = Some rw1 ∧ span rw1 now = Some 0)
    as (rw1 & Hupd & Hspan1).
  { destruct (decide (sp = 0)) as [->|Hne].
    - exists rw. split; [|done]. unfold updateOffset. by rewrite Hspan.
    - destruct (updateOffset_rotates rw now now sp Hwf Hspan)
        as (rw1 & Hupd & _ & Hs & Hi & _ & _ & Hl & _); [lia|].
      exists rw1. split; [done|]. by eapply span_after_rotation. }
  exists rw1. do 2 (split; [done|]). unfold updateOffset. by rewrite Hspan1.
Qed.

Lemma updateOffset_idempotent_witness :
  wf sample_window ∧ lastTime sample_window ≤ 1250 ∧
  ∃ rw1, updateOffset sample_window 1250 1250 = Some rw1 ∧
         offset rw1 = 1 ∧ lastTime rw1 = 1200 ∧
         updateOffset rw1 1250 1250 = Some rw1.
Proof.
  assert (Hle : lastTime sample_window ≤ 1250) by (simpl; lia).
  split; [exact sample_window_wf|]. split; [exact Hle|].
  destruct (updateOffset_idempotent sample_window 1250 sample_window_wf Hle)
    as (rw1 & Hupd & _ & Hagain).
  exists rw1. split; [exact Hupd|].
  vm_compute in Hupd. injection Hupd as <-.
  split; [reflexivity|]. split; [reflexivity|exact Hagain].
Defined.

(** X2.  An [Add] after the window has idled for [N] intervals or more
    starts from scratch: every bucket is reset and the current one holds the
    one value added; the offset is where it was. *)
Theorem Add_after_idle rw now_span now v :
  wf rw → size rw * interval rw ≤ now_span - lastTime rw →
  ∃ rw', Add rw now_span now v = Some rw' ∧
         offset rw' = offset rw ∧
         ∀ p, 0 ≤ p < size rw →
              bucket_at rw' p
              = if decide (p = offset rw) then Bucket_add v zeroBucket
                else zeroBucket.
Proof.
  intros Hwf Hidle. pose proof Hwf as [H1 H2 H3 H4 H5].
  assert (span rw now_span = Some (size rw)) as Hspan.
  { unfold span, Timex.Since. rewrite div_nonneg by nia. simpl.
    rewrite decide_False; [done|]. intros [_ Hlt].
    pose proof (Z.div_le_lower_bound (now_span - lastTime rw) (interval rw)
                  (size rw) H5). lia. }
  destruct (updateOffset_rotates rw now_span now (size rw) Hwf Hspan)
    as (rw1 & Hupd & Hwf1 & Hs1 & _ & _ & Ho1 & _ & Hb1); [lia|].
  assert (offset rw1 = offset rw) as Ho.
  { rewrite Ho1. rewrite mod_add_self. apply Z.mod_small. lia. }
  destruct (window_add_spec rw1 Hwf1) as (b & Hb & Hadd).
  unfold Add. rewrite Hupd. simpl. rewrite Hadd. simpl.
  eexists. split; [done|]. split; [done|]. intros p Hp.
  assert (bucket_at rw1 p = zeroBucket) as Hzero.
  { set (m := if decide (offset rw < p) then p - offset rw
              else p - offset rw + size rw).
    assert (1 ≤ m ≤ size rw) as Hm by (subst m; case_decide; lia).
    assert ((offset rw + m) `mod` size rw = p) as Hpm.
    { subst m. case_decide.
      - replace (offset rw + (p - offset rw)) with p by lia.
        apply Z.mod_small. lia.
      - replace (offset rw + (p - offset rw + size rw)) with (p + 1 * size rw)
          by lia.
        rewrite Z_mod_plus_full. apply Z.mod_small. lia. }
    specialize (Hb1 m Hm). rewrite Hpm in Hb1. rewrite Hb1.
    by rewrite decide_True by lia. }
  assert (b = zeroBucket) as ->.
  { rewrite (bucket_at_index rw1) in Hb by (done || lia).
    injection Hb as <-. rewrite Ho. specialize (Hb1 (size rw)).
    rewrite mod_add_self, Z.mod_small in Hb1 by lia.
    rewrite Hb1 by lia. by rewrite decide_True by lia. }
  unfold bucket_at. simpl. unfold index. rewrite decide_True by lia.
  rewrite Ho. destruct (decide (p = offset rw)) as [->|Hne].
  - rewrite list_lookup_insert_eq; [done|].
    destruct Hwf1 as [_ _ Hlen _ _]. lia.
  - rewrite list_lookup_insert_ne by lia.
    unfold bucket_at, index in Hzero. rewrite decide_True in Hzero by lia.
    destruct Hwf1 as [_ _ Hlen _ _].
    destruct (lookup_lt_is_Some_2 (buckets (win rw1)) (Z.to_nat p)) as [x Hx];
      [lia|]. rewrite Hx in *. simpl in *. by subst.
Qed.

Lemma Add_after_idle_witness :
  wf sample_window ∧
  size sample_window * interval sample_window
    ≤ 1400 - lastTime sample_window ∧
  ∃ rw', Add sample_window 1400 1405 (2 # 1) = Some rw' ∧
         buckets (win rw')
         = [zeroBucket; zeroBucket; zeroBucket;
            Bucket_add (2 # 1) zeroBucket].
Proof.
  assert (Hidle : size sample_window * interval sample_window
                    ≤ 1400 - lastTime sample_window) by (simpl; lia).
  split; [exact sample_window_wf|]. split; [exact Hidle|].
  destruct (Add_after_idle sample_window 1400 1405 (2 # 1)
              sample_window_wf Hidle) as (rw' & Hadd & _ & _).
  exists rw'. split; [exact Hadd|].
  vm_compute in Hadd. injection Hadd as <-. reflexivity.
Defined.

(** X3.  [Reduce] does not depend on whether the window has been rotated at
    the reading: for a callback that ignores empty buckets, it returns the
    same result on the window as [updateOffset] leaves it at that reading as
    on the window before. *)
Theorem Reduce_after_rotation {A} rw now (fn : Bucket → A → A) acc :
  wf rw → lastTime rw ≤ now → (∀ a, fn zeroBucket a = a) →
  ∃ rw1, updateOffset rw now now = Some rw1 ∧
         Reduce rw1 now fn acc = Reduce rw now fn acc.
Proof.
  intros Hwf Hnow Hzero. pose proof Hwf as [H1 H2 H3 H4 H5].
  destruct (span_range rw now Hwf) as (sp & Hspan & Hsp).
  destruct (decide (sp = 0)) as [->|Hne].
  { exists rw. split; [|done]. unfold updateOffset. by rewrite Hspan. }
  destruct (updateOffset_rotates rw now now sp Hwf Hspan)
    as (rw1 & Hupd & Hwf1 & Hs1 & Hi1 & Hig1 & Ho1 & Hl1 & Hb1); [lia|].
  exists rw1. split; [done|].
  pose proof (span_after_rotation rw rw1 now Hwf Hnow Hs1 Hi1 Hl1) as Hspan1.
  rewrite (Reduce_fold_at rw1 now 0), (Reduce_fold_at rw now sp) by done.
  f_equal. unfold reported_positions. rewrite !foldl_fmap.
  set (c1 := reported_count rw1 0).
  assert (reported_count rw sp = size rw - sp) as ->
    by (unfold reported_count; rewrite decide_False; [done|lia]).
  assert (size rw - sp ≤ c1 ≤ size rw) as Hc1
    by (subst c1; unfold reported_count; case_decide; lia).
  replace c1 with ((size rw - sp) + (c1 - (size rw - sp))) by lia.
  rewrite seqZ_app, foldl_app by lia. rewrite Hs1, Ho1.
  assert (∀ i, 0 ≤ i →
            ((offset rw + sp) `mod` size rw + 0 + 1 + i) `mod` size rw
            = (offset rw + (sp + 1 + i)) `mod` size rw) as Hpos.
  { intros i Hi.
    replace ((offset rw + sp) `mod` size rw + 0 + 1 + i)
      with ((offset rw + sp) `mod` size rw + (1 + i)) by lia.
    rewrite Zplus_mod_idemp_l. f_equal. lia. }
  rewrite foldl_id_in.
  - apply foldl_ext_in. intros i a Hi. apply elem_of_seqZ in Hi.
    rewrite Hpos by lia.
    replace (offset rw + sp + 1 + i) with (offset rw + (sp + 1 + i)) by lia.
    rewrite Hb1 by lia. by rewrite decide_False by lia.
  - intros i a Hi. apply elem_of_seqZ in Hi. rewrite Hpos by lia.
    replace (offset rw + (sp + 1 + i))
      with (offset rw + (sp + 1 + i - size rw) + size rw) by lia.
    rewrite mod_add_self, Hb1 by lia. by rewrite decide_True by lia.
Qed.

Lemma Reduce_after_rotation_witness :
  wf sample_window ∧ lastTime sample_window ≤ 1250 ∧
  ∃ rw1, updateOffset sample_window 1250 1250 = Some rw1 ∧
         buckets (win rw1)
         = [zeroBucket; zeroBucket; mkBucket 0 0; mkBucket 3 3] ∧
         Reduce rw1 1250 (λ b a, Qplus (Sum b) a) 0%Q
         = Reduce sample_window 1250 (λ b a, Qplus (Sum b) a) 0%Q.
Proof.
  assert (Hle : lastTime sample_window ≤ 1250) by (simpl; lia).
  assert (Hz : ∀ a : Q, Qplus (Sum zeroBucket) a = a)
    by (intros [n d]; unfold Qplus; simpl; f_equal; lia).
  split; [exact sample_window_wf|]. split; [exact Hle|].
  destruct (Reduce_after_rotation sample_window 1250
              (λ b a, Qplus (Sum b) a) 0%Q sample_window_wf Hle Hz)
    as (rw1 & Hupd & Hred).
  exists rw1. split; [exact Hupd|].
  vm_compute in Hupd. injection Hupd as <-.
  split; [reflexivity|exact Hred].
Defined.







(** A property of buckets that holds of the empty bucket and survives the
    addition of [v] survives [Add]. *)
Lemma Add_Forall (P : Bucket → Prop) rw now_span now v rw' :
  wf rw → P zeroBucket → (∀ b, P b → P (Bucket_add v b)) →
  Forall P (buckets (win rw)) → Add rw now_span now v = Some rw' →
  Forall P (buckets (win rw')).
Proof.
  intros Hwf Hz Hadd Hall HAdd.
  destruct (span_range rw now_span Hwf) as (sp & Hspan & Hsp).
  destruct (updateOffset_spec rw now_span now sp Hwf Hspan)
    as (_ & rw1 & Hupd & Hwf1 & Hsame & Hrot).
  assert (Forall P (buckets (win rw1))) as Hall1.
  { destruct (decide (sp = 0)) as [Hz0|Hnz]; [by rewrite (Hsame Hz0)|].
    destruct Hrot as ((_ & Hlen & Hw) & _); [lia|].
    apply Forall_lookup. intros i x Hx.
    destruct (lookup_lt_is_Some_2 (buckets (win rw)) i) as [b Hb].
    { rewrite <- Hlen. by eapply lookup_lt_Some. }
    rewrite <- index_of_nat in Hb, Hx.
    destruct (Hw _ _ Hb) as [Hy Hn].
    destruct (decide (Z.of_nat i ∈ aged_positions rw sp)) as [Hin|Hin].
    - rewrite (Hy Hin) in Hx. by injection Hx as <-.
    - rewrite (Hn Hin) in Hx. injection Hx as <-.
      rewrite Forall_forall in Hall. apply Hall.
      rewrite index_of_nat in Hb. by eapply list_elem_of_lookup_2. }
  destruct (window_add_spec rw1 Hwf1) as (b & Hb & Hwadd).
  unfold Add in HAdd. rewrite Hupd in HAdd. simpl in HAdd.
  rewrite Hwadd in HAdd. injection HAdd as <-. simpl.
  apply Forall_insert; [done|]. apply Hadd.
  rewrite Forall_forall in Hall1. apply Hall1.
  unfold index in Hb. case_decide; [|done]. by eapply list_elem_of_lookup_2.
Qed.

(** [Add] keeps the shape of the window. *)
Lemma Add_fields rw now_span now v rw' :
  wf rw → Add rw now_span now v = Some rw' →
  size rw' = size rw ∧ interval rw' = interval rw ∧
  ignoreCurrent rw' = ignoreCurrent rw.
Proof.
  intros Hwf HAdd.
  destruct (span_range rw now_span Hwf) as (sp & Hspan & Hsp).
  destruct (updateOffset_spec rw now_span now sp Hwf Hspan)
    as (_ & rw1 & Hupd & Hwf1 & Hsame & Hrot).
  destruct (window_add_spec rw1 Hwf1) as (b & Hb & Hwadd).
  unfold Add in HAdd. rewrite Hupd in HAdd. simpl in HAdd.
  rewrite Hwadd in HAdd. injection HAdd as <-. simpl.
  destruct (decide (sp = 0)) as [Hz0|Hnz]; [by rewrite (Hsame Hz0)|].
  destruct Hrot as (_ & _ & ? & ? & ?); [lia|done].
Qed.

End RollingWindowMore.

(** ** More of the breaker: counting outcomes, the admission threshold *)

Module BreakerMoreSpec.
Import Go GoFacts Collection CollectionFacts RollingWindowSpec CollectionMore.
Import RollingWindowMore Mathx Breaker BreakerSpec BreakerMore.
Import Float64Facts.

Lemma accept_keeps b now err b' :
  accept b now = Some (err, b') → stat b' = stat b ∧ gb_k b' = gb_k b.
Proof.
  destruct (history b now) as [[accepts total]|] eqn:Hh;
    [|unfold accept; by rewrite Hh].
  rewrite (accept_cases b now accepts total Hh). simpl.
  destruct (Qle_bool _ 0); [by intros [= _ <-]|].
  destruct (Qlt_bool _ _); by intros [= _ <-].
Qed.

Lemma int64_of_float_succ s :
  (0 <= s)%Q → int64_of_float (s + 1) = int64_of_float s + 1.
Proof.
  destruct s as [n d]. unfold Qle, int64_of_float. simpl. intros Hs.
  rewrite Pos.mul_1_r, Z.mul_1_r in *.
  rewrite !Z.quot_div_nonneg by lia.
  replace (n + Z.pos d) with (n + 1 * Z.pos d) by lia.
  by rewrite Z.div_add by lia.
Qed.

Lemma int64_of_float_same s : int64_of_float (s + 0) = int64_of_float s.
Proof.
  destruct s as [n d]. unfold int64_of_float. simpl.
  by rewrite Pos.mul_1_r, Z.mul_1_r, Z.add_0_r.
Qed.

Lemma int64_of_float_nonneg s : (0 <= s)%Q → 0 ≤ int64_of_float s.
Proof.
  destruct s as [n d]. unfold Qle, int64_of_float. simpl. intros Hs.
  rewrite Z.mul_1_r in Hs.
  rewrite Z.quot_div_nonneg by lia. apply Z.div_pos; lia.
Qed.

Lemma tally_zero : tally zeroBucket.
Proof. split; [done|]. by vm_compute. Qed.

Lemma tally_success bk : tally bk → tally (Bucket_add 1 bk).
Proof.
  intros [Hs Hc]. unfold tally. simpl. rewrite int64_of_float_succ by done.
  split; [lra|lia].
Qed.

Lemma tally_failure bk : tally bk → tally (Bucket_add 0 bk).
Proof.
  intros [Hs Hc]. unfold tally. simpl. rewrite int64_of_float_same.
  split; [lra|lia].
Qed.

(** What holds of every state of a breaker made by [newGoogleBreaker]. *)
Lemma served_inv t0 seeded b0 b :
  newGoogleBreaker t0 seeded = Some b0 → served b0 b →
  gb_k b = k ∧ wf (stat b) ∧ ignoreCurrent (stat b) = false ∧
  size (stat b) = gb_buckets ∧ interval (stat b) = window ÷ gb_buckets ∧
  Forall tally (buckets (win (stat b))).
Proof.
  intros Hnew Hs. induction Hs
    as [|b err b' now _ IH Hacc|b b' now_span now _ IH Hm
        |b b' now_span now _ IH Hm].
  - unfold newGoogleBreaker in Hnew. injection Hnew as <-. simpl.
    split; [done|]. split; [by vm_compute|]. do 3 (split; [done|]).
    change (Forall tally (replicate 40 zeroBucket)).
    apply Forall_replicate. exact tally_zero.
  - destruct IH as (Hk & Hrest).
    destruct (accept_keeps _ _ _ _ Hacc) as [-> ->]. done.
  - destruct IH as (Hk & Hwf & Hig & Hsz & Hitv & Hall).
    unfold markSuccess in Hm.
    destruct (Add (stat b) now_span now 1) as [st|] eqn:Hadd; [|done].
    injection Hm as <-. simpl.
    destruct (Add_total (stat b) now_span now 1 Hwf) as (st' & Hadd' & Hwf').
    rewrite Hadd in Hadd'. injection Hadd' as <-.
    pose proof (Add_Forall tally _ _ _ _ _ Hwf tally_zero tally_success
                  Hall Hadd) as Hall'.
    destruct (Add_fields (stat b) now_span now 1 st Hwf Hadd)
      as (Hs & Hi & Hg).
    split; [done|]. split; [done|]. split; [congruence|].
    split; [congruence|]. split; [congruence|done].
  - destruct IH as (Hk & Hwf & Hig & Hsz & Hitv & Hall).
    unfold markFailure in Hm.
    destruct (Add (stat b) now_span now 0) as [st|] eqn:Hadd; [|done].
    injection Hm as <-. simpl.
    destruct (Add_total (stat b) now_span now 0 Hwf) as (st' & Hadd' & Hwf').
    rewrite Hadd in Hadd'. injection Hadd' as <-.
    pose proof (Add_Forall tally _ _ _ _ _ Hwf tally_zero tally_failure
                  Hall Hadd) as Hall'.
    destruct (Add_fields (stat b) now_span now 0 st Hwf Hadd)
      as (Hs & Hi & Hg).
    split; [done|]. split; [done|]. split; [congruence|].
    split; [congruence|]. split; [congruence|done].
Qed.

(** X5.  However a breaker made by [newGoogleBreaker] has been used,
    [history] returns, and with no more accepts than calls: [0 ≤ accepts ≤
    total]. *)
Theorem history_accepts_le_total t0 seeded b0 b now :
  newGoogleBreaker t0 seeded = Some b0 → served b0 b →
  ∃ accepts total,
    history b now = Some (accepts, total) ∧ 0 ≤ accepts ≤ total.
Proof.
  intros Hnew Hs.
  destruct (served_inv t0 seeded b0 b Hnew Hs) as (_ & Hwf & _ & _ & _ & Hall).
  destruct (history_total b now Hwf) as [[accepts total] Hh].
  exists accepts, total. split; [done|].
  apply (Reduce_preserves (λ acc : Z * Z, 0 ≤ acc.1 ≤ acc.2) _ _ _ _ _ Hh);
    [done|].
  intros bk a Hbk Ha. simpl. rewrite Forall_forall in Hall.
  destruct (Hall bk Hbk) as [_ Hc]. lia.
Qed.

Lemma history_accepts_le_total_witness :
  ∃ b0 b1 b2,
    newGoogleBreaker 0 (λ _, 1 # 2) = Some b0 ∧
    markSuccess b0 10 10 = Some b1 ∧ markFailure b1 20 20 = Some b2 ∧
    served b0 b2 ∧ history b2 30 = Some (1, 2).
Proof.
  destruct (newGoogleBreaker 0 (λ _, 1 # 2)) as [b0|] eqn:Hnew;
    [|by vm_compute in Hnew].
  destruct (markSuccess b0 10 10) as [b1|] eqn:H1;
    [|vm_compute in Hnew; injection Hnew as <-; by vm_compute in H1].
  destruct (markFailure b1 20 20) as [b2|] eqn:H2;
    [|vm_compute in Hnew; injection Hnew as <-;
      vm_compute in H1; injection H1 as <-; by vm_compute in H2].
  assert (Hs : served b0 b2).
  { eapply served_failure; [|exact H2].
    eapply served_success; [|exact H1]. apply served_new. }
  exists b0, b1, b2. split; [reflexivity|]. split; [exact H1|].
  split; [exact H2|]. split; [exact Hs|].
  destruct (history_accepts_le_total 0 (λ _, 1 # 2) b0 b2 30 Hnew Hs)
    as (accepts & total & Hh & _).
  vm_compute in Hnew. injection Hnew as <-.
  vm_compute in H1. injection H1 as <-.
  vm_compute in H2. injection H2 as <-. reflexivity.
Defined.

Lemma drop_pos_iff accepts total :
  0 ≤ total → (0 < drop accepts total)%Q ↔ 3 * accepts < 2 * (total - 5).
Proof.
  intros Ht. unfold drop. pose proof (inject_Z_nonneg total Ht) as Ht'.
  assert (3 * accepts < 2 * (total - 5)
          ↔ (0 < inject_Z total - 5 - (3 # 2) * inject_Z accepts)%Q) as ->.
  { rewrite Zlt_Qlt.
    replace (total - 5) with (total + - (5)) by lia.
    rewrite !inject_Z_mult, inject_Z_plus, inject_Z_opp.
    change (inject_Z 5) with 5%Q. change (inject_Z 3) with 3%Q.
    change (inject_Z 2) with 2%Q. split; intros; lra. }
  split.
  - intros Hpos.
    destruct (Qlt_le_dec 0 (inject_Z total - 5 - (3 # 2) * inject_Z accepts))
      as [|Hle]; [done|]. exfalso.
    assert ((inject_Z total - 5 - (3 # 2) * inject_Z accepts)
            / (inject_Z total + 1) <= 0)%Q as Hq.
    { apply Qle_shift_div_r; [lra|]. by rewrite Qmult_0_l. }
    rewrite Q.max_l in Hpos; [lra|done].
  - intros Hpos. apply Q.max_lt_iff. right.
    apply Qlt_shift_div_l; [lra|]. by rewrite Qmult_0_l.
Qed.

(** A positive ratio of a reading of up to [2^50] calls is far from the
    smallest float and from one. *)
Lemma drop_bounds accepts total :
  0 ≤ accepts → 0 ≤ total ≤ 2 ^ 50 → 3 * accepts < 2 * (total - 5) →
  (Float64.pow2 Float64.emin <= drop accepts total)%Q ∧
  (drop accepts total <= 1 - Float64.pow2 (- Float64.prec))%Q.
Proof.
  intros Ha Ht Hlt. unfold drop.
  pose proof (inject_Z_nonneg total (proj1 Ht)) as Ht0.
  pose proof (inject_Z_nonneg accepts Ha) as Ha0.
  assert (inject_Z total <= inject_Z (2 ^ 50))%Q as Ht1
    by (rewrite <- Zle_Qle; lia).
  change (inject_Z (2 ^ 50)) with 1125899906842624%Q in Ht1.
  assert (1 <= 2 * inject_Z total - 10 - 3 * inject_Z accepts)%Q as Hn.
  { assert (inject_Z 1 <= inject_Z (2 * total + - (10) + - (3 * accepts)))%Q
      as H by (rewrite <- Zle_Qle; lia).
    rewrite !inject_Z_plus, !inject_Z_opp, !inject_Z_mult in H.
    change (inject_Z 1) with 1%Q in H. change (inject_Z 2) with 2%Q in H.
    change (inject_Z 3) with 3%Q in H. change (inject_Z 10) with 10%Q in H.
    lra. }
  set (e := ((inject_Z total - 5 - (3 # 2) * inject_Z accepts)
             / (inject_Z total + 1))%Q).
  assert (Float64.pow2 (-52) <= e)%Q as Hlo.
  { apply Qle_shift_div_l; [lra|].
    change (Float64.pow2 (-52)) with (1 # 4503599627370496)%Q. lra. }
  assert (e <= 1 - Float64.pow2 (- Float64.prec))%Q as Hhi.
  { apply Qle_shift_div_r; [lra|].
    change (Float64.pow2 (- Float64.prec)) with (1 # 9007199254740992)%Q.
    lra. }
  pose proof (pow2_pos (-52)) as Hp.
  assert (Float64.pow2 Float64.emin <= Float64.pow2 (-52))%Q as Hmin
    by (apply pow2_le; unfold Float64.emin; lia).
  rewrite Q.max_r by lra. split; lra.
Qed.

(** X6.  The admission threshold in whole numbers, for a reading of up to
    [2^50] accepts and calls.  [accept] admits without drawing a sample
    exactly when [2 * (total - 5) ≤ 3 * accepts]; beyond that the drop ratio
    it computes is positive and below [1], one sample is drawn, and the call
    is rejected when the sample is below the ratio. *)
Theorem accept_threshold b now accepts total :
  gb_k b = k → history b now = Some (accepts, total) →
  0 ≤ accepts ≤ 2 ^ 50 → 0 ≤ total ≤ 2 ^ 50 →
  let d := dropRatio (gb_k b) accepts total in
  let x := samples (proba b) (drawn (proba b)) in
  let p' := {| samples := samples (proba b); drawn := S (drawn (proba b)) |} in
  (2 * (total - 5) ≤ 3 * accepts → accept b now = Some (nil, b)) ∧
  (3 * accepts < 2 * (total - 5) →
     (0 < d)%Q ∧ (d < 1)%Q ∧
     accept b now
     = Some (if Qlt_bool x d then ErrServiceUnavailable else nil,
             with_proba b p')).
Proof.
  intros Hk Hh Ha Ht d x p'. subst d. rewrite Hk.
  pose proof (dropRatio_round accepts total Ha Ht) as Hd.
  pose proof (accept_cases b now accepts total Hh) as Hacc.
  simpl in Hacc. rewrite Hk in Hacc. fold x p' in Hacc.
  pose proof (drop_pos_iff accepts total (proj1 Ht)) as Hiff.
  split.
  - intros Hle. rewrite Hacc.
    assert (drop accepts total <= 0)%Q as Hexact.
    { apply Qnot_lt_le. intros Hpos%Hiff. lia. }
    pose proof (round_nonpos _ Hexact) as Hr. rewrite <- Hd in Hr.
    apply Qle_bool_iff in Hr. by rewrite Hr.
  - intros Hlt.
    destruct (drop_bounds accepts total (proj1 Ha) Ht Hlt) as [Hlo Hhi].
    pose proof (pow2_pos Float64.emin) as Hmin.
    pose proof (pow2_pos (- Float64.prec)) as Hulp.
    pose proof (round_pos_lt _ Hlo) as Hpos.
    assert (0 < drop accepts total)%Q as Hexact by lra.
    pose proof (round_below_one _ Hexact Hhi) as Hone.
    rewrite <- Hd in Hpos, Hone.
    split; [done|]. split; [lra|]. rewrite Hacc.
    destruct (Qle_bool _ 0) eqn:Hb.
    + apply Qle_bool_iff in Hb. lra.
    + by destruct (Qlt_bool x _).
Qed.

Lemma accept_threshold_witness :
  history (sample_breaker (mkBucket 0 10) zeroBucket (λ _, 1 # 4)) 1250
  = Some (0, 10) ∧
  history (sample_breaker (mkBucket 2 8) zeroBucket (λ _, 1 # 4)) 1250
  = Some (2, 8) ∧
  accept (sample_breaker (mkBucket 2 8) zeroBucket (λ _, 1 # 4)) 1250
  = Some (nil, sample_breaker (mkBucket 2 8) zeroBucket (λ _, 1 # 4)) ∧
  accept (sample_breaker (mkBucket 0 10) zeroBucket (λ _, 1 # 4)) 1250
  = Some (ErrServiceUnavailable,
          with_proba (sample_breaker (mkBucket 0 10) zeroBucket (λ _, 1 # 4))
            {| samples := λ _, 1 # 4; drawn := 1 |}).
Proof.
  set (b := sample_breaker (mkBucket 0 10) zeroBucket (λ _, 1 # 4)).
  set (b' := sample_breaker (mkBucket 2 8) zeroBucket (λ _, 1 # 4)).
  assert (Hh : history b 1250 = Some (0, 10)) by reflexivity.
  assert (Hh' : history b' 1250 = Some (2, 8)) by reflexivity.
  split; [exact Hh|]. split; [exact Hh'|]. split.
  - destruct (accept_threshold b' 1250 2 8 eq_refl Hh') as [Hadmit _];
      [lia..|]. apply Hadmit. lia.
  - destruct (accept_threshold b 1250 0 10 eq_refl Hh) as [_ Hdrop];
      [lia..|]. destruct Hdrop as (_ & _ & Hrej); [lia|]. rewrite Hrej.
    by vm_compute.
Defined.





End BreakerMoreSpec.

(** ** More of the shared calls: one call per key, the counter, results *)

Module SyncxMoreSpec.
Import Syncx SyncxSpec SyncxMore.

Section Invariant.
Context {V E : Type}.
Implicit Types (σ : state V E) (t : pc V E).

Lemma inv_more_new : inv_more (V := V) (E := E) NewSharedCalls.
Proof. split; simpl; intros *; by rewrite ?lookup_empty, ?lookup_nil. Qed.

(** A goroutine moves between two places outside any call; the index and
    the heap stay. *)
Lemma inv_more_move_idle σ i t0 t' :
  inv_more σ → threads σ !! i = Some t0 →
  (∀ c, ¬ executes t0 c) → (∀ c, ¬ executes t' c) →
  inv_more {| calls := calls σ; heap := heap σ;
              threads := <[i := t']> (threads σ) |}.
Proof.
  intros [M1 M2 M3] Hi H0 H'. split; simpl.
  - intros j t c k Hj Ht.
    destruct (lookup_moved _ _ _ _ _ _ Hi Hj) as [[-> ->]|[_ Hj']].
    + by apply executes_of_indexed, H' in Ht.
    + by eapply M1.
  - done.
  - intros c r Hc Hr. destruct (M3 c r Hc Hr) as (j & t & Hj & Ht).
    exists j, t. split; [|done]. apply lookup_moved_other; [|done].
    intros ->. rewrite Hi in Hj. injection Hj as <-. by apply H0 in Ht.
Qed.

(** A goroutine moves on inside its call [c]; the index stays and the
    record of [c] keeps its counter. *)
Lemma inv_more_move_inside σ i t0 t' c key hp :
  inv_more σ → threads σ !! i = Some t0 →
  indexed t0 c key → indexed t' c key →
  (∀ c' r', hp !! c' = Some r' →
            ∃ r, heap σ !! c' = Some r ∧ wg r' = wg r) →
  inv_more {| calls := calls σ; heap := hp;
              threads := <[i := t']> (threads σ) |}.
Proof.
  intros [M1 M2 M3] Hi H0 H' Hhp. split; simpl.
  - intros j t c' k Hj Ht.
    destruct (lookup_moved _ _ _ _ _ _ Hi Hj) as [[-> ->]|[_ Hj']].
    + assert (c' = c ∧ k = key) as [-> ->]
        by (destruct t'; simpl in *; try done; destruct H', Ht; by subst).
      by eapply M1.
    + by eapply M1.
  - intros c' r' Hc'. destruct (Hhp c' r' Hc') as (r & Hr & ->). by eapply M2.
  - intros c' r' Hc' Hwg. destruct (Hhp c' r' Hc') as (r & Hr & Heq).
    rewrite Heq in Hwg. destruct (M3 c' r Hr Hwg) as (j & t & Hj & Ht).
    destruct (decide (j = i)) as [->|Hne].
    + rewrite Hi in Hj. injection Hj as <-.
      assert (c' = c) as ->.
      { apply executes_of_indexed in H0.
        destruct t0; simpl in *; try done; congruence. }
      exists i, t'. split; [by eapply lookup_moved_self|].
      by eapply executes_of_indexed.
    + exists j, t. split; [|done]. by apply lookup_moved_other.
Qed.

Lemma inv_more_step σ σ' : inv σ → inv_more σ → step σ σ' → inv_more σ'.
Proof.
  intros [J1 J2 J3] Hmore Hstep. pose proof Hmore as [M1 M2 M3].
  destruct Hstep as [σ key fn ex|σ i key fn ex c Hi Hk|σ i key fn ex Hi Hk
                    |σ i c ex r Hi Hc Hr|σ i c key fn ex v e r Hi Hfn Hc
                    |σ i c key fn ex p Hi Hfn|σ i c key ex p Hi
                    |σ i c ex p r Hi Hc].
  - (* a new goroutine *)
    split; simpl.
    + intros j t c k Hj Ht. apply lookup_app_Some in Hj as [Hj|[_ Hj]].
      * by eapply M1.
      * by apply list_lookup_singleton_Some in Hj as [_ <-].
    + done.
    + intros c r Hc Hr. destruct (M3 c r Hc Hr) as (j & t & Hj & Ht).
      exists j, t. split; [|done]. by apply lookup_app_l_Some.
  - apply (inv_more_move_idle σ i (AtCreateCall key fn ex)); [done..| |];
      by intros ? ?.
  - (* a new call under the key *)
    split; simpl.
    + intros j t c' k Hj Ht.
      destruct (lookup_moved _ _ _ _ _ _ Hi Hj) as [[-> ->]|[_ Hj']].
      * simpl in Ht. destruct Ht as [<- <-]. apply lookup_insert_eq.
      * pose proof (M1 j t c' k Hj' Ht) as Hk'.
        rewrite lookup_insert_ne; [done|]. intros <-. congruence.
    + intros c' r' Hc'. destruct (decide (c' = c)) as [->|Hne].
      * rewrite lookup_insert_eq in Hc'. injection Hc' as <-. by right.
      * rewrite lookup_insert_ne in Hc' by done. by eapply M2.
    + intros c' r' Hc' Hwg. destruct (decide (c' = c)) as [->|Hne].
      * exists i, (AtFn c key fn ex). split; [|done].
        by eapply lookup_moved_self.
      * rewrite lookup_insert_ne in Hc' by done.
        destruct (M3 c' r' Hc' Hwg) as (j & t & Hj & Ht).
        exists j, t. split; [|done]. apply lookup_moved_other; [|done].
        intros ->. rewrite Hi in Hj. by injection Hj as <-.
  - apply (inv_more_move_idle σ i (AtWait c ex)); [done..| |]; by intros ? ?.
  - (* [fn] returns *)
    apply (inv_more_move_inside σ i (AtFn c key fn ex) _ c key); [done..|].
    intros c' r' Hc'. destruct (decide (c' = c)) as [->|Hne].
    + rewrite lookup_insert_eq in Hc'. injection Hc' as <-. by exists r.
    + rewrite lookup_insert_ne in Hc' by done. by exists r'.
  - (* [fn] panics *)
    apply (inv_more_move_inside σ i (AtFn c key fn ex) _ c key); [done..|].
    intros c' r' Hc'. by exists r'.
  - (* the key is deleted *)
    pose proof (M1 i _ c key Hi (conj eq_refl eq_refl)) as Hkey.
    split; simpl.
    + intros j t c' k Hj Ht.
      destruct (lookup_moved _ _ _ _ _ _ Hi Hj) as [[-> ->]|[Hne Hj']];
        [done|].
      pose proof (M1 j t c' k Hj' Ht) as Hk'.
      rewrite lookup_delete_ne; [done|]. intros <-.
      rewrite Hkey in Hk'. injection Hk' as <-. apply Hne.
      eapply (J3 j i _ _ c Hj' Hi); [by eapply executes_of_indexed|done].
    + done.
    + intros c' r' Hc' Hwg. destruct (M3 c' r' Hc' Hwg) as (j & t & Hj & Ht).
      destruct (decide (j = i)) as [->|Hne].
      * rewrite Hi in Hj. injection Hj as <-. simpl in Ht. subst c'.
        exists i, (AtDone c ex p). split; [|done].
        by eapply lookup_moved_self.
      * exists j, t. split; [|done]. by apply lookup_moved_other.
  - (* completion is signalled *)
    destruct (J2 i _ c Hi eq_refl) as (r0 & Hr0 & Hwg0).
    rewrite Hc in Hr0. injection Hr0 as <-.
    split; simpl.
    + intros j t c' k Hj Ht.
      destruct (lookup_moved _ _ _ _ _ _ Hi Hj) as [[-> ->]|[Hne Hj']].
      * by destruct p.
      * by eapply M1.
    + intros c' r' Hc'. destruct (decide (c' = c)) as [->|Hne].
      * rewrite lookup_insert_eq in Hc'. injection Hc' as <-. simpl. lia.
      * rewrite lookup_insert_ne in Hc' by done. by eapply M2.
    + intros c' r' Hc' Hwg. destruct (decide (c' = c)) as [->|Hne].
      * rewrite lookup_insert_eq in Hc'. injection Hc' as <-.
        simpl in Hwg. lia.
      * rewrite lookup_insert_ne in Hc' by done.
        destruct (M3 c' r' Hc' Hwg) as (j & t & Hj & Ht).
        exists j, t. split; [|done]. apply lookup_moved_other; [|done].
        intros ->. rewrite Hi in Hj. injection Hj as <-. simpl in Ht.
        congruence.
Qed.

Lemma inv_more_reachable σ : reachable σ → inv σ ∧ inv_more σ.
Proof.
  unfold reachable. intros H.
  eapply (rtc_ind_r (λ s, inv s ∧ inv_more s));
    [split; [apply inv_new|apply inv_more_new]| |exact H].
  intros s s' _ Hstep [IH IH']. split.
  - by eapply inv_step.
  - by eapply inv_more_step.
Qed.

(** X8.  One call per key: in every state a program reaches, at most one
    goroutine has a call in flight under a key, so [fn] never runs in two
    goroutines for one key at a time. *)
Theorem one_call_in_flight_per_key σ key i j :
  reachable σ → in_flight σ key i → in_flight σ key j → i = j.
Proof.
  intros [[_ _ J3] [M1 _ _]]%inv_more_reachable
         (t & c & Hi & Ht) (t' & c' & Hj & Ht').
  pose proof (M1 i t c key Hi Ht) as Hk.
  pose proof (M1 j t' c' key Hj Ht') as Hk'.
  rewrite Hk in Hk'. injection Hk' as <-.
  eapply (J3 i j _ _ c Hi Hj); by eapply executes_of_indexed.
Qed.

(** X9.  The counter of a call's [WaitGroup] is 0 or 1 in every state a
    program reaches, and it is 1 exactly while some goroutine executes the
    call: [wg.Done] runs once for the one [wg.Add(1)]. *)
Theorem wg_counts_the_executor σ c r :
  reachable σ → heap σ !! c = Some r →
  (wg r = 0 ∨ wg r = 1) ∧
  (wg r = 1 ↔ ∃ i t, threads σ !! i = Some t ∧ executes t c).
Proof.
  intros [[_ J2 _] [_ M2 M3]]%inv_more_reachable Hc.
  split; [by eapply M2|]. split.
  - by apply M3.
  - intros (i & t & Hi & Ht). destruct (J2 i t c Hi Ht) as (r' & Hr' & Hwg).
    congruence.
Qed.

(** X10.  A completed call keeps its results: once the counter of [c] is 0
    the record of [c] never changes again, whatever the program does, and
    every goroutine waiting on [c] can be released, with the values of the
    record. *)
Theorem completed_call_is_final σ σ' c r :
  reachable σ → heap σ !! c = Some r → wg r = 0 → rtc step σ σ' →
  heap σ' !! c = Some r ∧
  ∀ i ex, threads σ' !! i = Some (AtWait c ex) →
          step σ' (released σ' i ex r).
Proof.
  intros Hreach Hc Hwg Hrun.
  assert (reachable σ' ∧ heap σ' !! c = Some r) as [Hreach' Hc'].
  { revert Hrun. apply (rtc_ind_r (λ s, reachable s ∧ heap s !! c = Some r));
      [done|].
    intros s s' Hrun Hstep [Hs Hcs]. split.
    { unfold reachable. eapply rtc_r; [exact Hs|done]. }
    apply inv_more_reachable in Hs as [[_ J2 _] _].
    assert (∀ i t, threads s !! i = Some t → ¬ executes t c) as Hno.
    { intros i t Hi Ht. destruct (J2 i t c Hi Ht) as (r' & Hr' & Hwg').
      rewrite Hcs in Hr'. injection Hr' as <-. lia. }
    destruct Hstep as [s key fn ex|s i key fn ex c0 Hi Hk|s i key fn ex Hi Hk
                      |s i c0 ex r0 Hi Hc0 Hr0|s i c0 key fn ex v e r0 Hi Hfn Hc0
                      |s i c0 key fn ex p Hi Hfn|s i c0 key ex p Hi
                      |s i c0 ex p r0 Hi Hc0]; simpl; try done.
    - rewrite lookup_insert_ne; [done|]. intros Heq.
      assert (heap s !! c0 = None) as Hfresh
        by apply not_elem_of_dom, is_fresh.
      rewrite Heq in Hfresh. congruence.
    - rewrite lookup_insert_ne; [done|]. intros ->. by eapply (Hno i).
    - rewrite lookup_insert_ne; [done|]. intros ->. by eapply (Hno i). }
  split; [done|]. intros i ex Hi.
  by apply (step_wait σ' i c ex r).
Qed.

End Invariant.

Lemma run4_reachable : reachable run4.
Proof.
  eapply rtc_l; [apply (step_go NewSharedCalls "k" sample_fn false)|].
  eapply rtc_l; [by apply (step_createCall_new run1 0 "k" sample_fn false)|].
  eapply rtc_l; [apply (step_go run2 "k" sample_fn true)|].
  eapply rtc_l;
    [by apply (step_createCall_found run3 1 "k" sample_fn true sample_call)|].
  apply rtc_refl.
Qed.

Lemma run7_reachable : reachable run7.
Proof.
  unfold reachable. etrans; [exact run4_reachable|].
  eapply rtc_l.
  { by apply (step_fn_returns run4 0 sample_call "k" sample_fn false
                (Some 7) None (mkCall 1 None None)). }
  eapply rtc_l; [by apply (step_delete run5 0 sample_call "k" false None)|].
  eapply rtc_l.
  { by apply (step_done run6 0 sample_call false None
                (mkCall 1 (Some 7) None)). }
  apply rtc_refl.
Qed.

Lemma one_call_in_flight_per_key_witness :
  reachable run4 ∧ in_flight run4 "k" 0 ∧
  ∀ j, in_flight run4 "k" j → j = 0%nat.
Proof.
  assert (Hin : in_flight run4 "k" 0).
  { exists (AtFn sample_call "k" sample_fn false), sample_call.
    split; [reflexivity|done]. }
  split; [exact run4_reachable|]. split; [exact Hin|]. intros j Hj.
  exact (one_call_in_flight_per_key run4 "k" j 0 run4_reachable Hj Hin).
Defined.

Lemma wg_counts_the_executor_witness :
  reachable run4 ∧
  heap run4 !! sample_call = Some (mkCall 1 None None) ∧
  ∃ i t, threads run4 !! i = Some t ∧ executes t sample_call.
Proof.
  assert (Hc : heap run4 !! sample_call = Some (mkCall 1 None None))
    by reflexivity.
  split; [exact run4_reachable|]. split; [exact Hc|].
  destruct (wg_counts_the_executor run4 sample_call _ run4_reachable Hc)
    as [_ [Hex _]].
  apply Hex. reflexivity.
Defined.

Lemma completed_call_is_final_witness :
  reachable run7 ∧
  heap run7 !! sample_call = Some (mkCall 0 (Some 7) None) ∧
  threads run7 !! 1%nat = Some (AtWait sample_call true) ∧
  step run7 (released run7 1 true (mkCall 0 (Some 7) None)) ∧
  threads (released run7 1 true (mkCall 0 (Some 7) None)) !! 1%nat
  = Some (Returned (Some 7) (Some false) None).
Proof.
  assert (Hc : heap run7 !! sample_call = Some (mkCall 0 (Some 7) None))
    by reflexivity.
  split; [exact run7_reachable|]. split; [exact Hc|].
  split; [reflexivity|]. split; [|reflexivity].
  destruct (completed_call_is_final run7 run7 sample_call _ run7_reachable
              Hc eq_refl (rtc_refl _ _)) as [_ Hrel].
  apply Hrel. reflexivity.
Defined.

End SyncxMoreSpec.

(** ** More of the hash ring: [Get], weights, and what [Remove] deletes *)

Module HashMoreSpec.
Import Go GoFacts Sort SortFacts Hash HashFacts HashSpec HashMore.

Section Ring.
Context {node : Type}.
Variable repr : node → string.
Variable fmt_v : node → string.
Implicit Types (h : ConsistentHash (node := node)) (n v : node).

(** On sorted keys the search returns the number of keys below the
    hash. *)
Lemma searchKeys_sorted (ks : list N) hash :
  StronglySorted N.le ks →
  ∃ idx, searchKeys ks hash = Some idx ∧ 0 ≤ idx ≤ Z.of_nat (length ks) ∧
         (∀ p k, ks !! p = Some k → Z.of_nat p < idx → (k < hash)%N) ∧
         (∀ p k, ks !! p = Some k → idx ≤ Z.of_nat p → (hash ≤ k)%N).
Proof.
  intros Hsorted.
  set (len := Z.of_nat (length ks)).
  set (f := λ i, k ← index ks i; Some (bool_decide (hash ≤ k)%N)).
  destruct (Search_spec f len) as (idx & Hs & Hrange & Hlo & Hhi); [lia| |].
  { intros p Hp. unfold f. destruct (index_lt ks p Hp) as [k ->]. by eexists. }
  exists idx. split; [done|]. split; [done|]. split.
  - intros p k Hp Hlt. destruct Hlo as [->|Hlo]; [lia|].
    unfold f in Hlo. destruct (index ks (idx - 1)) as [k1|] eqn:Hk1; [|done].
    simpl in Hlo. injection Hlo as Hlo. apply bool_decide_eq_false in Hlo.
    unfold index in Hk1. case_decide; [|done].
    pose proof (sorted_lookup_le ks p (Z.to_nat (idx - 1)) k k1 Hsorted
                  ltac:(lia) Hp Hk1). lia.
  - intros p k Hp Hle. pose proof (lookup_lt_Some _ _ _ Hp) as Hplen.
    destruct Hhi as [->|Hhi]; [subst len; lia|].
    unfold f in Hhi. destruct (index ks idx) as [k1|] eqn:Hk1; [|done].
    simpl in Hhi. injection Hhi as Hhi. apply bool_decide_eq_true in Hhi.
    unfold index in Hk1. case_decide; [|done].
    pose proof (sorted_lookup_le ks (Z.to_nat idx) p k1 k Hsorted
                  ltac:(lia) Hk1 Hp). lia.
Qed.

Lemma searchKeys_total (ks : list N) hash :
  ∃ idx, searchKeys ks hash = Some idx ∧ 0 ≤ idx ≤ Z.of_nat (length ks).
Proof.
  destruct (searchKeys_spec ks hash) as (idx & Hs & Hr & _). by exists idx.
Qed.

(** The switch of [Get] never panics, and what it picks is in the
    bucket. *)
Lemma pickNode_spec h (b : list node) v :
  ∃ r, pickNode fmt_v h b v = Some r ∧
       (b = [] → r = None) ∧ (b ≠ [] → ∃ x, r = Some x ∧ x ∈ b).
Proof.
  destruct b as [|x [|y b]].
  - exists None. by split.
  - exists (Some x). split; [done|]. split; [done|]. intros _.
    exists x. split; [done|]. by left.
  - unfold pickNode.
    set (l := x :: y :: b).
    set (pos := Z.of_N (hashFunc h (innerRepr fmt_v v)
                        `mod` N.of_nat (length l))%N).
    assert (0 ≤ pos < Z.of_nat (length l)) as Hpos.
    { subst pos.
      assert (N.of_nat (length l) ≠ 0%N) as Hne by (subst l; simpl; lia).
      pose proof (N.mod_upper_bound
        (hashFunc h (innerRepr fmt_v v)) (N.of_nat (length l)) Hne) as Hub.
      revert Hub. generalize (hashFunc h (innerRepr fmt_v v)
                              `mod` N.of_nat (length l))%N.
      intros m Hm. lia. }
    destruct (index_lt l pos Hpos) as [z Hz]. rewrite Hz. simpl.
    exists (Some z). split; [done|]. split; [done|]. intros _.
    exists z. split; [done|]. unfold index in Hz. case_decide; [|done].
    by eapply list_elem_of_lookup_2.
Qed.

(** [Get] as a lookup on the keys: the index it computes. *)
Lemma Get_index h v :
  ring h ≠ ∅ → keys h ≠ [] →
  ∃ idx k, searchKeys (keys h) (hashFunc h (repr v)) = Some idx ∧
           0 ≤ idx ≤ Z.of_nat (length (keys h)) ∧
           keys h !! Z.to_nat (idx `mod` Z.of_nat (length (keys h))) = Some k ∧
           Get repr fmt_v h v = pickNode fmt_v h (bucket h k) v.
Proof.
  intros Hring Hkeys. unfold Get.
  rewrite decide_False by (by rewrite map_size_empty_iff).
  destruct (searchKeys_total (keys h) (hashFunc h (repr v)))
    as (idx & Hs & Hidx).
  assert (0 < Z.of_nat (length (keys h))) as Hlen
    by (destruct (keys h); [done|simpl; lia]).
  rewrite Hs. simpl. rewrite rem_nonneg by lia. simpl.
  pose proof (Z.mod_pos_bound idx (Z.of_nat (length (keys h))) Hlen) as Hm.
  destruct (index_lt (keys h) _ Hm) as [k Hk]. rewrite Hk. simpl.
  exists idx, k. do 2 (split; [done|]). split; [|done].
  unfold index in Hk. by case_decide.
Qed.

(** X11.  [Get] in full: nothing from an empty ring; a panic (the remainder
    by a length of zero) on a ring that has buckets but no keys; with keys,
    a result, and a node returned is in the bucket of one of the keys. *)
Theorem Get_returns_bucket_member h v :
  (ring h = ∅ → Get repr fmt_v h v = Some None) ∧
  (ring h ≠ ∅ → keys h = [] → Get repr fmt_v h v = None) ∧
  (keys h ≠ [] →
     ∃ r, Get repr fmt_v h v = Some r ∧
          ∀ x, r = Some x → ∃ k, k ∈ keys h ∧ x ∈ bucket h k).
Proof.
  split; [|split].
  - intros Hring. unfold Get.
    by rewrite decide_True by (by rewrite map_size_empty_iff).
  - intros Hring Hkeys. unfold Get.
    rewrite decide_False by (by rewrite map_size_empty_iff).
    rewrite Hkeys. by vm_compute.
  - intros Hkeys. destruct (decide (ring h = ∅)) as [Hring|Hring].
    + exists None. unfold Get.
      rewrite decide_True by (by rewrite map_size_empty_iff). by split.
    + destruct (Get_index h v Hring Hkeys) as (idx & k & _ & _ & Hk & ->).
      destruct (pickNode_spec h (bucket h k) v) as (r & -> & Hnil & Hcons).
      exists r. split; [done|]. intros x ->. exists k.
      split; [by eapply list_elem_of_lookup_2|].
      destruct (bucket h k) as [|y b] eqn:Hb; [by specialize (Hnil eq_refl)|].
      destruct Hcons as (x' & [= <-] & Hx); done.
Qed.

(** X12.  The lookup of consistent hashing: on sorted keys [Get] serves a
    value from the bucket of the least key not below the value's hash, and
    from the bucket of the least key of all when no key is that large. *)
Theorem Get_picks_successor h v :
  StronglySorted N.le (keys h) → ring h ≠ ∅ → keys h ≠ [] →
  ∃ k, successor (keys h) (hashFunc h (repr v)) k ∧
       Get repr fmt_v h v = pickNode fmt_v h (bucket h k) v.
Proof.
  intros Hsorted Hring Hkeys.
  destruct (Get_index h v Hring Hkeys) as (idx & k & Hs & Hidx & Hk & HGet).
  destruct (searchKeys_sorted (keys h) (hashFunc h (repr v)) Hsorted)
    as (idx' & Hs' & _ & Hbelow & Habove).
  rewrite Hs in Hs'. injection Hs' as <-.
  exists k. split; [|done]. split; [by eapply list_elem_of_lookup_2|].
  assert (0 < Z.of_nat (length (keys h))) as Hlen
    by (destruct (keys h); [done|simpl; lia]).
  destruct (decide (idx = Z.of_nat (length (keys h)))) as [Hend|Hin].
  - right. rewrite Hend, Z_mod_same_full in Hk. split.
    + intros k' [p Hp]%list_elem_of_lookup. eapply Hbelow; [done|].
      apply lookup_lt_Some in Hp. lia.
    + intros k' [p Hp]%list_elem_of_lookup.
      by eapply (sorted_lookup_le (keys h) 0 p k k' Hsorted ltac:(lia)).
  - left. rewrite Z.mod_small in Hk by lia. split.
    + eapply Habove; [done|lia].
    + intros k' [p Hp]%list_elem_of_lookup Hle.
      destruct (decide (Z.of_nat p < idx)) as [Hlt|Hge].
      * pose proof (Hbelow p k' Hp Hlt). lia.
      * by eapply (sorted_lookup_le (keys h) (Z.to_nat idx) p k k' Hsorted
                     ltac:(lia)).
Qed.

(** A node that [Get] returns sits in a bucket of the ring. *)
Lemma Get_Some_bucket h v x :
  Get repr fmt_v h v = Some (Some x) → ∃ k, k ∈ keys h ∧ x ∈ bucket h k.
Proof.
  intros HGet.
  assert (ring h ≠ ∅) as Hring.
  { intros Hring. unfold Get in HGet.
    by rewrite decide_True in HGet by (by rewrite map_size_empty_iff). }
  assert (keys h ≠ []) as Hkeys.
  { intros Hkeys. unfold Get in HGet.
    rewrite decide_False in HGet by (by rewrite map_size_empty_iff).
    rewrite Hkeys in HGet. by vm_compute in HGet. }
  destruct (Get_index h v Hring Hkeys) as (idx & k & _ & _ & Hk & HGet').
  rewrite HGet' in HGet.
  destruct (pickNode_spec h (bucket h k) v) as (r & Hr & Hnil & Hcons).
  rewrite Hr in HGet. injection HGet as ->. exists k.
  split; [by eapply list_elem_of_lookup_2|].
  destruct (bucket h k) as [|y b] eqn:Hb; [by specialize (Hnil eq_refl)|].
  destruct Hcons as (x' & [= <-] & Hx); done.
Qed.

(** X17.  One round of [Remove]'s loop deletes the first key that is not
    below the hash it looks for, whether or not that key is the hash: on
    sorted keys that do not hold the hash but hold a larger key, the round
    deletes a key of some other virtual node. *)
Theorem Remove_round_deletes_next_key r i h k :
  StronglySorted N.le (keys h) →
  vhash h r i ∉ keys h → k ∈ keys h → (vhash h r i < k)%N →
  ∃ h' idx k',
    removeReplica repr r i h = Some h' ∧
    keys h !! idx = Some k' ∧ k' ≠ vhash h r i ∧
    keys h' = delete idx (keys h).
Proof.
  intros Hsorted Hnin [p Hp]%list_elem_of_lookup Hlt.
  destruct (searchKeys_sorted (keys h) (vhash h r i) Hsorted)
    as (idx & Hs & Hidx & Hbelow & Habove).
  assert (idx ≤ Z.of_nat p) as Hle.
  { destruct (decide (idx ≤ Z.of_nat p)) as [|Hgt]; [done|].
    pose proof (Hbelow p k Hp ltac:(lia)). lia. }
  pose proof (lookup_lt_Some _ _ _ Hp) as Hplen.
  destruct (lookup_lt_is_Some_2 (keys h) (Z.to_nat idx)) as [k' Hk'];
    [lia|].
  unfold removeReplica. rewrite Hs. simpl.
  rewrite decide_True by lia.
  eexists _, (Z.to_nat idx), k'. split; [done|]. split; [done|]. split.
  - intros ->. apply Hnin. by eapply list_elem_of_lookup_2.
  - destruct (removeRingNode_fields repr
                (with_keys h (take (Z.to_nat idx) (keys h)
                              ++ drop (Z.to_nat (idx + 1)) (keys h)))
                (vhash h r i) r) as (_ & _ & -> & _).
    simpl. rewrite delete_take_drop.
    by replace (Z.to_nat (idx + 1)) with (S (Z.to_nat idx)) by lia.
Qed.

Variable Hash : string → N.

(** X13.  [Get] returns nodes of the ring only: a node it returns is listed
    in the node set and sits at the hash of one of its own virtual nodes. *)
Theorem Get_returns_listed_node h v x :
  reachable repr Hash h → Get repr fmt_v h v = Some (Some x) →
  repr x ∈ nodes h ∧
  ∃ i, 0 ≤ i < replicas h ∧ x ∈ bucket h (vhash h (repr x) i).
Proof.
  intros (Hp & Hl & _ & _)%reachable_inv (k & _ & Hx)%Get_Some_bucket.
  split; [by eapply Hl|].
  destruct (Hp k x Hx) as (i & Hi & ->). by exists i.
Qed.

(** X14.  A removed node is never returned: after [Remove(n)], [Get] returns
    no node known as [n], whatever is looked up. *)
Theorem Get_never_returns_removed h n h' v x :
  reachable repr Hash h → Remove repr h n = Some h' →
  Get repr fmt_v h' v = Some (Some x) → repr x ≠ repr n.
Proof.
  intros (Hp & Hl & _ & _)%reachable_inv Hrem (k & _ & Hx)%Get_Some_bucket.
  destruct (Remove_keeps_inv repr h n h' Hp Hl Hrem) as (_ & _ & Habs & _).
  by eapply Habs.
Qed.

(** X15.  [Remove] is idempotent: removing a node again changes nothing. *)
Theorem Remove_idempotent h n h1 :
  reachable repr Hash h → Remove repr h n = Some h1 →
  Remove repr h1 n = Some h1.
Proof.
  intros (Hp & Hl & _ & _)%reachable_inv Hrem.
  destruct (Remove_keeps_inv repr h n h1 Hp Hl Hrem) as (_ & _ & _ & Hnin).
  unfold Remove, containsNode. by rewrite bool_decide_eq_false_2.
Qed.


End Ring.

Lemma sample_ring_two_reachable : reachable id length_hash sample_ring_two.
Proof.
  apply (reach_add id length_hash sample_ring_mmm "n" 3);
    [exact sample_ring_mmm_reachable|]. by vm_compute.
Qed.

Lemma sample_ring_gone_Remove :
  Remove id sample_ring_two "n" = Some sample_ring_gone.
Proof. by vm_compute. Qed.

Lemma sample_ring_n_Remove :
  Remove id sample_ring_two "mmm" = Some sample_ring_n.
Proof. by vm_compute. Qed.

Lemma Get_returns_listed_node_witness :
  reachable id length_hash sample_ring_two ∧
  Get id id sample_ring_two "abc" = Some (Some "mmm") ∧
  "mmm" ∈ nodes sample_ring_two ∧
  ∃ i, 0 ≤ i < replicas sample_ring_two ∧
       "mmm" ∈ bucket sample_ring_two (vhash sample_ring_two "mmm" i).
Proof.
  assert (HGet : Get id id sample_ring_two "abc" = Some (Some "mmm"))
    by (by vm_compute).
  split; [exact sample_ring_two_reachable|]. split; [exact HGet|].
  exact (Get_returns_listed_node id id length_hash sample_ring_two "abc" "mmm"
           sample_ring_two_reachable HGet).
Defined.

Lemma Get_never_returns_removed_witness :
  reachable id length_hash sample_ring_two ∧
  Remove id sample_ring_two "mmm" = Some sample_ring_n ∧
  keys sample_ring_n = [2; 2; 2]%N ∧
  Get id id sample_ring_n "abc" = Some (Some "n") ∧
  "n" ≠ "mmm".
Proof.
  assert (HGet : Get id id sample_ring_n "abc" = Some (Some "n"))
    by (by vm_compute).
  split; [exact sample_ring_two_reachable|].
  split; [exact sample_ring_n_Remove|]. split; [by vm_compute|].
  split; [exact HGet|].
  exact (Get_never_returns_removed id id length_hash sample_ring_two "mmm"
           sample_ring_n "abc" "n" sample_ring_two_reachable
           sample_ring_n_Remove HGet).
Defined.

Lemma Remove_idempotent_witness :
  reachable id length_hash sample_ring_two ∧
  Remove id sample_ring_two "mmm" = Some sample_ring_n ∧
  Remove id sample_ring_n "mmm" = Some sample_ring_n.
Proof.
  split; [exact sample_ring_two_reachable|].
  split; [exact sample_ring_n_Remove|].
  exact (Remove_idempotent id length_hash sample_ring_two "mmm" sample_ring_n
           sample_ring_two_reachable sample_ring_n_Remove).
Defined.


Lemma Get_picks_successor_witness :
  keys sample_ring_two = [2; 2; 2; 4; 4]%N ∧
  length_hash "abc" = 3%N ∧
  Get id id sample_ring_two "abc" = Some (Some "mmm") ∧
  ∃ k, successor (keys sample_ring_two) (length_hash "abc") k ∧
       Get id id sample_ring_two "abc"
       = pickNode id sample_ring_two (bucket sample_ring_two k) "abc".
Proof.
  assert (Hs : StronglySorted N.le (keys sample_ring_two)).
  { change (keys sample_ring_two) with [2; 2; 2; 4; 4]%N.
    repeat (constructor; [|repeat constructor; lia]). constructor. }
  assert (Hr : ring sample_ring_two ≠ ∅) by (by vm_compute).
  assert (Hk : keys sample_ring_two ≠ []) by done.
  split; [reflexivity|]. split; [reflexivity|]. split; [by vm_compute|].
  exact (Get_picks_successor id id sample_ring_two "abc" Hs Hr Hk).
Defined.

Lemma Remove_round_deletes_next_key_witness :
  keys sample_ring_mmm = [4; 4]%N ∧ vhash sample_ring_mmm "n" 0 = 2%N ∧
  (∃ h', removeReplica id "n" 0 sample_ring_mmm = Some h' ∧
         keys h' = [4]%N) ∧
  reachable id length_hash sample_ring_two ∧
  Remove id sample_ring_two "n" = Some sample_ring_gone ∧
  keys sample_ring_gone = [] ∧
  bucket sample_ring_gone 4%N = ["mmm"; "mmm"] ∧
  Get id id sample_ring_gone "abc" = None.
Proof.
  assert (Hs : StronglySorted N.le (keys sample_ring_mmm)).
  { change (keys sample_ring_mmm) with [4; 4]%N.
    repeat (constructor; [|repeat constructor; lia]). constructor. }
  assert (Hnin : vhash sample_ring_mmm "n" 0 ∉ keys sample_ring_mmm).
  { change (keys sample_ring_mmm) with [4; 4]%N.
    change (vhash sample_ring_mmm "n" 0) with 2%N.
    rewrite !elem_of_cons, elem_of_nil. intros [?|[?|[]]]; done. }
  assert (Hin : 4%N ∈ keys sample_ring_mmm) by (by left).
  assert (Hlt : (vhash sample_ring_mmm "n" 0 < 4)%N) by (by vm_compute).
  destruct (Remove_round_deletes_next_key id "n" 0 sample_ring_mmm 4%N
              Hs Hnin Hin Hlt) as (h' & idx & k' & Hround & _ & _ & Hkeys).
  split; [reflexivity|]. split; [reflexivity|]. split.
  { exists h'. split; [exact Hround|].
    vm_compute in Hround. injection Hround as <-. reflexivity. }
  split; [exact sample_ring_two_reachable|].
  split; [exact sample_ring_gone_Remove|].
  split; [by vm_compute|]. split; by vm_compute.
Defined.

End HashMoreSpec.

(** ** The cache utilities: total weights, formatted keys *)

Module CacheSpec.
Import Strings Cache.





Lemma append_assoc (a b c : string) : (a +:+ b) +:+ c = a +:+ (b +:+ c).
Proof.
  induction a as [|x a IH]; [done|].
  change (String x ((a +:+ b) +:+ c) = String x (a +:+ (b +:+ c))).
  by rewrite IH.
Qed.

Lemma append_nil_r (a : string) : a +:+ "" = a.
Proof.
  induction a as [|x a IH]; [done|].
  change (String x (a +:+ "") = String x a). by rewrite IH.
Qed.

Lemma Join_from x rest sep :
  foldl (λ b s, b +:+ sep +:+ s) x rest
  = x +:+ foldr (λ s acc, sep +:+ s +:+ acc) "" rest.
Proof.
  revert x. induction rest as [|y rest IH]; intros x.
  - by rewrite append_nil_r.
  - change (foldl (λ b s, b +:+ sep +:+ s) (x +:+ sep +:+ y) rest
            = x +:+ sep +:+ y
                +:+ foldr (λ s acc, sep +:+ s +:+ acc) "" rest).
    by rewrite IH, !append_assoc.
Qed.

Lemma formatKeys_cons x y rest :
  formatKeys (x :: y :: rest) = x +:+ "," +:+ formatKeys (y :: rest).
Proof.
  unfold formatKeys, keySeparator, Join. by rewrite !Join_from.
Qed.

(** A key without a comma ends where the first comma is. *)
Lemma comma_free_split x y r1 r2 :
  comma_free x → comma_free y →
  x +:+ "," +:+ r1 = y +:+ "," +:+ r2 → x = y ∧ r1 = r2.
Proof.
  revert y. induction x as [|a x IH]; intros [|b y] Hx Hy Heq.
  - injection Heq as Heq. simpl in Heq. by subst.
  - injection Heq as Hb _. destruct Hy as [Hy _]. by destruct Hy.
  - injection Heq as Ha _. destruct Hx as [Hx _]. by destruct Hx.
  - injection Heq as -> Heq. destruct Hx as [_ Hx], Hy as [_ Hy].
    destruct (IH y Hx Hy Heq) as [-> ->]. done.
Qed.

Lemma comma_free_whole x y r :
  comma_free x → x ≠ y +:+ "," +:+ r.
Proof.
  revert y. induction x as [|a x IH]; intros [|b y] Hx Heq; try done.
  - injection Heq as Ha _. destruct Hx as [Hx _]. by destruct Hx.
  - injection Heq as -> Heq. destruct Hx as [_ Hx]. by eapply IH.
Qed.

(** X19.  Keys without commas can be read back: two non-empty lists of such
    keys that format the same are the same list. *)
Theorem formatKeys_injective keys1 keys2 :
  Forall comma_free keys1 → Forall comma_free keys2 →
  keys1 ≠ [] → keys2 ≠ [] →
  formatKeys keys1 = formatKeys keys2 → keys1 = keys2.
Proof.
  revert keys2.
  induction keys1 as [|x [|x' keys1] IH]; intros keys2 H1 H2 Hn1 Hn2 Heq;
    [done|..];
    (destruct keys2 as [|y [|y' keys2]]; [done|..]).
  - change (x = y) in Heq. by subst.
  - rewrite formatKeys_cons in Heq. apply Forall_cons in H1 as [Hx _].
    by apply comma_free_whole in Heq.
  - rewrite formatKeys_cons in Heq. apply Forall_cons in H2 as [Hy _].
    symmetry in Heq. by apply comma_free_whole in Heq.
  - rewrite !formatKeys_cons in Heq.
    apply Forall_cons in H1 as [Hx H1]. apply Forall_cons in H2 as [Hy H2].
    apply comma_free_split in Heq as [-> Heq]; [|done..].
    f_equal. by apply IH.
Qed.

Lemma formatKeys_injective_witness :
  formatKeys ["a"; "bc"] = "a,bc" ∧
  ∀ keys2, Forall comma_free keys2 → keys2 ≠ [] →
           formatKeys keys2 = "a,bc" → keys2 = ["a"; "bc"].
Proof.
  split; [reflexivity|]. intros keys2 H2 Hn2 Heq. symmetry.
  apply (formatKeys_injective ["a"; "bc"] keys2); [|done..|by symmetry].
  repeat constructor; by intros [=].
Defined.

End CacheSpec.
